(** * Maximum flow by Edmonds-Karp and per-terminal flow decomposition

    A shallow embedding of [src/1.py]: [edmonds_karp],
    [build_logistics_graph], [decompose_terminal_flows] and the
    decomposition loop of [main], followed by the theorems about them. *)

From Stdlib Require Import String List ZArith Lia Bool Arith Sorted Permutation.
Import ListNotations.

Local Open Scope string_scope.
Local Open Scope Z_scope.

(** ** Python dictionaries

    A [dict] keeps its keys in insertion order; assigning to an existing
    key keeps the key's position, assigning to a new key appends it. *)

Module Dict.
Section Dict.
Context {V : Type}.

Definition dict := list (string * V).

Fixpoint get (k : string) (d : dict) : option V :=
  match d with
  | [] => None
  | (k', v) :: r => if String.eqb k k' then Some v else get k r
  end.

Definition mem (k : string) (d : dict) : bool :=
  match get k d with Some _ => true | None => false end.

Fixpoint set (k : string) (v : V) (d : dict) : dict :=
  match d with
  | [] => [(k, v)]
  | (k', v') :: r =>
      if String.eqb k k' then (k, v) :: r else (k', v') :: set k v r
  end.

(** The empty dictionary [{}]. *)
Definition empty : dict := [].

Definition keys (d : dict) : list string := map fst d.

Definition values (d : dict) : list V := map snd d.

(** [d.get(k, dflt)], also the read of a [defaultdict]. *)
Definition get_or (dflt : V) (k : string) (d : dict) : V :=
  match get k d with Some v => v | None => dflt end.

(** No key occurs twice: what every Python dict satisfies. *)
Definition wf (d : dict) : Prop := NoDup (keys d).
End Dict.
Arguments dict : clear implicits.
End Dict.

Import Dict.

(** ** Results of fallible, possibly non-terminating code *)

(** [KeyError] and [RecursionError] are the two exceptions the code can
    raise; [OutOfFuel] says that a [while True] loop is still running
    after the number of rounds it was given. *)
Inductive result (A : Type) : Type :=
| Ok (a : A)
| KeyError
| RecursionError
| OutOfFuel.
Arguments Ok {A} a.
Arguments KeyError {A}.
Arguments RecursionError {A}.
Arguments OutOfFuel {A}.

Definition bind {A B : Type} (m : result A) (f : A -> result B) : result B :=
  match m with
  | Ok a => f a
  | KeyError => KeyError
  | RecursionError => RecursionError
  | OutOfFuel => OutOfFuel
  end.

Notation "x <- m ;; k" := (bind m (fun x => k))
  (at level 61, m at next level, right associativity).
Notation "' p <- m ;; k" := (bind m (fun p => k))
  (at level 61, p pattern, m at next level, right associativity).

(** [d[k]] on a plain [dict]. *)
Definition lookup {V : Type} (k : string) (d : dict V) : result V :=
  match get k d with Some v => Ok v | None => KeyError end.

(** ** Numbers: Python integers and [float('inf')] *)

Inductive num : Type :=
| Fin (z : Z)
| Inf.

(** [min(a, b)] keeps [a] unless [b < a]. *)
Definition num_min (a b : num) : num :=
  match a, b with
  | Inf, _ => b
  | Fin _, Inf => a
  | Fin x, Fin y => if y <? x then b else a
  end.

Definition num_add (a b : num) : num :=
  match a, b with
  | Fin x, Fin y => Fin (x + y)
  | _, _ => Inf
  end.

(** ** The Edmonds-Karp algorithm *)

Definition Graph := dict (dict Z).

(** [flow[u][v] += x] on [defaultdict(lambda: defaultdict(int))]: both
    levels are created on first use. *)
Definition flow_add (u v : string) (x : Z) (flow : Graph) : Graph :=
  let fu := get_or empty u flow in
  set u (set v (get_or 0 v fu + x) fu) flow.

(** [residual[u][v] += x] on plain dicts. *)
Definition residual_add (u v : string) (x : Z) (residual : Graph)
  : result Graph :=
  ru <- lookup u residual ;;
  c <- lookup v ru ;;
  Ok (set u (set v (c + x) ru) residual).

(** Body of the loop that adds the reverse edges. *)
Definition add_reverse_edge (u v : string) (residual : Graph) : Graph :=
  let residual := if mem v residual then residual else set v empty residual in
  let rv := get_or empty v residual in
  if mem u rv then residual else set v (set u 0 rv) residual.

Definition init_residual (graph : Graph) : Graph :=
  fold_left
    (fun residual u =>
       fold_left (fun residual v => add_reverse_edge u v residual)
                 (keys (get_or empty u graph)) residual)
    (keys graph) graph.

Definition Parent := dict (option string).

(** [for neighbor, capacity in residual[current].items()], with its
    [break] once the sink is reached. *)
Fixpoint scan_neighbors (sink current : string) (items : dict Z)
    (parent : Parent) (queue : list string)
  : result (Parent * list string) :=
  match items with
  | [] => Ok (parent, queue)
  | (neighbor, capacity) :: rest =>
      if capacity >? 0 then
        p <- lookup neighbor parent ;;
        match p with
        | None =>
            let parent := set neighbor (Some current) parent in
            let queue := (queue ++ [neighbor])%list in
            if String.eqb neighbor sink then Ok (parent, queue)
            else scan_neighbors sink current rest parent queue
        | Some _ => scan_neighbors sink current rest parent queue
        end
      else scan_neighbors sink current rest parent queue
  end.

(** [while queue and parent[sink] is None]. *)
Fixpoint bfs (fuel : nat) (residual : Graph) (sink : string)
    (parent : Parent) (queue : list string) : result Parent :=
  match fuel with
  | O => OutOfFuel
  | S fuel =>
      match queue with
      | [] => Ok parent
      | current :: queue =>
          p <- lookup sink parent ;;
          match p with
          | Some _ => Ok parent
          | None =>
              items <- lookup current residual ;;
              '(parent, queue) <-
                 scan_neighbors sink current items parent queue ;;
              bfs fuel residual sink parent queue
          end
      end
  end.

(** [parent = {node: None for node in residual}; parent[source] = source]. *)
Definition init_parent (residual : Graph) (source : string) : Parent :=
  set source (Some source) (map (fun kv => (fst kv, None)) residual).

(** [prev = parent[node]] followed by a use of [residual[prev]]:
    a [None] predecessor is not a key of [residual]. *)
Definition parent_of (node : string) (parent : Parent) : result string :=
  p <- lookup node parent ;;
  match p with
  | Some prev => Ok prev
  | None => KeyError
  end.

(** First walk from the sink back to the source: the bottleneck. *)
Fixpoint bottleneck (fuel : nat) (residual : Graph) (parent : Parent)
    (source node : string) (path_flow : num) : result num :=
  match fuel with
  | O => OutOfFuel
  | S fuel =>
      if String.eqb node source then Ok path_flow
      else
        prev <- parent_of node parent ;;
        rp <- lookup prev residual ;;
        c <- lookup node rp ;;
        bottleneck fuel residual parent source prev
                   (num_min path_flow (Fin c))
  end.

(** Second walk: update flows and residual capacities. *)
Fixpoint augment (fuel : nat) (parent : Parent) (source node : string)
    (path_flow : Z) (flow residual : Graph) : result (Graph * Graph) :=
  match fuel with
  | O => OutOfFuel
  | S fuel =>
      if String.eqb node source then Ok (flow, residual)
      else
        prev <- parent_of node parent ;;
        let flow := flow_add prev node path_flow flow in
        let flow := flow_add node prev (- path_flow) flow in
        residual <- residual_add prev node (- path_flow) residual ;;
        residual <- residual_add node prev path_flow residual ;;
        augment fuel parent source prev path_flow flow residual
  end.

(** The [while True] loop; [fuel] bounds the number of its iterations.
    The searches inside one iteration visit each node at most once, so
    they are given a number of steps computed from the size of [parent]
    (see [bfs_run] and [chain_bound]). *)
Fixpoint ek_loop (fuel : nat) (source sink : string)
    (residual flow : Graph) (max_flow : num) : result (num * Graph) :=
  match fuel with
  | O => OutOfFuel
  | S fuel =>
      let parent := init_parent residual source in
      let steps := S (length parent) in
      parent <- bfs steps residual sink parent [source] ;;
      p <- lookup sink parent ;;
      match p with
      | None => Ok (max_flow, flow)
      | Some _ =>
          path_flow <- bottleneck steps residual parent source sink Inf ;;
          match path_flow with
          | Inf =>
              (* no edge was read: the sink is the source, and the
                 second walk is empty as well *)
              ek_loop fuel source sink residual flow (num_add max_flow Inf)
          | Fin pf =>
              '(flow, residual) <-
                 augment steps parent source sink pf flow residual ;;
              ek_loop fuel source sink residual flow
                      (num_add max_flow (Fin pf))
          end
      end
  end.

Definition edmonds_karp (fuel : nat) (graph : Graph) (source sink : string)
  : result (num * Graph) :=
  ek_loop fuel source sink (init_residual graph) empty (Fin 0).

(** ** The reference logistics network *)

Definition INF : Z := 10 ^ 9.

Definition shop_name (i : nat) : string :=
  match i with
  | 1%nat => "Shop 1" | 2%nat => "Shop 2" | 3%nat => "Shop 3"
  | 4%nat => "Shop 4" | 5%nat => "Shop 5" | 6%nat => "Shop 6"
  | 7%nat => "Shop 7" | 8%nat => "Shop 8" | 9%nat => "Shop 9"
  | 10%nat => "Shop 10" | 11%nat => "Shop 11" | 12%nat => "Shop 12"
  | 13%nat => "Shop 13" | _ => "Shop 14"
  end.

(** [graph[u][v] = c] on [defaultdict(dict)]. *)
Definition graph_set (u v : string) (c : Z) (graph : Graph) : Graph :=
  set u (set v c (get_or empty u graph)) graph.

Definition terminals : list string := ["Terminal 1"; "Terminal 2"].
Definition warehouses : list string :=
  ["Warehouse 1"; "Warehouse 2"; "Warehouse 3"; "Warehouse 4"].
Definition shops : list string := map shop_name (seq 1 14).

Definition build_logistics_graph : Graph :=
  let graph : Graph := empty in
  let graph := graph_set "S" "Terminal 1" (25 + 20 + 15) graph in
  let graph := graph_set "S" "Terminal 2" (15 + 30 + 10) graph in
  let graph := graph_set "Terminal 1" "Warehouse 1" 25 graph in
  let graph := graph_set "Terminal 1" "Warehouse 2" 20 graph in
  let graph := graph_set "Terminal 1" "Warehouse 3" 15 graph in
  let graph := graph_set "Terminal 2" "Warehouse 3" 15 graph in
  let graph := graph_set "Terminal 2" "Warehouse 4" 30 graph in
  let graph := graph_set "Terminal 2" "Warehouse 2" 10 graph in
  let graph := graph_set "Warehouse 1" "Shop 1" 15 graph in
  let graph := graph_set "Warehouse 1" "Shop 2" 10 graph in
  let graph := graph_set "Warehouse 1" "Shop 3" 20 graph in
  let graph := graph_set "Warehouse 2" "Shop 4" 15 graph in
  let graph := graph_set "Warehouse 2" "Shop 5" 10 graph in
  let graph := graph_set "Warehouse 2" "Shop 6" 25 graph in
  let graph := graph_set "Warehouse 3" "Shop 7" 20 graph in
  let graph := graph_set "Warehouse 3" "Shop 8" 15 graph in
  let graph := graph_set "Warehouse 3" "Shop 9" 10 graph in
  let graph := graph_set "Warehouse 4" "Shop 10" 20 graph in
  let graph := graph_set "Warehouse 4" "Shop 11" 10 graph in
  let graph := graph_set "Warehouse 4" "Shop 12" 15 graph in
  let graph := graph_set "Warehouse 4" "Shop 13" 5 graph in
  let graph := graph_set "Warehouse 4" "Shop 14" 10 graph in
  fold_left (fun graph shop => graph_set shop "T" INF graph) shops graph.

(** ** Decomposition of the flow by terminal *)

(** Membership in a list or a set of names. *)
Definition inb (x : string) (l : list string) : bool :=
  existsb (String.eqb x) l.

(** [visited.add(node)]. *)
Definition set_add (x : string) (visited : list string) : list string :=
  if inb x visited then visited else x :: visited.

(** [flow[u]] on a [defaultdict]: a missing key is inserted with the
    default value, so the read returns the store as well. *)
Definition defaultdict_read (u : string) (flow : Graph) : dict Z * Graph :=
  match get u flow with
  | Some fu => (fu, flow)
  | None => (empty, set u empty flow)
  end.

(** The inner loop [for v, f in flow[u].items()]. *)
Definition copy_positive (valid_nodes : list string) (u : string)
    (items : dict Z) (sub_flow : Graph) : Graph :=
  fold_left
    (fun sub_flow vf =>
       if inb (fst vf) valid_nodes && (snd vf >? 0)
       then graph_set u (fst vf) (snd vf) sub_flow
       else sub_flow)
    items sub_flow.

(** The loop [for u in flow] that builds [sub_flow]; the caller's
    [flow] is threaded through its reads. *)
Definition build_sub_flow (valid_nodes : list string) (flow : Graph)
  : Graph * Graph :=
  fold_left
    (fun st u =>
       let '(sub_flow, flow) := st in
       if inb u valid_nodes then
         let '(fu, flow) := defaultdict_read u flow in
         (copy_positive valid_nodes u fu sub_flow, flow)
       else (sub_flow, flow))
    (keys flow) (empty, flow).

(** What [dfs] returns: the path ([None] when there is none), the
    bottleneck, and the set [visited] it shares with its caller. *)
Definition dfs_result : Type := (option (list string) * num) * list string.

(** The loop over [sub_flow[node].items()] inside [dfs]; [rec] is the
    recursive call. *)
Fixpoint dfs_scan (rec : string -> list string -> result dfs_result)
    (node : string) (items : dict Z) (visited : list string)
  : result dfs_result :=
  match items with
  | [] => Ok ((None, Fin 0), visited)
  | (neighbor, capacity) :: rest =>
      if (capacity >? 0) && negb (inb neighbor visited) then
        '(r, visited) <- rec neighbor visited ;;
        match fst r with
        | Some path =>
            Ok ((Some (node :: path), num_min (Fin capacity) (snd r)),
                visited)
        | None => dfs_scan rec node rest visited
        end
      else dfs_scan rec node rest visited
  end.

(** The nested function [dfs].  Every call of [dfs] takes a frame of
    the interpreter's stack until it returns; [limit] is the number of
    frames of [dfs] that the interpreter still allows on top of the
    frames of the callers, and the call that would need one more
    raises RecursionError.  Nothing in the code catches it. *)
Fixpoint dfs (limit : nat) (shops : list string) (sub_flow : Graph)
    (node : string) (visited : list string) : result dfs_result :=
  match limit with
  | O => RecursionError
  | S limit =>
      if inb node shops then Ok ((Some [node], Inf), visited)
      else
        let visited := set_add node visited in
        if mem node sub_flow then
          dfs_scan (dfs limit shops sub_flow) node
                   (get_or empty node sub_flow) visited
        else Ok ((None, Fin 0), visited)
  end.

(** [sub_flow[u][v] -= bottleneck] on [defaultdict(dict)]. *)
Definition sub_flow_sub (u v : string) (bottleneck : Z) (sub_flow : Graph)
  : result Graph :=
  let fu := get_or empty u sub_flow in
  c <- lookup v fu ;;
  Ok (set u (set v (c - bottleneck) fu) sub_flow).

(** [for i in range(len(path) - 1)]. *)
Fixpoint subtract_path (path : list string) (bottleneck : Z)
    (sub_flow : Graph) : result Graph :=
  match path with
  | u :: ((v :: _) as rest) =>
      sub_flow <- sub_flow_sub u v bottleneck sub_flow ;;
      subtract_path rest bottleneck sub_flow
  | _ => Ok sub_flow
  end.

Definition num_eqb (a b : num) : bool :=
  match a, b with
  | Fin x, Fin y => x =? y
  | Inf, Inf => true
  | _, _ => false
  end.

(** The [while True] loop of [decompose_terminal_flows]: [fuel] counts
    its rounds, [limit] is the recursion depth available to [dfs]. *)
Fixpoint decompose_loop (fuel limit : nat) (terminal : string)
    (shops : list string) (sub_flow : Graph) (res : dict num)
  : result (dict num) :=
  match fuel with
  | O => OutOfFuel
  | S fuel =>
      '(r, _) <- dfs limit shops sub_flow terminal [] ;;
      match fst r with
      | None => Ok res
      | Some path =>
          let bottleneck := snd r in
          if num_eqb bottleneck (Fin 0) then Ok res
          else
            let shop := last path "" in
            let res :=
              set shop (num_add (get_or (Fin 0) shop res) bottleneck) res in
            match bottleneck with
            | Inf =>
                (* the path is the terminal alone: no edge to update *)
                decompose_loop fuel limit terminal shops sub_flow res
            | Fin b =>
                sub_flow <- subtract_path path b sub_flow ;;
                decompose_loop fuel limit terminal shops sub_flow res
            end
      end
  end.

(** [decompose_terminal_flows]: the outcome and the caller's flow map
    after the call. *)
Definition decompose_terminal_flows (fuel limit : nat) (terminal : string)
    (flow : Graph) (terminals warehouses shops : list string)
  : result (dict num) * Graph :=
  let valid_nodes := (terminals ++ warehouses ++ shops)%list in
  let '(sub_flow, flow) := build_sub_flow valid_nodes flow in
  (decompose_loop fuel limit terminal shops sub_flow empty, flow).

(** The loop [for term in terminals] of [main], which passes the same
    [flow] object to every call. *)
Fixpoint decompose_all (fuel limit : nat) (terms : list string)
    (flow : Graph) (terminals warehouses shops : list string)
    (terminal_to_shop_flow : dict (result (dict num)))
  : dict (result (dict num)) * Graph :=
  match terms with
  | [] => (terminal_to_shop_flow, flow)
  | term :: rest =>
      let '(r, flow) :=
        decompose_terminal_flows fuel limit term flow
                                 terminals warehouses shops in
      decompose_all fuel limit rest flow terminals warehouses shops
                    (set term r terminal_to_shop_flow)
  end.

(** * Verification *)

(** ** Dictionaries *)

Ltac deq a b := destruct (String.eqb_spec a b) as [? | ?]; subst; try congruence.

Section DictFacts.
Context {V : Type}.
Implicit Types (d : dict V) (k : string) (v : V).

Lemma get_set_eq k v d : get k (set k v d) = Some v.
Proof.
  induction d as [| [k' v'] r IH]; simpl.
  - now rewrite String.eqb_refl.
  - destruct (String.eqb k k') eqn:E; simpl.
    + now rewrite String.eqb_refl.
    + now rewrite E.
Qed.

Lemma get_set_neq k k' v d : k <> k' -> get k' (set k v d) = get k' d.
Proof.
  intros Hne. induction d as [| [k0 v0] r IH]; simpl.
  - deq k' k; reflexivity.
  - deq k k0; simpl; deq k' k0; reflexivity.
Qed.

Lemma get_set k k' v d :
  get k' (set k v d) = if String.eqb k' k then Some v else get k' d.
Proof.
  destruct (String.eqb_spec k' k) as [-> | n].
  - apply get_set_eq.
  - apply get_set_neq; congruence.
Qed.

Lemma get_None k d : get k d = None <-> ~ In k (keys d).
Proof.
  induction d as [| [k' v'] r IH]; simpl.
  - tauto.
  - destruct (String.eqb_spec k k') as [-> | n].
    + split; [discriminate | tauto].
    + rewrite IH. split; intros H; [intros [E | E]; congruence | tauto].
Qed.

Lemma get_Some_keys k v d : get k d = Some v -> In k (keys d).
Proof.
  intros H. destruct (in_dec string_dec k (keys d)) as [|n]; [assumption|].
  apply get_None in n. congruence.
Qed.

Lemma keys_get k d : In k (keys d) -> exists v, get k d = Some v.
Proof.
  intros H. destruct (get k d) eqn:E; [eauto|].
  apply get_None in E. contradiction.
Qed.

Lemma get_Some_In k v d : get k d = Some v -> In (k, v) d.
Proof.
  induction d as [| [k' v'] r IH]; simpl; [discriminate|].
  destruct (String.eqb_spec k k') as [-> | n].
  - intros [= ->]. now left.
  - intros H. right. auto.
Qed.

Lemma In_get k v d : wf d -> In (k, v) d -> get k d = Some v.
Proof.
  unfold wf. induction d as [| [k' v'] r IH]; simpl; [tauto|].
  intros Hnd [[= -> ->] | Hin].
  - now rewrite String.eqb_refl.
  - inversion Hnd; subst. destruct (String.eqb_spec k k') as [-> | n].
    + exfalso. apply H1. change k' with (fst (k', v)). now apply in_map.
    + auto.
Qed.

Lemma keys_set_in k v d : In k (keys d) -> keys (set k v d) = keys d.
Proof.
  induction d as [| [k' v'] r IH]; simpl; [tauto|].
  intros H. destruct (String.eqb_spec k k') as [-> | n]; simpl; [reflexivity|].
  f_equal. apply IH. destruct H; congruence.
Qed.

Lemma keys_set_notin k v d :
  ~ In k (keys d) -> keys (set k v d) = (keys d ++ [k])%list.
Proof.
  induction d as [| [k' v'] r IH]; simpl; [reflexivity|].
  intros H. destruct (String.eqb_spec k k') as [-> | n]; simpl; [tauto|].
  f_equal. apply IH. tauto.
Qed.

Lemma in_keys_set k k' v d :
  In k' (keys (set k v d)) <-> k' = k \/ In k' (keys d).
Proof.
  destruct (in_dec string_dec k (keys d)) as [i | n].
  - rewrite keys_set_in by assumption. split; [tauto|].
    intros [-> | ?]; assumption.
  - rewrite keys_set_notin by assumption. rewrite in_app_iff. simpl.
    split; intros H; repeat destruct H as [H | H]; subst; tauto.
Qed.

Lemma wf_set k v d : wf d -> wf (set k v d).
Proof.
  unfold wf. intros H.
  destruct (in_dec string_dec k (keys d)) as [i | n].
  - now rewrite keys_set_in.
  - rewrite keys_set_notin by assumption.
    apply NoDup_app; [assumption | repeat constructor; simpl; tauto |].
    intros x Hx [<- | []]. contradiction.
Qed.

Lemma mem_true k d : mem k d = true <-> In k (keys d).
Proof.
  unfold mem. destruct (get k d) eqn:E.
  - apply get_Some_keys in E. tauto.
  - apply get_None in E. split; [discriminate | contradiction].
Qed.

Lemma mem_false k d : mem k d = false <-> ~ In k (keys d).
Proof.
  rewrite <- mem_true. destruct (mem k d); split; congruence.
Qed.

Lemma get_or_set dflt k k' v d :
  get_or dflt k' (set k v d) = if String.eqb k' k then v else get_or dflt k' d.
Proof.
  unfold get_or. rewrite get_set. now destruct (String.eqb k' k).
Qed.

Lemma get_or_notin dflt k d : ~ In k (keys d) -> get_or dflt k d = dflt.
Proof.
  intros H. apply get_None in H. unfold get_or. now rewrite H.
Qed.

Lemma length_set_in k v d :
  In k (keys d) -> length (set k v d) = length d.
Proof.
  intros H. rewrite <- !(length_map fst). fold (keys (set k v d)).
  now rewrite keys_set_in.
Qed.
End DictFacts.

(** ** Capacities, slots and the shape of a nested dictionary *)

(** [cap g u v]: the entry [g[u][v]], zero when it is absent. *)
Definition cap (g : Graph) (u v : string) : Z := get_or 0 v (get_or empty u g).

(** The keys of [g[u]], none when [u] is not a key. *)
Definition slots_of (u : string) (g : Graph) : list string :=
  keys (get_or empty u g).

(** The keys of both levels, without the values. *)
Definition shape (g : Graph) : dict (list string) :=
  map (fun kv => (fst kv, keys (snd kv))) g.

Lemma keys_shape g : keys (shape g) = keys g.
Proof. unfold shape, keys. rewrite map_map. reflexivity. Qed.

Lemma get_shape u g : get u (shape g) = option_map keys (get u g).
Proof.
  induction g as [| [k d] r IH]; simpl; [reflexivity|].
  destruct (String.eqb u k); [reflexivity | exact IH].
Qed.

Lemma slots_of_shape u g : slots_of u g = get_or (V:=list string) [] u (shape g).
Proof.
  unfold slots_of, get_or. rewrite get_shape.
  destruct (get u g); reflexivity.
Qed.

Lemma shape_keys g g' : shape g = shape g' -> keys g = keys g'.
Proof. intros H. rewrite <- (keys_shape g), H. apply keys_shape. Qed.

Lemma shape_slots_of g g' u : shape g = shape g' -> slots_of u g = slots_of u g'.
Proof. intros H. now rewrite !slots_of_shape, H. Qed.

Lemma shape_set u d g :
  In u (keys g) -> keys d = slots_of u g -> shape (set u d g) = shape g.
Proof.
  unfold slots_of, get_or.
  induction g as [| [k d0] r IH]; simpl; [tauto|].
  destruct (String.eqb_spec u k) as [-> | n]; simpl; intros Hin Hk.
  - now rewrite Hk.
  - f_equal. apply IH; [|assumption]. destruct Hin; congruence.
Qed.

Lemma slots_of_keys u v g : In v (slots_of u g) -> In u (keys g).
Proof.
  unfold slots_of, get_or. destruct (get u g) eqn:E; [|contradiction].
  intros _. eapply get_Some_keys; eauto.
Qed.

Lemma slots_of_set u k d g :
  slots_of u (set k d g) = if String.eqb u k then keys d else slots_of u g.
Proof. unfold slots_of. rewrite get_or_set. now destruct (String.eqb u k). Qed.

Lemma cap_set u d g a b :
  cap (set u d g) a b = if String.eqb a u then get_or 0 b d else cap g a b.
Proof. unfold cap. rewrite get_or_set. now destruct (String.eqb a u). Qed.

Lemma cap_no_slot g u v : ~ In v (slots_of u g) -> cap g u v = 0.
Proof. intros H. unfold cap. now apply get_or_notin. Qed.

Lemma cap_flow_add u v x f a b :
  cap (flow_add u v x f) a b =
  cap f a b + (if String.eqb a u && String.eqb b v then x else 0).
Proof.
  unfold flow_add. rewrite cap_set.
  destruct (String.eqb_spec a u) as [-> | n]; simpl.
  - rewrite get_or_set. destruct (String.eqb_spec b v) as [-> | n'].
    + reflexivity.
    + unfold cap. lia.
  - lia.
Qed.

Lemma residual_add_ok u v x r :
  In v (slots_of u r) ->
  exists r', residual_add u v x r = Ok r' /\ shape r' = shape r /\
    forall a b, cap r' a b =
                cap r a b + (if String.eqb a u && String.eqb b v then x else 0).
Proof.
  intros Hs. pose proof (slots_of_keys _ _ _ Hs) as Hu.
  unfold residual_add, lookup.
  destruct (keys_get _ _ Hu) as [ru Eu]. rewrite Eu. simpl.
  assert (Hru : get_or empty u r = ru) by (unfold get_or; now rewrite Eu).
  unfold slots_of in Hs. rewrite Hru in Hs.
  destruct (keys_get _ _ Hs) as [c Ec]. rewrite Ec. simpl.
  eexists. split; [reflexivity|]. split.
  - apply shape_set; [assumption|]. unfold slots_of. rewrite Hru.
    now apply keys_set_in.
  - intros a b. rewrite cap_set.
    destruct (String.eqb_spec a u) as [-> | n]; simpl; [|lia].
    rewrite get_or_set. unfold cap. rewrite Hru.
    destruct (String.eqb_spec b v) as [-> | n'].
    + unfold get_or. rewrite Ec. reflexivity.
    + lia.
Qed.

Lemma residual_add_err u v x r :
  ~ In v (slots_of u r) -> residual_add u v x r = KeyError.
Proof.
  intros Hs. unfold residual_add, lookup, slots_of, get_or in *.
  destruct (get u r) as [ru|] eqn:Eu; simpl; [|reflexivity].
  apply get_None in Hs. now rewrite Hs.
Qed.

(** The structure the residual graph has from its construction on. *)
Definition res_wf (r : Graph) : Prop :=
  NoDup (keys r) /\
  (forall u, NoDup (slots_of u r)) /\
  (forall u v, In v (slots_of u r) -> In v (keys r) /\ In u (slots_of v r)).

Lemma res_wf_shape r r' : shape r = shape r' -> res_wf r -> res_wf r'.
Proof.
  intros H (H1 & H2 & H3). unfold res_wf.
  rewrite <- (shape_keys _ _ H).
  split; [assumption|]. split.
  - intros u. now rewrite <- (shape_slots_of _ _ u H).
  - intros u v. rewrite <- !(shape_slots_of _ _ _ H). apply H3.
Qed.

(** ** Construction of the residual graph *)

Definition wf_graph (g : Graph) : Prop :=
  NoDup (keys g) /\ forall u, NoDup (slots_of u g).

(** The edges of a graph, in iteration order. *)
Definition edges (g : Graph) : list (string * string) :=
  flat_map (fun u => map (pair u) (slots_of u g)) (keys g).

Lemma in_edges g u v : In (u, v) (edges g) <-> In v (slots_of u g).
Proof.
  unfold edges. rewrite in_flat_map. split.
  - intros (x & Hx & Hin). apply in_map_iff in Hin.
    destruct Hin as (y & [= -> ->] & Hy). assumption.
  - intros H. exists u. split; [eapply slots_of_keys; eauto|].
    now apply in_map.
Qed.

Definition add_reverse_edges (l : list (string * string)) (r : Graph) : Graph :=
  fold_left (fun r e => add_reverse_edge (fst e) (snd e) r) l r.

Lemma add_reverse_edges_map u l r :
  fold_left (fun r v => add_reverse_edge u v r) l r =
  add_reverse_edges (map (pair u) l) r.
Proof.
  revert r. induction l as [| v l IH]; intros r; simpl; [reflexivity|].
  apply IH.
Qed.

Lemma add_reverse_edges_flat_map g l r :
  fold_left
    (fun r u => fold_left (fun r v => add_reverse_edge u v r) (slots_of u g) r)
    l r =
  add_reverse_edges (flat_map (fun u => map (pair u) (slots_of u g)) l) r.
Proof.
  revert r. induction l as [| u l IH]; intros r; simpl; [reflexivity|].
  unfold add_reverse_edges. rewrite fold_left_app.
  rewrite IH, add_reverse_edges_map. reflexivity.
Qed.

Lemma init_residual_edges g : init_residual g = add_reverse_edges (edges g) g.
Proof. apply add_reverse_edges_flat_map. Qed.

Lemma add_reverse_edge_spec u v r :
  let r' := add_reverse_edge u v r in
  (forall x, In x (keys r') <-> In x (keys r) \/ x = v) /\
  (forall x y, In y (slots_of x r') <->
               In y (slots_of x r) \/ (x = v /\ y = u)) /\
  (forall x y, cap r' x y = cap r x y) /\
  (NoDup (keys r) -> NoDup (keys r')) /\
  ((forall x, NoDup (slots_of x r)) -> forall x, NoDup (slots_of x r')).
Proof.
  unfold add_reverse_edge.
  set (r1 := if mem v r then r else set v empty r).
  assert (K1 : forall x, In x (keys r1) <-> In x (keys r) \/ x = v).
  { intros x. unfold r1. destruct (mem v r) eqn:E.
    - apply mem_true in E. split; [tauto | intros [?| ->]; assumption].
    - rewrite in_keys_set. tauto. }
  assert (S1 : forall x, slots_of x r1 = slots_of x r).
  { intros x. unfold r1. destruct (mem v r) eqn:E; [reflexivity|].
    apply mem_false in E. rewrite slots_of_set.
    destruct (String.eqb_spec x v) as [-> | n]; [|reflexivity].
    unfold slots_of. now rewrite get_or_notin. }
  assert (C1 : forall x y, cap r1 x y = cap r x y).
  { intros x y. unfold r1. destruct (mem v r) eqn:E; [reflexivity|].
    apply mem_false in E. rewrite cap_set.
    destruct (String.eqb_spec x v) as [-> | n]; [|reflexivity].
    unfold cap. now rewrite (get_or_notin _ v r). }
  assert (N1 : NoDup (keys r) -> NoDup (keys r1)).
  { unfold r1. destruct (mem v r); [auto|]. apply wf_set. }
  assert (V1 : In v (keys r1)) by (apply K1; now right).
  assert (Erv : keys (get_or empty v r1) = slots_of v r) by apply S1.
  set (rv := get_or empty v r1) in *.
  destruct (mem u rv) eqn:E; simpl.
  - apply mem_true in E. rewrite Erv in E.
    split; [exact K1|]. split; [|split; [exact C1|split; [exact N1|]]].
    + intros x y. rewrite S1. split; [tauto|].
      intros [? | [-> ->]]; assumption.
    + intros H x. rewrite S1. apply H.
  - apply mem_false in E. rewrite Erv in E.
    split; [|split; [|split; [|split]]].
    + intros x. rewrite in_keys_set, K1. tauto.
    + intros x y. rewrite slots_of_set.
      destruct (String.eqb_spec x v) as [-> | n].
      * rewrite in_keys_set, Erv. split; [intros [-> | ?]; tauto|].
        intros [? | [_ ->]]; tauto.
      * rewrite S1. split; [tauto|].
        intros [? | [-> _]]; [assumption | contradiction].
    + intros x y. rewrite cap_set.
      destruct (String.eqb_spec x v) as [-> | n]; [|apply C1].
      rewrite get_or_set. destruct (String.eqb_spec y u) as [-> | n'].
      * rewrite <- C1. symmetry. apply cap_no_slot. now rewrite S1.
      * rewrite <- C1. reflexivity.
    + intros H. apply wf_set. apply N1, H.
    + intros H x. rewrite slots_of_set.
      destruct (String.eqb_spec x v) as [-> | n].
      * apply wf_set. unfold wf. rewrite Erv. apply H.
      * rewrite S1. apply H.
Qed.

Lemma add_reverse_edges_spec l r :
  let r' := add_reverse_edges l r in
  (forall x, In x (keys r') <-> In x (keys r) \/ exists u, In (u, x) l) /\
  (forall x y, In y (slots_of x r') <-> In y (slots_of x r) \/ In (y, x) l) /\
  (forall x y, cap r' x y = cap r x y) /\
  (NoDup (keys r) -> NoDup (keys r')) /\
  ((forall x, NoDup (slots_of x r)) -> forall x, NoDup (slots_of x r')).
Proof.
  induction l as [| [u v] l IH] using rev_ind; simpl.
  - split; [|split; [|split; [|split]]]; auto.
    + intros x. split; [tauto|]. intros [? | [? []]]; assumption.
    + intros x y. split; [tauto|]. intros [? | []]; assumption.
  - unfold add_reverse_edges in *. rewrite fold_left_app. simpl.
    destruct IH as (K & S & C & N & N').
    destruct (add_reverse_edge_spec u v
                (fold_left (fun r e => add_reverse_edge (fst e) (snd e) r) l r))
      as (K2 & S2 & C2 & N2 & N2').
    split; [|split; [|split; [|split]]]; auto.
    + intros x. rewrite K2, K. split.
      * intros [[? | [w Hw]] | ->]; [tauto | |].
        -- right. exists w. apply in_app_iff. now left.
        -- right. exists u. apply in_app_iff. right. now left.
      * intros [? | [w Hw]]; [tauto|].
        apply in_app_iff in Hw. destruct Hw as [Hw | [[= -> ->] | []]].
        -- left. right. eauto.
        -- now right.
    + intros x y. rewrite S2, S. rewrite in_app_iff. simpl. split.
      * intros [[? | ?] | [-> ->]]; tauto.
      * intros [? | [? | [[= -> ->] | []]]]; tauto.
    + intros x y. now rewrite C2, C.
Qed.

(** The node set of a graph: the keys of the residual graph, which are
    the keys of the graph and the targets of its edges. *)
Definition nodes (g : Graph) : list string := keys (init_residual g).

Lemma in_nodes g x :
  In x (nodes g) <-> In x (keys g) \/ exists u, In x (slots_of u g).
Proof.
  unfold nodes. rewrite init_residual_edges.
  destruct (add_reverse_edges_spec (edges g) g) as (K & _). rewrite K.
  split; intros [? | [u Hu]]; auto; right; exists u; now apply in_edges.
Qed.

Lemma init_residual_slots g x y :
  In y (slots_of x (init_residual g)) <->
  In y (slots_of x g) \/ In x (slots_of y g).
Proof.
  rewrite init_residual_edges.
  destruct (add_reverse_edges_spec (edges g) g) as (_ & S & _). rewrite S.
  now rewrite in_edges.
Qed.

Lemma init_residual_cap g x y : cap (init_residual g) x y = cap g x y.
Proof.
  rewrite init_residual_edges.
  destruct (add_reverse_edges_spec (edges g) g) as (_ & _ & C & _). apply C.
Qed.

Lemma init_residual_wf g : wf_graph g -> res_wf (init_residual g).
Proof.
  intros [Hk Hs]. split; [|split].
  - rewrite init_residual_edges.
    destruct (add_reverse_edges_spec (edges g) g) as (_ & _ & _ & N & _). auto.
  - rewrite init_residual_edges.
    destruct (add_reverse_edges_spec (edges g) g) as (_ & _ & _ & _ & N). auto.
  - intros u v H. split.
    + apply in_nodes. apply init_residual_slots in H.
      destruct H as [H | H]; [right; eauto | left].
      eapply slots_of_keys; eauto.
    + apply init_residual_slots. apply init_residual_slots in H. tauto.
Qed.

(** ** Walks in a directed graph *)

Section Walks.
Local Open Scope nat_scope.
Variable E : string -> string -> Prop.

(** [walk n x y]: [y] is reached from [x] along [n] edges. *)
Inductive walk : nat -> string -> string -> Prop :=
| walk_nil x : walk 0 x x
| walk_cons n x y z : E x y -> walk n y z -> walk (S n) x z.

Lemma walk_snoc n x y z : walk n x y -> E y z -> walk (S n) x z.
Proof.
  induction 1 as [x | n x w y Hxw Hwy IH]; intros Hyz.
  - apply walk_cons with z; [assumption | constructor].
  - apply walk_cons with w; auto.
Qed.

Lemma walk_app n m x y z : walk n x y -> walk m y z -> walk (n + m) x z.
Proof.
  induction 1 as [x | n x w y Hxw Hwy IH]; intros H; simpl.
  - assumption.
  - apply walk_cons with w; auto.
Qed.

Lemma walk_snoc_inv n x z :
  walk (S n) x z -> exists y, walk n x y /\ E y z.
Proof.
  revert x. induction n as [| n IH]; intros x H.
  - inversion H as [| ? ? y ? Hxy Hyz]; subst. inversion Hyz; subst.
    exists x. split; [constructor | assumption].
  - inversion H as [| ? ? y ? Hxy Hyz]; subst.
    destruct (IH _ Hyz) as (w & Hw & Hwz).
    exists w. split; [apply walk_cons with y|]; assumption.
Qed.

Lemma walk_0 x y : walk 0 x y -> x = y.
Proof. now inversion 1. Qed.

Variables s t : string.

(** The edge [(u, v)] lies on a walk of [l] edges from [s] to [t]. *)
Definition thru (l : nat) (u v : string) : Prop :=
  E u v /\ exists a b, a + 1 + b = l /\ walk a s u /\ walk b v t.

Definition reachable (x y : string) : Prop := exists n, walk n x y.
End Walks.

(** Replacing edges of shortest walks by their reverses neither shortens
    the distance from [s] to [t] nor adds an edge to the shortest walks:
    the measure behind the Edmonds-Karp bound. *)
Section ShortestAugment.
Local Open Scope nat_scope.
Variables E E' : string -> string -> Prop.
Variables (s t : string) (l : nat).
Hypothesis shortest : forall j, walk E j s t -> l <= j.
Hypothesis new_edges : forall x y, E' x y -> E x y \/ thru E s t l y x.

Lemma walk_from_source k x :
  walk E' k s x -> exists k', k' <= k /\ walk E k' s x.
Proof.
  revert x. induction k as [| k IH]; intros x H.
  - apply walk_0 in H. subst. exists 0. split; [lia | constructor].
  - apply walk_snoc_inv in H. destruct H as (y & Hy & Hyx).
    destruct (IH _ Hy) as (k' & Hk' & Hw).
    destruct (new_edges _ _ Hyx) as [He | (He & a & b & Hab & Ha & Hb)].
    + exists (S k'). split; [lia | eapply walk_snoc; eauto].
    + pose proof (shortest _ (walk_app _ _ _ _ _ _ Hw Hb)).
      exists a. split; [lia | assumption].
Qed.

Lemma walk_to_sink k x :
  walk E' k x t -> exists k', k' <= k /\ walk E k' x t.
Proof.
  remember t as z eqn:Ez. induction 1 as [x | n x y z Hxy Hyz IH]; subst.
  - exists 0. split; [lia | constructor].
  - destruct (IH eq_refl shortest new_edges) as (k' & Hk' & Hw).
    destruct (new_edges _ _ Hxy) as [He | (He & a & b & Hab & Ha & Hb)].
    + exists (S k'). split; [lia | eapply walk_cons; eauto].
    + pose proof (shortest _ (walk_app _ _ _ _ _ _ Ha Hw)).
      exists b. split; [lia | assumption].
Qed.

Lemma distance_mono j : walk E' j s t -> l <= j.
Proof.
  intros H. destruct (walk_from_source _ _ H) as (k' & Hk' & Hw).
  apply shortest in Hw. lia.
Qed.

Lemma thru_mono u v : thru E' s t l u v -> thru E s t l u v.
Proof.
  intros (He & a & b & Hab & Ha & Hb).
  destruct (walk_from_source _ _ Ha) as (a' & Ha' & Hwa).
  destruct (walk_to_sink _ _ Hb) as (b' & Hb' & Hwb).
  destruct (new_edges _ _ He) as [He' | (He' & c & d & Hcd & Hc & Hd)].
  - pose proof (shortest _ (walk_app _ _ _ _ _ _ Hwa
                              (walk_cons _ _ _ _ _ He' Hwb))).
    assert (a' = a) by lia. assert (b' = b) by lia. subst.
    split; [assumption|]. exists a, b. auto.
  - pose proof (shortest _ (walk_app _ _ _ _ _ _ Hc Hwb)).
    pose proof (shortest _ (walk_app _ _ _ _ _ _ Hwa Hd)).
    lia.
Qed.
End ShortestAugment.

(** ** Breadth-first search *)


Definition edge (r : Graph) (u v : string) : Prop := 0 < cap r u v.

Definition visited (p : Parent) (v : string) : Prop :=
  exists x, get v p = Some (Some x).

Definition is_unvisited (kv : string * option string) : bool :=
  match snd kv with None => true | Some _ => false end.

Definition unvisited_count (p : Parent) : nat :=
  length (filter is_unvisited p).

Lemma unvisited_set y c p :
  get y p = Some None ->
  S (unvisited_count (set y (Some c) p)) = unvisited_count p.
Proof.
  unfold unvisited_count.
  induction p as [| [k v] p IH]; simpl; [discriminate|].
  destruct (String.eqb_spec y k) as [-> | n].
  - intros [= ->]. reflexivity.
  - intros H. simpl. unfold is_unvisited at 1 3. simpl.
    destruct v; simpl; rewrite <- (IH H); reflexivity.
Qed.

Lemma unvisited_le p : (unvisited_count p <= length p)%nat.
Proof. apply filter_length_le. Qed.

Lemma ssorted_snoc {A} (R : A -> A -> Prop) l y :
  StronglySorted R l -> Forall (fun a => R a y) l ->
  StronglySorted R (l ++ [y]).
Proof.
  induction 1 as [| a l Hs IH Ha]; intros Hy; simpl.
  - repeat constructor.
  - inversion Hy; subst. constructor; [auto|].
    apply Forall_app. split; [assumption | repeat constructor; assumption].
Qed.

Lemma ssorted_ext {A} (R R' : A -> A -> Prop) l :
  (forall a b, In a l -> In b l -> R a b -> R' a b) ->
  StronglySorted R l -> StronglySorted R' l.
Proof.
  intros H Hs. induction Hs as [| a l Hs IH Ha]; constructor.
  - apply IH. intros; apply H; simpl; auto.
  - rewrite Forall_forall in *. intros b Hb. apply H; simpl; auto.
Qed.

Lemma get_init_none (r : Graph) v :
  get v (map (fun kv : string * dict Z => (fst kv, @None string)) r) =
  if mem v r then Some None else None.
Proof.
  unfold mem. induction r as [| [k d] g IH]; simpl; [reflexivity|].
  destruct (String.eqb v k); [reflexivity | exact IH].
Qed.

Lemma keys_init_parent r s : In s (keys r) -> keys (init_parent r s) = keys r.
Proof.
  intros Hs. unfold init_parent.
  assert (E : keys (map (fun kv : string * dict Z => (fst kv, @None string)) r)
              = keys r).
  { unfold keys. rewrite map_map. reflexivity. }
  rewrite keys_set_in; [assumption | now rewrite E].
Qed.

Lemma get_init_parent r s v :
  get v (init_parent r s) =
  if String.eqb v s then Some (Some s)
  else if mem v r then Some None else None.
Proof. unfold init_parent. now rewrite get_set, get_init_none. Qed.

Section BFS.
Local Open Scope nat_scope.
Variables (r : Graph) (s t : string).
Hypothesis Hr : res_wf r.
Hypothesis Hs : In s (keys r).
Hypothesis Ht : In t (keys r).
Hypothesis Hst : s <> t.

Definition lev_le (lev : string -> nat) (a b : string) : Prop :=
  lev a <= lev b.

(** Every edge leaving [x] leads to a visited node at most one level
    further. *)
Definition closed (p : Parent) (lev : string -> nat) (x : string) : Prop :=
  forall y, edge r x y -> visited p y /\ lev y <= S (lev x).

(** The predecessor map is a tree rooted at the source whose edges
    have residual capacity and go one level down. *)
Record tree_inv (p : Parent) (lev : string -> nat) : Prop := {
  ti_keys : keys p = keys r;
  ti_src : get s p = Some (Some s);
  ti_lev0 : lev s = 0;
  ti_par : forall v x, get v p = Some (Some x) -> v <> s ->
           visited p x /\ edge r x v /\ lev v = S (lev x)
}.

Lemma items_cap c y cv : In (y, cv) (get_or empty c r) -> cap r c y = cv.
Proof.
  intros H. destruct Hr as (_ & Hin & _). specialize (Hin c).
  unfold cap, get_or at 1. now rewrite (In_get _ _ _ Hin H).
Qed.

Lemma items_keys c y (cv : Z) :
  In (y, cv) (get_or empty c r) -> In y (keys r).
Proof.
  intros H. destruct Hr as (_ & _ & Hsl). apply (Hsl c y).
  unfold slots_of, keys. change y with (fst (y, cv)). now apply in_map.
Qed.

Lemma edge_items c y : edge r c y -> In (y, cap r c y) (get_or empty c r).
Proof.
  unfold edge, cap. intros H. unfold get_or at 1.
  destruct (get y (get_or empty c r)) eqn:E.
  - now apply get_Some_In.
  - unfold get_or at 1 in H. rewrite E in H. lia.
Qed.

Lemma discover p lev c y :
  tree_inv p lev -> visited p c -> get y p = Some None -> edge r c y ->
  forall p1 lev1,
  p1 = set y (Some c) p ->
  lev1 = (fun v => if String.eqb v y then S (lev c) else lev v) ->
  tree_inv p1 lev1 /\
  (forall v, visited p v -> v <> y /\ visited p1 v /\ lev1 v = lev v) /\
  visited p1 y /\ lev1 y = S (lev c) /\
  (forall v, visited p1 v -> v = y \/ visited p v).
Proof.
  intros Ti Hc Hy He p1 lev1 Ep Elev.
  assert (Old : forall v, visited p v ->
                          v <> y /\ visited p1 v /\ lev1 v = lev v).
  { intros v [x Hx]. assert (v <> y) by congruence.
    split; [assumption|]. split.
    - exists x. rewrite Ep, get_set_neq; auto.
    - rewrite Elev. destruct (String.eqb_spec v y); congruence. }
  assert (New : visited p1 y).
  { exists c. rewrite Ep. apply get_set_eq. }
  assert (Ly : lev1 y = S (lev c)).
  { rewrite Elev. now rewrite String.eqb_refl. }
  split; [|split; [exact Old|split; [exact New|split; [exact Ly|]]]].
  - destruct Ti as [Tk Ts Tl Tp]. constructor.
    + rewrite Ep, keys_set_in; [assumption|].
      eapply get_Some_keys; eauto.
    + rewrite Ep, get_set_neq; [assumption | congruence].
    + rewrite Elev. destruct (String.eqb_spec s y); congruence.
    + intros v x Hv Hvs. rewrite Ep, get_set in Hv.
      destruct (String.eqb_spec v y) as [-> | n].
      * injection Hv as <-. destruct (Old _ Hc) as (? & ? & Hl).
        rewrite Ly, Hl. auto.
      * destruct (Tp _ _ Hv Hvs) as (Hx & Hxe & Hl).
        destruct (Old _ Hx) as (? & ? & Hlx).
        rewrite Hlx.
        assert (Hlv : lev1 v = lev v).
        { rewrite Elev. destruct (String.eqb_spec v y); congruence. }
        rewrite Hlv. auto.
  - intros v [x Hx]. rewrite Ep, get_set in Hx.
    destruct (String.eqb_spec v y); [now left | right; now exists x].
Qed.

Lemma closed_extends p lev p' lev' x :
  (forall v, visited p v -> visited p' v /\ lev' v = lev v) ->
  visited p x -> closed p lev x -> closed p' lev' x.
Proof.
  intros Hext Hx Hc y Hy. destruct (Hc y Hy) as [Hv Hl].
  destruct (Hext _ Hv) as [? ->]. destruct (Hext _ Hx) as [? ->]. auto.
Qed.

(** State of the search while the sink has not been reached;
    [c] is the node being expanded. *)
Definition scan_inv (c : string) (p : Parent) (q : list string)
    (lev : string -> nat) : Prop :=
  tree_inv p lev /\ visited p c /\ get t p = Some None /\
  Forall (visited p) q /\ StronglySorted (lev_le lev) (c :: q) /\
  (forall v, visited p v -> lev v <= S (lev c)) /\
  (forall x, visited p x -> x <> c -> ~ In x q -> closed p lev x).

(** State once the sink has been reached. *)
Definition found (p : Parent) (lev : string -> nat) : Prop :=
  visited p t /\
  forall x, visited p x -> closed p lev x \/ lev t <= S (lev x).

Lemma scan_spec c items : forall p q lev,
  scan_inv c p q lev ->
  (forall y cv, In (y, cv) items -> In y (keys r) /\ cap r c y = cv) ->
  exists p' q' lev',
    scan_neighbors t c items p q = Ok (p', q') /\
    unvisited_count p' + length q' = unvisited_count p + length q /\
    ((scan_inv c p' q' lev' /\
      (forall v, visited p v -> visited p' v /\ lev' v = lev v) /\
      (forall y cv, In (y, cv) items -> (0 < cv)%Z ->
                    visited p' y /\ lev' y <= S (lev' c)))
     \/ (tree_inv p' lev' /\ found p' lev')).
Proof.
  induction items as [| [y cv] rest IH]; intros p q lev Inv Hitems.
  - exists p, q, lev. split; [reflexivity|]. split; [reflexivity|].
    left. split; [assumption|]. split; [auto|]. intros ? ? [].
  - assert (Hrest : forall y cv, In (y, cv) rest ->
                                 In y (keys r) /\ cap r c y = cv)
      by (intros; apply Hitems; now right).
    destruct (Hitems y cv (or_introl eq_refl)) as [Hyk Hycap].
    simpl. destruct (Z.gtb_spec cv 0) as [Hpos | Hneg].
    + pose proof Inv as (Ti & Hc & Htn & Hq & Hsort & Hbound & Hclosed).
      rewrite <- (ti_keys _ _ Ti) in Hyk.
      destruct (keys_get _ _ Hyk) as [o Ho].
      unfold lookup. rewrite Ho. simpl. destruct o as [x|].
      * destruct (IH p q lev Inv Hrest)
          as (p' & q' & lev' & Hrun & Hm & Hpost).
        exists p', q', lev'. split; [assumption|]. split; [assumption|].
        destruct Hpost as [(Inv' & Hext & Hvis) | Hfound]; [left | now right].
        split; [assumption|]. split; [assumption|].
        intros y0 cv0 [[= <- <-] | Hin] H0; [|eauto].
        assert (Hy : visited p y) by (now exists x).
        destruct (Hext _ Hy) as [? ->]. destruct (Hext _ Hc) as [? ->].
        auto.
      * assert (He : edge r c y) by (unfold edge; lia).
        remember (set y (Some c) p) as p1 eqn:Ep.
        remember (fun v => if String.eqb v y then S (lev c) else lev v)
          as lev1 eqn:Elev.
        destruct (discover p lev c y Ti Hc Ho He p1 lev1 Ep Elev)
          as (Ti1 & Old & New & Ly & Inv1).
        assert (Hm1 : unvisited_count p1 + length (q ++ [y]) =
                      unvisited_count p + length q).
        { rewrite length_app. simpl.
          rewrite <- (unvisited_set y c p Ho). rewrite <- Ep. lia. }
        assert (Hcl : forall x, visited p1 x -> x <> c ->
                                ~ In x (q ++ [y]) -> closed p1 lev1 x).
        { intros x Hx Hxc Hxq. rewrite in_app_iff in Hxq. simpl in Hxq.
          destruct (Inv1 _ Hx) as [-> | Hx']; [tauto|].
          apply closed_extends with p lev; auto.
          intros v Hv. destruct (Old _ Hv) as (_ & ? & ?). auto. }
        assert (Hlc : lev1 c = lev c) by (apply (Old _ Hc)).
        assert (Hb1 : forall v, visited p1 v -> lev1 v <= S (lev1 c)).
        { intros v Hv. rewrite Hlc. destruct (Inv1 _ Hv) as [-> | Hv'].
          - rewrite Ly. lia.
          - destruct (Old _ Hv') as (_ & _ & ->). auto. }
        destruct (String.eqb_spec y t) as [-> | Hyt].
        -- exists p1, (q ++ [t])%list, lev1.
           split; [reflexivity|]. split; [assumption|]. right.
           split; [assumption|]. split; [assumption|].
           intros x Hx. rewrite Ly.
           destruct (String.eqb_spec x c) as [-> | Hxc];
             [right; rewrite Hlc; lia|].
           destruct (in_dec string_dec x (q ++ [t])) as [Hin | Hnin].
           ++ right. apply in_app_iff in Hin.
              destruct Hin as [Hin | [<- | []]]; [|rewrite Ly; lia].
              inversion Hsort as [| ? ? _ Hall]; subst.
              rewrite Forall_forall in Hall, Hq.
              destruct (Old _ (Hq _ Hin)) as (_ & _ & ->).
              specialize (Hall _ Hin). unfold lev_le in Hall. lia.
           ++ left. auto.
        -- assert (Inv' : scan_inv c p1 (q ++ [y]) lev1).
           { split; [assumption|]. split; [apply (Old _ Hc)|]. split.
             { rewrite Ep, get_set_neq; congruence. }
             split.
             { apply Forall_app. split.
               - rewrite Forall_forall in *. intros v Hv.
                 apply (Old _ (Hq _ Hv)).
               - repeat constructor. assumption. }
             split; [|split; assumption].
             change (c :: q ++ [y])%list with ((c :: q) ++ [y])%list.
             apply ssorted_snoc.
             - apply ssorted_ext with (lev_le lev); [|assumption].
               assert (Hall : forall a, In a (c :: q) -> lev1 a = lev a).
               { intros a [<- | Ha]; [assumption|].
                 rewrite Forall_forall in Hq. apply (Old _ (Hq _ Ha)). }
               intros a b Ha Hb. unfold lev_le.
               rewrite (Hall _ Ha), (Hall _ Hb). auto.
             - rewrite Forall_forall. intros a Ha. unfold lev_le.
               rewrite Ly.
               assert (Hva : visited p a).
               { destruct Ha as [<- | Ha]; [assumption|].
                 rewrite Forall_forall in Hq. auto. }
               destruct (Old _ Hva) as (_ & _ & ->).
               specialize (Hbound _ Hva). lia. }
           destruct (IH p1 (q ++ [y])%list lev1 Inv' Hrest)
             as (p' & q' & lev' & Hrun & Hm & Hpost).
           exists p', q', lev'. split; [assumption|].
           split; [lia|].
           destruct Hpost as [(Inv'' & Hext & Hvis) | Hfound];
             [left | now right].
           split; [assumption|]. split.
           ++ intros v Hv. destruct (Old _ Hv) as (_ & Hv1 & <-). auto.
           ++ intros y0 cv0 [[= <- <-] | Hin] H0; [|eauto].
              destruct (Hext _ New) as [? ->].
              destruct (Hext c) as [? ->]; [apply (Old _ Hc)|].
              split; [assumption|]. rewrite Ly, Hlc. lia.
    + destruct (IH p q lev Inv Hrest)
        as (p' & q' & lev' & Hrun & Hm & Hpost).
      exists p', q', lev'. split; [assumption|]. split; [assumption|].
      destruct Hpost as [(Inv' & Hext & Hvis) | Hfound]; [left | now right].
      split; [assumption|]. split; [assumption|].
      intros y0 cv0 [[= <- <-] | Hin] H0; [lia | eauto].
Qed.

(** Invariant of the [while] loop of the search. *)
Definition bfs_inv (p : Parent) (q : list string) : Prop :=
  exists lev, tree_inv p lev /\
    ((get t p = Some None /\ Forall (visited p) q /\
      StronglySorted (lev_le lev) q /\
      (forall c q', q = c :: q' ->
                    forall v, visited p v -> lev v <= S (lev c)) /\
      (forall x, visited p x -> ~ In x q -> closed p lev x))
     \/ found p lev).

(** What the search guarantees when it stops: either the sink is not
    reached and the visited nodes are closed under residual edges, or
    the sink is reached at the least possible depth. *)
Definition bfs_post (p : Parent) : Prop :=
  exists lev, tree_inv p lev /\
    ((get t p = Some None /\ forall x, visited p x -> closed p lev x)
     \/ found p lev).

Lemma bfs_spec fuel : forall p q,
  bfs_inv p q -> unvisited_count p + length q < fuel ->
  exists p', bfs fuel r t p q = Ok p' /\ bfs_post p'.
Proof.
  induction fuel as [| fuel IH]; intros p q Inv Hfuel; [lia|].
  destruct Inv as (lev & Ti & Hcase). simpl.
  destruct q as [| c q].
  - exists p. split; [reflexivity|]. exists lev. split; [assumption|].
    destruct Hcase as [(Htn & _ & _ & _ & Hcl) | Hf]; [left | now right].
    split; [assumption|]. intros x Hx. apply Hcl; auto.
  - destruct Hcase as [(Htn & Hq & Hsort & Hbound & Hcl) | Hf].
    + unfold lookup at 1. rewrite Htn. simpl.
      inversion Hq as [| ? ? Hc Hq']; subst.
      assert (Hck : In c (keys r)).
      { rewrite <- (ti_keys _ _ Ti). destruct Hc as [x Hx].
        eapply get_Some_keys; eauto. }
      destruct (keys_get _ _ Hck) as [items Hitems].
      unfold lookup. rewrite Hitems. simpl.
      assert (Eitems : get_or empty c r = items)
        by (unfold get_or; now rewrite Hitems).
      destruct (scan_spec c items p q lev) as (p' & q' & lev' & Hrun & Hm & Hpost).
      { split; [assumption|]. split; [assumption|]. split; [assumption|].
        split; [assumption|]. split; [assumption|]. split; [eauto|].
        intros x Hx Hxc Hxq. apply Hcl; [assumption|].
        intros [? | ?]; congruence. }
      { intros y cv Hin. rewrite <- Eitems in Hin. split.
        - eapply items_keys; eauto.
        - now apply items_cap. }
      rewrite Hrun. simpl. apply IH; [|simpl in Hfuel; lia].
      destruct Hpost as [((Ti' & Hc' & Htn' & Hq'' & Hsort' & Hb' & Hcl')
                          & Hext & Hvis) | (Ti' & Hf')];
        exists lev'; (split; [assumption|]); [left | now right].
      split; [assumption|]. split; [assumption|].
      apply StronglySorted_inv in Hsort'. destruct Hsort' as [Hsq Hall].
      split; [assumption|]. split.
      * intros c2 q3 -> v Hv. apply Forall_inv in Hall.
        specialize (Hb' _ Hv). unfold lev_le in *. lia.
      * intros x Hx Hxq.
        destruct (String.eqb_spec x c) as [-> | Hxc]; [|auto].
        intros y Hy. pose proof (edge_items _ _ Hy) as Hin.
        rewrite Eitems in Hin. apply (Hvis _ _ Hin). exact Hy.
    + destruct Hf as [[x Hx] Hrest]. unfold lookup. rewrite Hx. simpl.
      exists p. split; [reflexivity|]. exists lev. split; [assumption|].
      right. split; [now exists x | assumption].
Qed.

Lemma unvisited_lt p v x :
  get v p = Some (Some x) -> unvisited_count p < length p.
Proof.
  unfold unvisited_count.
  induction p as [| [k o] p IH]; simpl; [discriminate|].
  destruct (String.eqb v k).
  - intros [= ->]. unfold is_unvisited at 1. simpl.
    pose proof (filter_length_le is_unvisited p). lia.
  - intros H. specialize (IH H).
    destruct (is_unvisited (k, o)); simpl; lia.
Qed.

Lemma bfs_init : bfs_inv (init_parent r s) [s].
Proof.
  assert (Hvis : forall v, visited (init_parent r s) v -> v = s).
  { intros v [x Hx]. rewrite get_init_parent in Hx.
    destruct (String.eqb_spec v s); [assumption|].
    destruct (mem v r); discriminate. }
  assert (Hsrc : get s (init_parent r s) = Some (Some s)).
  { rewrite get_init_parent. now rewrite String.eqb_refl. }
  exists (fun _ => 0). split.
  - constructor; auto.
    + now apply keys_init_parent.
    + intros v x Hv Hvs. exfalso. apply Hvs, Hvis. now exists x.
  - left. split; [|split; [|split; [|split]]].
    + rewrite get_init_parent.
      destruct (String.eqb_spec t s); [congruence|].
      apply mem_true in Ht. now rewrite Ht.
    + repeat constructor. now exists s.
    + repeat constructor.
    + intros. lia.
    + intros x Hx Hn. apply Hvis in Hx. subst. simpl in Hn. tauto.
Qed.

(** The search of one iteration of [edmonds_karp] returns. *)
Lemma bfs_run :
  exists p, bfs (S (length (init_parent r s))) r t (init_parent r s) [s]
            = Ok p /\ bfs_post p.
Proof.
  apply bfs_spec; [apply bfs_init|]. simpl.
  assert (get s (init_parent r s) = Some (Some s)).
  { rewrite get_init_parent. now rewrite String.eqb_refl. }
  pose proof (unvisited_lt _ _ _ H). lia.
Qed.
End BFS.

(** ** The augmenting path recorded in the predecessor map *)

(** [chain p s v l]: following [parent] from [v] reaches the source
    [s]; [l] lists the edges met, the one into [v] first. *)
Inductive chain (p : Parent) (s : string)
  : string -> list (string * string) -> Prop :=
| chain_src : chain p s s []
| chain_step v x l :
    v <> s -> get v p = Some (Some x) -> chain p s x l ->
    chain p s v ((x, v) :: l).

Section Path.
Local Open Scope nat_scope.
Variables (r : Graph) (s : string) (p : Parent) (lev : string -> nat).
Hypothesis Ti : tree_inv r s p lev.

Lemma chain_exists n : forall v,
  lev v = n -> visited p v -> exists l, chain p s v l.
Proof.
  induction n as [| n IH]; intros v Hl Hv.
  - destruct (string_dec v s) as [-> | Hvs]; [exists []; constructor|].
    destruct Hv as [x Hx].
    destruct (ti_par _ _ _ _ Ti _ _ Hx Hvs) as (_ & _ & Hlv). lia.
  - destruct (string_dec v s) as [-> | Hvs]; [exists []; constructor|].
    destruct Hv as [x Hx].
    destruct (ti_par _ _ _ _ Ti _ _ Hx Hvs) as (Hvx & _ & Hlv).
    destruct (IH x) as [l Hc]; [lia | assumption |].
    exists ((x, v) :: l). now constructor.
Qed.

Lemma chain_length v l : chain p s v l -> length l = lev v.
Proof.
  induction 1 as [| v x l Hvs Hx Hc IH]; simpl.
  - symmetry. apply (ti_lev0 _ _ _ _ Ti).
  - destruct (ti_par _ _ _ _ Ti _ _ Hx Hvs) as (_ & _ & ->). now f_equal.
Qed.

Lemma chain_in v l x y :
  chain p s v l -> In (x, y) l ->
  edge r x y /\ lev y = S (lev x) /\ lev y <= lev v /\
  visited p x /\ visited p y.
Proof.
  induction 1 as [| v x0 l Hvs Hx Hc IH]; simpl; [tauto|].
  destruct (ti_par _ _ _ _ Ti _ _ Hx Hvs) as (Hvx & He & Hl).
  intros [[= -> ->] | Hin].
  - repeat split; auto. now exists x.
  - destruct (IH Hin) as (? & ? & ? & ? & ?). repeat split; auto. lia.
Qed.

Lemma chain_nodup v l : chain p s v l -> NoDup l.
Proof.
  induction 1 as [| v x0 l Hvs Hx Hc IH]; constructor; [|assumption].
  intros Hin. destruct (chain_in _ _ _ _ Hc Hin) as (_ & ? & ? & _). lia.
Qed.

Lemma chain_no_reverse v l x y :
  chain p s v l -> In (x, y) l -> ~ In (y, x) l.
Proof.
  intros Hc H1 H2.
  destruct (chain_in _ _ _ _ Hc H1) as (_ & ? & _).
  destruct (chain_in _ _ _ _ Hc H2) as (_ & ? & _). lia.
Qed.

Lemma chain_targets_nodup v l : chain p s v l -> NoDup (map snd l).
Proof.
  induction 1 as [| v x0 l Hvs Hx Hc IH]; simpl; constructor;
    [|assumption].
  intros Hin. apply in_map_iff in Hin. destruct Hin as ([a b] & E & Hin).
  simpl in E. subst b.
  destruct (chain_in _ _ _ _ Hc Hin) as (_ & ? & ? & _).
  destruct (ti_par _ _ _ _ Ti _ _ Hx Hvs) as (_ & _ & ?). lia.
Qed.

Lemma chain_bound v l : chain p s v l -> length l <= length p.
Proof.
  intros Hc. rewrite <- (length_map snd l).
  rewrite <- (length_map fst p). fold (keys p).
  apply NoDup_incl_length; [eapply chain_targets_nodup; eauto|].
  intros y Hy. apply in_map_iff in Hy. destruct Hy as ([a b] & E & Hin).
  simpl in E. subst b.
  destruct (chain_in _ _ _ _ Hc Hin) as (_ & _ & _ & _ & [z Hz]).
  eapply get_Some_keys; eauto.
Qed.

Lemma chain_walk v l : chain p s v l -> walk (edge r) (length l) s v.
Proof.
  induction 1 as [| v x0 l Hvs Hx Hc IH]; simpl; [constructor|].
  destruct (ti_par _ _ _ _ Ti _ _ Hx Hvs) as (_ & He & _).
  eapply walk_snoc; eauto.
Qed.

Lemma chain_thru v l x y :
  chain p s v l -> In (x, y) l -> thru (edge r) s v (length l) x y.
Proof.
  intros Hc Hin. split; [apply (chain_in _ _ _ _ Hc Hin)|].
  revert Hin. induction Hc as [| v x0 l Hvs Hx Hc IH]; simpl; [tauto|].
  destruct (ti_par _ _ _ _ Ti _ _ Hx Hvs) as (_ & He & _).
  intros [[= -> ->] | Hin].
  - exists (length l), 0. split; [lia|]. split; [|constructor].
    now apply chain_walk.
  - destruct (IH Hin) as (a & b & Hab & Ha & Hb).
    exists a, (S b). split; [lia|]. split; [assumption|].
    eapply walk_snoc; eauto.
Qed.
End Path.

(** What the search found, in terms of walks. *)
Section SearchResult.
Local Open Scope nat_scope.
Variables (r : Graph) (s t : string) (p : Parent) (lev : string -> nat).
Hypothesis Ti : tree_inv r s p lev.

Lemma visited_source : visited p s.
Proof. exists s. apply (ti_src _ _ _ _ Ti). Qed.

Lemma found_shortest :
  found r t p lev -> forall j, walk (edge r) j s t -> lev t <= j.
Proof.
  intros [Ht Hf]. pose proof visited_source as Hsrc.
  pose proof (ti_lev0 _ _ _ _ Ti) as Hl0.
  assert (H : forall n x, walk (edge r) n s x ->
                          (visited p x /\ lev x <= n) \/ lev t <= n).
  { induction n as [| n IH]; intros x Hw.
    - apply walk_0 in Hw. subst. left. split; [assumption|].
      rewrite Hl0. lia.
    - apply walk_snoc_inv in Hw. destruct Hw as (y & Hw & He).
      destruct (IH _ Hw) as [[Hy Hl] | Hl]; [|right; lia].
      destruct (Hf _ Hy) as [Hc | Hc]; [|right; lia].
      destruct (Hc _ He). left. split; [assumption | lia]. }
  intros j Hw. destruct (H _ _ Hw) as [[_ ?] | ?]; assumption.
Qed.

Lemma closed_reach :
  (forall x, visited p x -> closed r p lev x) ->
  forall n x, walk (edge r) n s x -> visited p x.
Proof.
  intros Hc. pose proof visited_source as Hsrc.
  induction n as [| n IH]; intros x Hw.
  - apply walk_0 in Hw. subst. assumption.
  - apply walk_snoc_inv in Hw. destruct Hw as (y & Hw & He).
    apply (Hc _ (IH _ Hw) _ He).
Qed.

Lemma visited_reach x : visited p x -> reachable (edge r) s x.
Proof.
  intros Hx. destruct (chain_exists r s p lev Ti _ x eq_refl Hx) as [l Hl].
  exists (length l). eapply chain_walk; eauto.
Qed.
End SearchResult.

(** ** The two walks along the augmenting path *)

Definition edge_dec (a b : string * string) : {a = b} + {a <> b}.
Proof. decide equality; apply string_dec. Defined.

(** Number of occurrences of an edge on a path. *)
Definition cnt (e : string * string) (l : list (string * string)) : Z :=
  Z.of_nat (count_occ edge_dec l e).

Lemma cnt_nil e : cnt e [] = 0.
Proof. reflexivity. Qed.

Lemma cnt_nonneg e l : 0 <= cnt e l.
Proof. unfold cnt. lia. Qed.

Lemma cnt_notin e l : ~ In e l -> cnt e l = 0.
Proof.
  intros H. unfold cnt. apply (count_occ_not_In edge_dec) in H. lia.
Qed.

Lemma cnt_in e l : NoDup l -> In e l -> cnt e l = 1.
Proof.
  intros Hn Hin. unfold cnt.
  rewrite (NoDup_count_occ' edge_dec) in Hn. rewrite (Hn _ Hin). reflexivity.
Qed.

Lemma cnt_cons a b x y l :
  cnt (a, b) ((x, y) :: l) =
  (if String.eqb a x && String.eqb b y then 1 else 0) + cnt (a, b) l.
Proof.
  unfold cnt. destruct (edge_dec (x, y) (a, b)) as [E | n].
  - rewrite (count_occ_cons_eq edge_dec l E). injection E as -> ->.
    rewrite !String.eqb_refl, Nat2Z.inj_succ. cbn [andb]. lia.
  - rewrite (count_occ_cons_neq edge_dec l n).
    destruct (String.eqb_spec a x) as [-> | ?]; cbn [andb]; [|lia].
    destruct (String.eqb_spec b y) as [-> | ?]; [congruence | lia].
Qed.

Global Opaque cnt.

Lemma edge_slot r x y : edge r x y -> In y (slots_of x r).
Proof.
  intros H. destruct (in_dec string_dec y (slots_of x r)); [assumption|].
  unfold edge in H. rewrite cap_no_slot in H by assumption. lia.
Qed.

Lemma lookup_cap r x y :
  In y (slots_of x r) ->
  exists rp, lookup x r = Ok rp /\ lookup y rp = Ok (cap r x y).
Proof.
  intros Hs. pose proof (slots_of_keys _ _ _ Hs) as Hx.
  destruct (keys_get _ _ Hx) as [rp Hrp]. exists rp.
  unfold lookup, cap, slots_of, get_or in *. rewrite Hrp in *.
  split; [reflexivity|].
  destruct (keys_get _ _ Hs) as [c Hc]. now rewrite Hc.
Qed.

(** The bottleneck accumulated over the edges of a path. *)
Definition path_min (r : Graph) (l : list (string * string)) (pf : num)
  : num :=
  fold_left (fun acc e => num_min acc (Fin (cap r (fst e) (snd e)))) l pf.

Lemma path_min_fin r l : forall a,
  exists m, path_min r l (Fin a) = Fin m /\ m <= a /\
            (forall e, In e l -> m <= cap r (fst e) (snd e)) /\
            (m = a \/ exists e, In e l /\ cap r (fst e) (snd e) = m).
Proof.
  induction l as [| e l IH]; intros a; simpl.
  - exists a. repeat split; [lia | tauto | now left].
  - set (c := cap r (fst e) (snd e)).
    destruct (Z.ltb_spec c a) as [Hlt | Hge].
    + destruct (IH c) as (m & -> & Hm & Hall & Hex).
      exists m. split; [reflexivity|]. split; [lia|]. split.
      * intros e' [<- | Hin]; [exact Hm | auto].
      * right. destruct Hex as [-> | (e' & ? & ?)]; eauto.
    + destruct (IH a) as (m & -> & Hm & Hall & Hex).
      exists m. split; [reflexivity|]. split; [lia|]. split.
      * intros e' [<- | Hin]; [fold c; lia | auto].
      * destruct Hex as [-> | (e' & ? & ?)]; [now left | right; eauto].
Qed.

Lemma path_min_inf r e l :
  exists m, path_min r (e :: l) Inf = Fin m /\
            (forall e', In e' (e :: l) -> m <= cap r (fst e') (snd e')) /\
            (exists e', In e' (e :: l) /\ cap r (fst e') (snd e') = m).
Proof.
  simpl. destruct (path_min_fin r l (cap r (fst e) (snd e)))
    as (m & -> & Hm & Hall & Hex).
  exists m. split; [reflexivity|]. split.
  - intros e' [<- | Hin]; auto.
  - destruct Hex as [-> | (e' & ? & ?)]; eauto.
Qed.

Lemma bottleneck_chain r p s v l :
  chain p s v l ->
  (forall x y, In (x, y) l -> In y (slots_of x r)) ->
  forall fuel pf, (length l < fuel)%nat ->
  bottleneck fuel r p s v pf = Ok (path_min r l pf).
Proof.
  induction 1 as [| v x l Hvs Hx Hc IH]; intros Hsl fuel pf Hfuel;
    (destruct fuel as [| fuel]; [simpl in Hfuel; lia|]); simpl.
  - now rewrite String.eqb_refl.
  - destruct (String.eqb_spec v s) as [? | _]; [contradiction|].
    unfold parent_of, lookup at 1. rewrite Hx. simpl.
    destruct (lookup_cap r x v) as (rp & E1 & E2); [apply Hsl; now left|].
    rewrite E1. simpl. rewrite E2. simpl. apply IH; [|simpl in Hfuel; lia].
    intros; apply Hsl; now right.
Qed.

Lemma augment_chain p s pf v l :
  chain p s v l ->
  forall fuel f r, (length l < fuel)%nat ->
  (forall x y, In (x, y) l ->
               In y (slots_of x r) /\ In x (slots_of y r)) ->
  exists f' r',
    augment fuel p s v pf f r = Ok (f', r') /\
    shape r' = shape r /\
    (forall a b, cap r' a b =
                 cap r a b - pf * cnt (a, b) l + pf * cnt (b, a) l) /\
    (forall a b, cap f' a b =
                 cap f a b + pf * cnt (a, b) l - pf * cnt (b, a) l).
Proof.
  induction 1 as [| v x l Hvs Hx Hc IH]; intros fuel f r Hfuel Hsl;
    (destruct fuel as [| fuel]; [simpl in Hfuel; lia|]); simpl.
  - rewrite String.eqb_refl. exists f, r. split; [reflexivity|].
    split; [reflexivity|]. split; intros; rewrite !cnt_nil; lia.
  - destruct (String.eqb_spec v s) as [? | _]; [contradiction|].
    unfold parent_of, lookup at 1. rewrite Hx. simpl.
    destruct (Hsl x v (or_introl eq_refl)) as [S1 S2].
    destruct (residual_add_ok x v (- pf) r S1) as (r1 & -> & Sh1 & C1).
    simpl. rewrite <- (shape_slots_of _ _ v Sh1) in S2.
    destruct (residual_add_ok v x pf r1 S2) as (r2 & -> & Sh2 & C2).
    simpl.
    destruct (IH fuel (flow_add v x (- pf) (flow_add x v pf f)) r2)
      as (f' & r' & -> & Sh' & Cr & Cf).
    { simpl in Hfuel. lia. }
    { intros a b Hin.
      rewrite !(shape_slots_of r2 r) by (now rewrite Sh2, Sh1).
      apply Hsl. now right. }
    exists f', r'. split; [reflexivity|].
    split; [now rewrite Sh', Sh2, Sh1|].
    split; intros a b.
    + rewrite Cr, C2, C1, !cnt_cons.
      generalize (cnt (a, b) l), (cnt (b, a) l). intros c1 c2.
      destruct (String.eqb a x), (String.eqb b v), (String.eqb a v),
        (String.eqb b x); cbn [andb]; lia.
    + rewrite Cf, !cap_flow_add, !cnt_cons.
      generalize (cnt (a, b) l), (cnt (b, a) l). intros c1 c2.
      destruct (String.eqb a x), (String.eqb b v), (String.eqb a v),
        (String.eqb b x); cbn [andb]; lia.
Qed.

(** ** Finite sums over lists of nodes *)

Definition sumZ (f : string -> Z) (l : list string) : Z :=
  fold_right (fun x acc => f x + acc) 0 l.

Lemma sumZ_ext f g l :
  (forall x, In x l -> f x = g x) -> sumZ f l = sumZ g l.
Proof.
  induction l as [| a l IH]; intros H; simpl; [reflexivity|].
  rewrite H, IH; [reflexivity | | now left]. intros; apply H; now right.
Qed.

Lemma sumZ_add f g l : sumZ (fun x => f x + g x) l = sumZ f l + sumZ g l.
Proof. induction l as [| a l IH]; simpl; lia. Qed.

Lemma sumZ_sub f g l : sumZ (fun x => f x - g x) l = sumZ f l - sumZ g l.
Proof. induction l as [| a l IH]; simpl; lia. Qed.

Lemma sumZ_scale c f l : sumZ (fun x => c * f x) l = c * sumZ f l.
Proof. induction l as [| a l IH]; simpl; lia. Qed.

Lemma sumZ_opp f l : sumZ (fun x => - f x) l = - sumZ f l.
Proof. induction l as [| a l IH]; simpl; lia. Qed.

Lemma sumZ_zero l : sumZ (fun _ => 0) l = 0.
Proof. induction l as [| a l IH]; simpl; lia. Qed.

Lemma sumZ_le f g l :
  (forall x, In x l -> f x <= g x) -> sumZ f l <= sumZ g l.
Proof.
  induction l as [| a l IH]; intros H; simpl; [lia|].
  specialize (H a (or_introl eq_refl)) as Ha.
  assert (sumZ f l <= sumZ g l) by (apply IH; intros; apply H; now right).
  lia.
Qed.

Lemma sumZ_swap (f : string -> string -> Z) l1 l2 :
  sumZ (fun x => sumZ (fun y => f x y) l2) l1 =
  sumZ (fun y => sumZ (fun x => f x y) l1) l2.
Proof.
  induction l1 as [| a l1 IH]; simpl.
  - now rewrite sumZ_zero.
  - rewrite IH. now rewrite <- sumZ_add.
Qed.

Lemma sumZ_indicator_notin v c l :
  ~ In v l -> sumZ (fun w => if String.eqb w v then c else 0) l = 0.
Proof.
  induction l as [| a l IH]; simpl; [reflexivity|]. intros H.
  destruct (String.eqb_spec a v); [tauto|]. rewrite IH; tauto.
Qed.

Lemma sumZ_indicator v c l :
  NoDup l -> In v l -> sumZ (fun w => if String.eqb w v then c else 0) l = c.
Proof.
  induction 1 as [| a l Ha Hn IH]; simpl; [tauto|].
  intros [-> | Hin].
  - rewrite String.eqb_refl, sumZ_indicator_notin by assumption. lia.
  - destruct (String.eqb_spec a v) as [-> | ?]; [contradiction|].
    now rewrite IH.
Qed.

Lemma sumZ_app f l1 l2 : sumZ f (l1 ++ l2) = sumZ f l1 + sumZ f l2.
Proof. induction l1 as [| a l1 IH]; simpl; lia. Qed.

Lemma sumZ_filter f (b : string -> bool) l :
  (forall x, In x l -> b x = false -> f x = 0) ->
  sumZ f (filter b l) = sumZ f l.
Proof.
  induction l as [| a l IH]; intros H; simpl; [reflexivity|].
  assert (IH' : sumZ f (filter b l) = sumZ f l)
    by (apply IH; intros; apply H; auto; now right).
  destruct (b a) eqn:E; simpl; rewrite IH'; [reflexivity|].
  rewrite (H a); auto. now left.
Qed.

(** Along a chain from [v] back to [s], every node other than [s] and
    [v] is entered as often as it is left. *)
Lemma chain_balance p s v l N x :
  chain p s v l -> NoDup N ->
  (forall a b, In (a, b) l -> In a N /\ In b N) ->
  sumZ (fun w => cnt (x, w) l - cnt (w, x) l) N =
  (if String.eqb x s then 1 else 0) - (if String.eqb x v then 1 else 0).
Proof.
  intros Hc HN. induction Hc as [| v x0 l Hvs Hx Hc IH]; intros Hin.
  - rewrite (sumZ_ext _ (fun _ => 0)), sumZ_zero; [lia|].
    intros; rewrite !cnt_nil; lia.
  - destruct (Hin x0 v (or_introl eq_refl)) as [Hx0 Hv].
    rewrite (sumZ_ext _ (fun w =>
      ((if String.eqb w v then if String.eqb x x0 then 1 else 0 else 0)
       - (if String.eqb w x0 then if String.eqb x v then 1 else 0 else 0))
      + (cnt (x, w) l - cnt (w, x) l))).
    + rewrite sumZ_add, sumZ_sub, !sumZ_indicator by assumption.
      rewrite IH by (intros; apply Hin; now right). lia.
    + intros w _. rewrite !cnt_cons.
      destruct (String.eqb x x0), (String.eqb w v), (String.eqb w x0),
        (String.eqb x v); cbn [andb]; lia.
Qed.

(** ** Structure of the flow map *)

(** The flow map is a well-formed nested dictionary over the nodes [N]. *)
Definition flow_wf (N : list string) (f : Graph) : Prop :=
  NoDup (keys f) /\ (forall u, NoDup (slots_of u f)) /\
  (forall u, In u (keys f) -> In u N) /\
  (forall u v, In v (slots_of u f) -> In v N).

Lemma flow_add_wf N u v x f :
  In u N -> In v N -> flow_wf N f -> flow_wf N (flow_add u v x f).
Proof.
  intros Hu Hv (H1 & H2 & H3 & H4). unfold flow_add.
  split; [now apply wf_set|]. split; [|split].
  - intros a. rewrite slots_of_set. destruct (String.eqb a u); [|apply H2].
    apply wf_set. apply H2.
  - intros a Ha. apply in_keys_set in Ha. destruct Ha as [-> | Ha]; auto.
  - intros a b. rewrite slots_of_set.
    destruct (String.eqb_spec a u) as [-> | n]; [|apply H4].
    intros Hb. apply in_keys_set in Hb. destruct Hb as [-> | Hb]; [auto|].
    apply (H4 u b Hb).
Qed.

Lemma augment_flow_wf N p s pf fuel : forall node f r f' r',
  (forall v x, get v p = Some (Some x) -> In v N /\ In x N) ->
  flow_wf N f -> augment fuel p s node pf f r = Ok (f', r') ->
  flow_wf N f'.
Proof.
  induction fuel as [| fuel IH]; intros node f r f' r' Hp Hf; simpl;
    [discriminate|].
  destruct (String.eqb node s); [now intros [= <- <-]|].
  unfold parent_of, lookup.
  destruct (get node p) as [[prev|]|] eqn:E; simpl; try discriminate.
  destruct (residual_add prev node (- pf) r) as [r1| | |]; simpl;
    try discriminate.
  destruct (residual_add node prev pf r1) as [r2| | |]; simpl;
    try discriminate.
  destruct (Hp _ _ E). apply IH; [assumption|].
  apply flow_add_wf; auto. apply flow_add_wf; auto.
Qed.

Lemma edges_shape r r' : shape r = shape r' -> edges r = edges r'.
Proof.
  intros H. unfold edges. rewrite (shape_keys _ _ H).
  apply flat_map_ext. intros u. now rewrite (shape_slots_of _ _ u H).
Qed.

Lemma length_keys {V} (d : dict V) : length (keys d) = length d.
Proof. apply length_map. Qed.

(** ** One iteration of the main loop *)

Lemma ek_loop_S fuel source sink residual flow max_flow :
  ek_loop (S fuel) source sink residual flow max_flow =
  (parent <- bfs (S (length (init_parent residual source))) residual sink
                 (init_parent residual source) [source] ;;
   p <- lookup sink parent ;;
   match p with
   | None => Ok (max_flow, flow)
   | Some _ =>
       path_flow <- bottleneck (S (length (init_parent residual source)))
                               residual parent source sink Inf ;;
       match path_flow with
       | Inf => ek_loop fuel source sink residual flow (num_add max_flow Inf)
       | Fin pf =>
           '(flow, residual) <-
              augment (S (length (init_parent residual source)))
                      parent source sink pf flow residual ;;
           ek_loop fuel source sink residual flow (num_add max_flow (Fin pf))
       end
   end).
Proof. reflexivity. Qed.

Section EdmondsKarp.
Variables (g : Graph) (s t : string).
Hypothesis Hg : wf_graph g.
Hypothesis Hs : In s (nodes g).
Hypothesis Ht : In t (nodes g).
Hypothesis Hst : s <> t.

(** Net flow leaving [x]. *)
Definition net (f : Graph) (x : string) : Z :=
  sumZ (fun v => cap f x v) (nodes g).

Record ek_inv (residual flow : Graph) (mf : Z) : Prop := {
  ei_shape : shape residual = shape (init_residual g);
  ei_res : forall u v, cap residual u v = cap g u v - cap flow u v;
  ei_anti : forall u v, cap flow u v = - cap flow v u;
  ei_fwf : flow_wf (nodes g) flow;
  ei_cons : forall x, x <> s -> x <> t -> net flow x = 0;
  ei_val : net flow s = mf;
  ei_nonneg : (forall u v, 0 <= cap g u v) ->
              forall u v, 0 <= cap residual u v
}.

Lemma ek_inv_init : ek_inv (init_residual g) empty 0.
Proof.
  constructor; try reflexivity.
  - intros u v. rewrite init_residual_cap.
    change (cap empty u v) with 0. lia.
  - repeat split; try constructor; simpl; tauto.
  - intros x _ _. unfold net. apply sumZ_zero.
  - unfold net. apply sumZ_zero.
  - intros H u v. rewrite init_residual_cap. apply H.
Qed.

Lemma ek_inv_res_wf residual flow mf :
  ek_inv residual flow mf -> res_wf residual.
Proof.
  intros Inv. apply res_wf_shape with (init_residual g).
  - symmetry. apply (ei_shape _ _ _ Inv).
  - now apply init_residual_wf.
Qed.

Lemma ek_inv_keys residual flow mf :
  ek_inv residual flow mf -> keys residual = nodes g.
Proof. intros Inv. apply shape_keys, (ei_shape _ _ _ Inv). Qed.

Lemma ek_search residual flow mf :
  ek_inv residual flow mf ->
  exists p,
    bfs (S (length (init_parent residual s))) residual t
        (init_parent residual s) [s] = Ok p /\
    bfs_post residual s t p.
Proof.
  intros Inv. pose proof (ek_inv_keys _ _ _ Inv) as Hk.
  apply bfs_run; try assumption.
  - eapply ek_inv_res_wf; eauto.
  - now rewrite Hk.
  - now rewrite Hk.
Qed.

Lemma ek_augment residual flow mf p lev :
  ek_inv residual flow mf ->
  tree_inv residual s p lev -> found residual t p lev ->
  exists pf f' r',
    bottleneck (S (length (init_parent residual s))) residual p s t Inf
      = Ok (Fin pf) /\
    augment (S (length (init_parent residual s))) p s t pf flow residual
      = Ok (f', r') /\
    0 < pf /\
    ek_inv r' f' (mf + pf) /\
    (forall a b, edge r' a b ->
                 edge residual a b \/
                 thru (edge residual) s t (lev t) b a) /\
    (exists x y, thru (edge residual) s t (lev t) x y /\ ~ edge r' x y).
Proof.
  intros Inv Ti [Hvt Hf].
  pose proof (ek_inv_res_wf _ _ _ Inv) as Hrw.
  pose proof (ek_inv_keys _ _ _ Inv) as Hk.
  destruct (chain_exists _ _ _ _ Ti _ t eq_refl Hvt) as [l Hc].
  pose proof (chain_length _ _ _ _ Ti _ _ Hc) as Hlen.
  pose proof (chain_nodup _ _ _ _ Ti _ _ Hc) as Hnd.
  assert (Hfuel : (length l < S (length (init_parent residual s)))%nat).
  { pose proof (chain_bound _ _ _ _ Ti _ _ Hc) as Hb.
    rewrite <- (length_keys p), (ti_keys _ _ _ _ Ti) in Hb.
    rewrite <- (length_keys (init_parent residual s)).
    rewrite keys_init_parent by (now rewrite Hk). lia. }
  assert (Hedge : forall x y, In (x, y) l -> edge residual x y).
  { intros x y Hin. apply (chain_in _ _ _ _ Ti _ _ _ _ Hc Hin). }
  assert (Hslots : forall x y, In (x, y) l ->
             In y (slots_of x residual) /\ In x (slots_of y residual)).
  { intros x y Hin. pose proof (edge_slot _ _ _ (Hedge _ _ Hin)) as Hsl.
    split; [assumption|]. now apply Hrw. }
  assert (HinN : forall a b, In (a, b) l ->
                             In a (nodes g) /\ In b (nodes g)).
  { intros a b Hin. destruct (Hslots _ _ Hin) as [H1 H2].
    rewrite <- Hk. split; eapply slots_of_keys; eauto. }
  destruct l as [| e l'].
  { inversion Hc; congruence. }
  destruct (path_min_inf residual e l') as (pf & Hpm & Hmin & Hbn).
  set (l := e :: l') in *.
  assert (Hpos : 0 < pf).
  { destruct Hbn as ([x y] & Hin & <-). apply (Hedge _ _ Hin). }
  destruct (augment_chain p s pf t l Hc _ flow residual Hfuel Hslots)
    as (f' & r' & Haug & Hsh & Hcr & Hcf).
  exists pf, f', r'. split.
  { rewrite (bottleneck_chain residual p s t l Hc); [now rewrite Hpm | |].
    - intros x y Hin. apply (Hslots _ _ Hin).
    - assumption. }
  split; [assumption|]. split; [assumption|].
  assert (Hone : forall a b, In (a, b) l ->
                             cnt (a, b) l = 1 /\ cnt (b, a) l = 0).
  { intros a b Hin. split; [now apply cnt_in|]. apply cnt_notin.
    eapply chain_no_reverse; eauto. }
  split; [|split].
  - constructor.
    + rewrite Hsh. apply (ei_shape _ _ _ Inv).
    + intros u v. rewrite Hcr, Hcf, (ei_res _ _ _ Inv). lia.
    + intros u v. rewrite !Hcf, (ei_anti _ _ _ Inv u v). lia.
    + eapply augment_flow_wf; [| apply (ei_fwf _ _ _ Inv) | exact Haug].
      intros v x Hvx. rewrite <- Hk, <- (ti_keys _ _ _ _ Ti).
      split; [eapply get_Some_keys; eauto|].
      destruct (string_dec v s) as [-> | Hvs].
      * rewrite (ti_src _ _ _ _ Ti) in Hvx. injection Hvx as <-.
        eapply get_Some_keys. apply (ti_src _ _ _ _ Ti).
      * destruct (ti_par _ _ _ _ Ti _ _ Hvx Hvs) as ([z Hz] & _).
        eapply get_Some_keys; eauto.
    + intros x Hxs Hxt. unfold net.
      rewrite (sumZ_ext _ (fun v => cap flow x v +
                 pf * (cnt (x, v) l - cnt (v, x) l)))
        by (intros; rewrite Hcf; lia).
      rewrite sumZ_add, sumZ_scale.
      rewrite (chain_balance p s t l (nodes g) x Hc); auto.
      * change (sumZ (cap flow x) (nodes g)) with (net flow x).
        rewrite (ei_cons _ _ _ Inv) by assumption.
        destruct (String.eqb_spec x s), (String.eqb_spec x t);
          try contradiction. lia.
      * apply (init_residual_wf g Hg).
    + unfold net.
      rewrite (sumZ_ext _ (fun v => cap flow s v +
                 pf * (cnt (s, v) l - cnt (v, s) l)))
        by (intros; rewrite Hcf; lia).
      rewrite sumZ_add, sumZ_scale.
      rewrite (chain_balance p s t l (nodes g) s Hc); auto.
      * change (sumZ (cap flow s) (nodes g)) with (net flow s).
        rewrite (ei_val _ _ _ Inv).
        rewrite String.eqb_refl.
        destruct (String.eqb_spec s t); [contradiction | lia].
      * apply (init_residual_wf g Hg).
    + intros Hnn u v. rewrite Hcr.
      pose proof (ei_nonneg _ _ _ Inv Hnn u v) as H0.
      destruct (in_dec edge_dec (u, v) l) as [Hin | Hnin].
      * destruct (Hone _ _ Hin) as [-> ->].
        specialize (Hmin _ Hin). simpl in Hmin. lia.
      * rewrite (cnt_notin _ _ Hnin).
        pose proof (cnt_nonneg (v, u) l). nia.
  - intros a b He. unfold edge in He. rewrite Hcr in He.
    destruct (in_dec edge_dec (b, a) l) as [Hin | Hnin].
    + right. rewrite <- Hlen. eapply chain_thru; eauto.
    + left. rewrite (cnt_notin _ _ Hnin) in He.
      pose proof (cnt_nonneg (a, b) l). unfold edge. nia.
  - destruct Hbn as ([x y] & Hin & Hcap). simpl in Hcap.
    exists x, y. split.
    + rewrite <- Hlen. eapply chain_thru; eauto.
    + unfold edge. rewrite Hcr. destruct (Hone _ _ Hin) as [-> ->]. lia.
Qed.

(** ** Termination and the final state of the loop *)

Definition n_nodes : nat := length (nodes g).
Definition n_slots : nat := length (edges (init_residual g)).

(** The state in which the loop stops: the invariant holds and the
    last search closed the set of visited nodes without reaching the
    sink. *)
Definition ek_final (mf : Z) (f : Graph) : Prop :=
  exists r' p lev,
    ek_inv r' f mf /\ tree_inv r' s p lev /\ get t p = Some None /\
    (forall x, visited p x -> closed r' p lev x).

Lemma ek_loop_spec fuel : forall residual flow mf l0 C,
  ek_inv residual flow mf ->
  (forall j, walk (edge residual) j s t -> (l0 <= j)%nat) ->
  (forall u v, thru (edge residual) s t l0 u v -> In (u, v) C) ->
  (l0 <= n_nodes)%nat ->
  ((n_nodes - l0) * (n_slots + 1) + length C < fuel)%nat ->
  exists mf' f',
    ek_loop fuel s t residual flow (Fin mf) = Ok (Fin mf', f') /\
    ek_final mf' f'.
Proof.
  induction fuel as [| fuel IH];
    intros residual flow mf l0 C Inv Hsh HC Hl0 Hfuel;
    [now apply Nat.nlt_0_r in Hfuel|].
  rewrite ek_loop_S.
  destruct (ek_search _ _ _ Inv) as (p & Hbfs & lev & Ti & Hpost).
  rewrite Hbfs. cbn [bind].
  destruct Hpost as [[Htn Hcl] | Hf].
  - unfold lookup. rewrite Htn. cbn [bind].
    exists mf, flow. split; [reflexivity|]. exists residual, p, lev. auto.
  - pose proof Hf as [[x Hx] _]. unfold lookup. rewrite Hx. cbn [bind].
    destruct (ek_augment _ _ _ _ _ Inv Ti Hf)
      as (pf & f' & r' & Hbn & Haug & Hpos & Inv' & Hnew & (a & b & Hthru & Hgone)).
    rewrite Hbn. cbn [bind]. rewrite Haug. cbn [bind num_add].
    pose proof (found_shortest _ _ _ _ _ Ti Hf) as Hshort.
    assert (Hwalk : walk (edge residual) (lev t) s t).
    { destruct Hthru as (He & i & j & Hij & Hi & Hj).
      replace (lev t) with (i + S j)%nat by lia.
      eapply walk_app; [exact Hi|]. eapply walk_cons; eauto. }
    pose proof (Hsh _ Hwalk) as Hle.
    assert (Hlevn : (lev t <= n_nodes)%nat).
    { destruct Hf as [Hvt _].
      destruct (chain_exists _ _ _ _ Ti _ t eq_refl Hvt) as [l Hc].
      pose proof (chain_bound _ _ _ _ Ti _ _ Hc) as Hb.
      rewrite (chain_length _ _ _ _ Ti _ _ Hc) in Hb.
      rewrite <- (length_keys p), (ti_keys _ _ _ _ Ti) in Hb.
      unfold n_nodes. now rewrite <- (ek_inv_keys _ _ _ Inv). }
    remember (if Nat.eqb (lev t) l0 then C else edges residual) as C0
      eqn:EC0.
    assert (HC0 : forall u v, thru (edge residual) s t (lev t) u v ->
                              In (u, v) C0).
    { intros u v Huv. rewrite EC0.
      destruct (Nat.eqb_spec (lev t) l0) as [E | _].
      - apply HC. now rewrite <- E.
      - apply in_edges. apply edge_slot. apply Huv. }
    apply (IH r' f' (mf + pf) (lev t) (remove edge_dec (a, b) C0)); auto.
    + intros j. now apply (distance_mono (edge residual) (edge r')).
    + intros u v Huv. apply in_in_remove.
      * intros [= -> ->]. apply Hgone. apply Huv.
      * apply HC0.
        now apply (thru_mono (edge residual) (edge r') s t (lev t)).
    + pose proof (remove_length_lt edge_dec C0 (a, b) (HC0 _ _ Hthru)) as Hlt.
      destruct (Nat.eqb_spec (lev t) l0) as [E | Hne]; subst C0.
      * rewrite E in *. lia.
      * assert (Hm : length (edges residual) = n_slots).
        { unfold n_slots. f_equal. apply edges_shape, (ei_shape _ _ _ Inv). }
        rewrite Hm in Hlt.
        assert (Hstep : ((n_nodes - lev t) * (n_slots + 1) + (n_slots + 1)
                         <= (n_nodes - l0) * (n_slots + 1))%nat).
        { replace (n_nodes - l0)%nat
            with (S ((n_nodes - lev t) + (lev t - l0 - 1)))%nat by lia.
          simpl. nia. }
        lia.
Qed.

(** A number of iterations that is always enough. *)
Definition ek_fuel : nat := (n_nodes + 1) * (n_slots + 1).

Lemma ek_terminates :
  exists mf f,
    edmonds_karp ek_fuel g s t = Ok (Fin mf, f) /\ ek_final mf f.
Proof.
  unfold edmonds_karp.
  apply (ek_loop_spec ek_fuel (init_residual g) empty 0 0%nat
                      (edges (init_residual g))).
  - apply ek_inv_init.
  - intros; lia.
  - intros u v Huv. apply in_edges, edge_slot, Huv.
  - lia.
  - unfold ek_fuel. fold n_slots. nia.
Qed.
End EdmondsKarp.

(** ** Flow values read off the flow map *)

Lemma sumZ_perm f l l' : Permutation l l' -> sumZ f l = sumZ f l'.
Proof. induction 1; simpl; lia. Qed.

Lemma sumZ_incl f l N :
  NoDup l -> NoDup N -> incl l N ->
  (forall x, In x N -> ~ In x l -> f x = 0) ->
  sumZ f l = sumZ f N.
Proof.
  intros Hl HN Hincl Hz.
  set (b := fun x => if in_dec string_dec x l then true else false).
  rewrite <- (sumZ_filter f b N).
  - apply sumZ_perm, NoDup_Permutation; [assumption | now apply NoDup_filter |].
    intros x. rewrite filter_In. unfold b.
    destruct (in_dec string_dec x l) as [i | n].
    + split; [auto | tauto].
    + split; [contradiction | intros [_ H]; discriminate].
  - intros x Hx Hb. apply Hz; [assumption|]. unfold b in Hb.
    destruct (in_dec string_dec x l); [discriminate | assumption].
Qed.

(** The positive part of a signed flow. *)
Definition pos (x : Z) : Z := Z.max x 0.

(** Total positive flow on the entries of [flow[v]]. *)
Definition outflow (flow : Graph) (v : string) : Z :=
  fold_right (fun kv acc => pos (snd kv) + acc) 0 (get_or empty v flow).

(** Total positive flow into [v] over all entries [flow[u][v]]. *)
Definition inflow (flow : Graph) (v : string) : Z :=
  fold_right (fun kv acc => pos (get_or 0 v (snd kv)) + acc) 0 flow.

Lemma entries_sum {V} (h : V -> Z) (dflt : V) (d : dict V) :
  wf d ->
  fold_right (fun kv acc => h (snd kv) + acc) 0 d =
  sumZ (fun w => h (get_or dflt w d)) (keys d).
Proof.
  unfold wf. induction d as [| [k x] d IH]; intros Hn; simpl; [reflexivity|].
  inversion Hn as [| ? ? Hk Hn']; subst.
  unfold get_or at 1. simpl. rewrite String.eqb_refl. f_equal.
  rewrite IH by assumption. apply sumZ_ext. intros w Hw.
  unfold get_or. simpl.
  destruct (String.eqb_spec w k) as [-> | ?]; [contradiction | reflexivity].
Qed.

Lemma outflow_sum N f v :
  flow_wf N f -> NoDup N ->
  outflow f v = sumZ (fun w => pos (cap f v w)) N.
Proof.
  intros (H1 & H2 & H3 & H4) HN. unfold outflow.
  rewrite (entries_sum pos 0) by apply H2.
  apply sumZ_incl; auto.
  - apply H2.
  - intros w. apply H4.
  - intros w _ Hw. unfold cap. now rewrite get_or_notin.
Qed.

Lemma inflow_sum N f v :
  flow_wf N f -> NoDup N ->
  inflow f v = sumZ (fun u => pos (cap f u v)) N.
Proof.
  intros (H1 & H2 & H3 & H4) HN. unfold inflow.
  rewrite (entries_sum (fun d => pos (get_or 0 v d)) empty) by apply H1.
  apply sumZ_incl; auto.
  intros u _ Hu. unfold cap. now rewrite (get_or_notin _ u f).
Qed.

(** ** Cuts *)

(** A cut is a set of nodes holding the source and not the sink; its
    capacity is the total capacity of the edges leaving the set. *)
Definition is_cut (s t : string) (S : string -> bool) : Prop :=
  S s = true /\ S t = false.

Definition cut_capacity (g : Graph) (S : string -> bool) : Z :=
  sumZ (fun u =>
          sumZ (fun v => if S u && negb (S v) then cap g u v else 0)
               (nodes g))
       (nodes g).

Definition visitedb (p : Parent) (v : string) : bool :=
  match get v p with Some (Some _) => true | _ => false end.

Lemma visitedb_true p v : visitedb p v = true <-> visited p v.
Proof.
  unfold visitedb, visited. destruct (get v p) as [[x|]|]; split;
    try discriminate; eauto; intros [? ?]; discriminate.
Qed.

Section Correctness.
Variables (g : Graph) (s t : string).
Hypothesis Hg : wf_graph g.
Hypothesis Hs : In s (nodes g).
Hypothesis Ht : In t (nodes g).
Hypothesis Hst : s <> t.

Variables (residual flow : Graph) (mf : Z).
Hypothesis Inv : ek_inv g s t residual flow mf.

Lemma nodes_nodup : NoDup (nodes g).
Proof. apply (init_residual_wf g Hg). Qed.

Lemma conservation v : v <> s -> v <> t -> inflow flow v = outflow flow v.
Proof.
  intros Hvs Hvt. pose proof nodes_nodup as HN.
  pose proof (ei_fwf _ _ _ _ _ _ Inv) as Hfw.
  rewrite (inflow_sum (nodes g)), (outflow_sum (nodes g)) by assumption.
  pose proof (ei_cons _ _ _ _ _ _ Inv v Hvs Hvt) as Hnet. unfold net in Hnet.
  assert (E : sumZ (fun w => pos (cap flow v w)) (nodes g) -
              sumZ (fun u => pos (cap flow u v)) (nodes g) = 0).
  { rewrite <- sumZ_sub, <- Hnet. apply sumZ_ext. intros w _.
    rewrite (ei_anti _ _ _ _ _ _ Inv w v). unfold pos. lia. }
  lia.
Qed.

Lemma flow_le_cap :
  (forall u v, 0 <= cap g u v) -> forall u v, cap flow u v <= cap g u v.
Proof.
  intros Hnn u v. pose proof (ei_nonneg _ _ _ _ _ _ Inv Hnn u v) as H.
  rewrite (ei_res _ _ _ _ _ _ Inv) in H. lia.
Qed.

(** The value of the flow is the net flow across any cut. *)
Lemma flow_across_cut S :
  is_cut s t S ->
  mf = sumZ (fun u =>
               sumZ (fun v => if S u && negb (S v) then cap flow u v else 0)
                    (nodes g))
            (nodes g).
Proof.
  intros [HSs HSt]. pose proof nodes_nodup as HN.
  set (N := nodes g) in *.
  assert (A : sumZ (fun u => if S u then net g flow u else 0) N = mf).
  { rewrite (sumZ_ext _ (fun u => if String.eqb u s then mf else 0)).
    - now apply sumZ_indicator.
    - intros u _. destruct (String.eqb_spec u s) as [-> | Hus].
      + rewrite HSs. apply (ei_val _ _ _ _ _ _ Inv).
      + destruct (string_dec u t) as [-> | Hut]; [now rewrite HSt|].
        rewrite (ei_cons _ _ _ _ _ _ Inv u Hus Hut). now destruct (S u). }
  assert (B : sumZ (fun u =>
                sumZ (fun v => if S u && S v then cap flow u v else 0) N) N
              = 0).
  { set (X := sumZ _ N).
    assert (X = - X); [|lia]. unfold X at 1. rewrite sumZ_swap.
    unfold X. rewrite <- sumZ_opp. apply sumZ_ext. intros u _.
    rewrite <- sumZ_opp. apply sumZ_ext. intros v _.
    rewrite (ei_anti _ _ _ _ _ _ Inv v u).
    destruct (S u), (S v); simpl; lia. }
  assert (D : sumZ (fun u => if S u then net g flow u else 0) N =
              sumZ (fun u =>
                sumZ (fun v => if S u && S v then cap flow u v else 0) N) N
              + sumZ (fun u =>
                sumZ (fun v => if S u && negb (S v) then cap flow u v else 0)
                     N) N).
  { rewrite <- sumZ_add. apply sumZ_ext. intros u _.
    unfold net. fold N. rewrite <- sumZ_add.
    destruct (S u); simpl.
    - apply sumZ_ext. intros v _. destruct (S v); simpl; lia.
    - rewrite sumZ_zero. reflexivity. }
  rewrite <- A, D, B. lia.
Qed.

Lemma flow_le_cut S :
  (forall u v, 0 <= cap g u v) -> is_cut s t S -> mf <= cut_capacity g S.
Proof.
  intros Hnn HS. rewrite (flow_across_cut S HS). unfold cut_capacity.
  apply sumZ_le. intros u _. apply sumZ_le. intros v _.
  destruct (S u && negb (S v)); [now apply flow_le_cap | lia].
Qed.

(** When the last search did not reach the sink, the visited nodes
    form a cut that the flow saturates. *)
Lemma saturated_cut p lev :
  (forall u v, 0 <= cap g u v) ->
  tree_inv residual s p lev -> get t p = Some None ->
  (forall x, visited p x -> closed residual p lev x) ->
  is_cut s t (visitedb p) /\ cut_capacity g (visitedb p) = mf.
Proof.
  intros Hnn Ti Htn Hcl.
  assert (HS : is_cut s t (visitedb p)).
  { split.
    - apply visitedb_true. eapply visited_source; eauto.
    - unfold visitedb. now rewrite Htn. }
  split; [assumption|].
  rewrite (flow_across_cut _ HS). unfold cut_capacity.
  apply sumZ_ext. intros u _. apply sumZ_ext. intros v _.
  destruct (visitedb p u) eqn:Eu; simpl; [|reflexivity].
  destruct (visitedb p v) eqn:Ev; simpl; [reflexivity|].
  apply visitedb_true in Eu.
  pose proof (ei_res _ _ _ _ _ _ Inv u v) as Hres.
  pose proof (ei_nonneg _ _ _ _ _ _ Inv Hnn u v) as H0.
  destruct (Z.eq_dec (cap residual u v) 0) as [E | Hne]; [lia|].
  assert (He : edge residual u v) by (unfold edge; lia).
  destruct (Hcl _ Eu _ He) as [Hv _]. apply visitedb_true in Hv.
  congruence.
Qed.
End Correctness.

(** ** Fuel *)

Lemma ek_loop_mono fuel : forall fuel' s t r f mf x,
  (fuel <= fuel')%nat ->
  ek_loop fuel s t r f mf = Ok x -> ek_loop fuel' s t r f mf = Ok x.
Proof.
  induction fuel as [| fuel IH]; intros fuel' s t r f mf x Hle;
    [discriminate|].
  destruct fuel' as [| fuel']; [lia|]. rewrite !ek_loop_S.
  destruct (bfs _ r t _ _) as [p | | |]; cbn [bind]; try discriminate.
  destruct (lookup t p) as [[y|] | | |]; cbn [bind]; try discriminate;
    [|auto].
  destruct (bottleneck _ r p s t Inf) as [[pf|] | | |]; cbn [bind];
    try discriminate.
  - destruct (augment _ p s t pf f r) as [[f' r'] | | |]; cbn [bind];
      try discriminate.
    apply IH. lia.
  - apply IH. lia.
Qed.

Lemma edmonds_karp_mono fuel fuel' g s t x :
  (fuel <= fuel')%nat ->
  edmonds_karp fuel g s t = Ok x -> edmonds_karp fuel' g s t = Ok x.
Proof. apply ek_loop_mono. Qed.

(** With the sink equal to the source the search stops at once with
    the sink marked, both walks are empty, and the loop adds
    [float('inf')] to [max_flow] for ever. *)
Lemma ek_loop_same_node fuel : forall s r f mf,
  ek_loop fuel s s r f mf = OutOfFuel.
Proof.
  induction fuel as [| fuel IH]; intros s r f mf; [reflexivity|].
  rewrite ek_loop_S.
  assert (E : get s (init_parent r s) = Some (Some s)).
  { rewrite get_init_parent. now rewrite String.eqb_refl. }
  cbn [bfs]. unfold lookup at 1. rewrite E. cbn [bind].
  unfold lookup at 1. rewrite E. cbn [bind].
  cbn [bottleneck]. rewrite String.eqb_refl. cbn [bind]. apply IH.
Qed.

Lemma edmonds_karp_same_node fuel g s : edmonds_karp fuel g s s = OutOfFuel.
Proof. apply ek_loop_same_node. Qed.

(** ** Checking the hypotheses on concrete graphs *)

Fixpoint nodupb (l : list string) : bool :=
  match l with
  | [] => true
  | x :: l => negb (inb x l) && nodupb l
  end.

Definition wf_graphb (g : Graph) : bool :=
  nodupb (keys g) && forallb (fun kv => nodupb (keys (snd kv))) g.

Definition nonnegb (g : Graph) : bool :=
  forallb (fun kv => forallb (fun e => 0 <=? snd e) (snd kv)) g.

Lemma inb_true x l : inb x l = true <-> In x l.
Proof.
  unfold inb. rewrite existsb_exists. split.
  - intros (y & Hy & E). apply String.eqb_eq in E. now subst.
  - intros H. exists x. split; [assumption | apply String.eqb_refl].
Qed.

Lemma inb_In x l : inb x l = true -> In x l.
Proof. apply inb_true. Qed.

Lemma nodupb_true l : nodupb l = true -> NoDup l.
Proof.
  induction l as [| x l IH]; simpl; [constructor|].
  intros H. apply andb_prop in H. destruct H as [H1 H2].
  constructor; [|auto]. intros Hin. apply inb_true in Hin.
  rewrite Hin in H1. discriminate.
Qed.

Lemma wf_graphb_true g : wf_graphb g = true -> wf_graph g.
Proof.
  unfold wf_graphb. intros H. apply andb_prop in H. destruct H as [H1 H2].
  split; [now apply nodupb_true|]. intros u. unfold slots_of, get_or.
  destruct (get u g) as [d|] eqn:E; [|constructor].
  apply get_Some_In in E. rewrite forallb_forall in H2.
  apply nodupb_true. apply (H2 _ E).
Qed.

Lemma nonnegb_true g : nonnegb g = true -> forall u v, 0 <= cap g u v.
Proof.
  unfold nonnegb. intros H u v. rewrite forallb_forall in H.
  unfold cap, get_or.
  destruct (get u g) as [d|] eqn:E; [|simpl; lia].
  apply get_Some_In in E. specialize (H _ E). simpl in H.
  rewrite forallb_forall in H.
  destruct (get v d) as [c|] eqn:E'; [|lia].
  apply get_Some_In in E'. specialize (H _ E'). simpl in H. lia.
Qed.

Lemma walk_ext (E E' : string -> string -> Prop) n x y :
  (forall a b, E a b -> E' a b) -> walk E n x y -> walk E' n x y.
Proof.
  intros H. induction 1 as [| n x w y Hxw Hwy IH]; [constructor|].
  apply walk_cons with w; auto.
Qed.

(** ** Size of the residual graph *)








(** * Theorems *)

(** Small graphs used as concrete inputs. *)
Definition two_node_graph : Graph := [("S", [("T", 10)])].
Definition negative_graph : Graph := [("S", [("T", -5)])].
Definition split_graph : Graph := [("S", [("A", 5)]); ("B", [("T", 3)])].

Lemma ek_returns g s t :
  wf_graph g -> In s (nodes g) -> In t (nodes g) -> s <> t ->
  exists mf f,
    edmonds_karp (ek_fuel g) g s t = Ok (Fin mf, f) /\ ek_final g s t mf f.
Proof. intros. now apply ek_terminates. Qed.

(** ** C1: maximum flow equals minimum cut *)

(** Claim C1, at a source equal to the sink: for the graph
    [{S: {T: 10}}] and source = sink = S, which is in the node set, no
    number of iterations makes [edmonds_karp] return a value. *)
Lemma max_flow_same_node_no_result :
  (wf_graph two_node_graph /\ (forall u v, 0 <= cap two_node_graph u v) /\
   In "S" (nodes two_node_graph)) /\
  ~ exists fuel mf f, edmonds_karp fuel two_node_graph "S" "S" = Ok (mf, f).
Proof.
  split.
  - split; [apply wf_graphb_true; vm_compute; reflexivity|].
    split; [apply nonnegb_true; vm_compute; reflexivity | apply inb_In; vm_compute; reflexivity].
  - intros (fuel & mf & f & H). rewrite edmonds_karp_same_node in H.
    discriminate.
Qed.

(** Claim C1 (amended with source <> sink): for a graph with
    non-negative capacities and distinct source and sink in its node
    set, [edmonds_karp] returns a value [max_flow] that is the capacity
    of some cut separating the source from the sink and is at most the
    capacity of every such cut. *)
Theorem max_flow_min_cut g s t :
  wf_graph g -> (forall u v, 0 <= cap g u v) ->
  In s (nodes g) -> In t (nodes g) -> s <> t ->
  exists mf f,
    edmonds_karp (ek_fuel g) g s t = Ok (Fin mf, f) /\
    (exists S, is_cut s t S /\ cut_capacity g S = mf) /\
    (forall S, is_cut s t S -> mf <= cut_capacity g S).
Proof.
  intros Hg Hnn Hs Ht Hst.
  destruct (ek_returns g s t Hg Hs Ht Hst)
    as (mf & f & Hrun & r' & p & lev & Inv & Ti & Htn & Hcl).
  exists mf, f. split; [assumption|]. split.
  - exists (visitedb p).
    exact (saturated_cut g s t Hg Hs r' f mf Inv p lev Hnn Ti Htn Hcl).
  - intros S HS. exact (flow_le_cut g s t Hg Hs r' f mf Inv S Hnn HS).
Qed.

Lemma max_flow_min_cut_witness :
  exists mf f,
    edmonds_karp (ek_fuel two_node_graph) two_node_graph "S" "T"
      = Ok (Fin mf, f) /\
    (exists S, is_cut "S" "T" S /\ cut_capacity two_node_graph S = mf) /\
    (forall S, is_cut "S" "T" S -> mf <= cut_capacity two_node_graph S).
Proof.
  apply (max_flow_min_cut two_node_graph "S" "T").
  - apply wf_graphb_true; vm_compute; reflexivity.
  - apply nonnegb_true; vm_compute; reflexivity.
  - apply inb_In; vm_compute; reflexivity.
  - apply inb_In; vm_compute; reflexivity.
  - discriminate.
Defined.

(** ** C2: the reference network *)

(** Total capacity of the edges leaving [u]. *)
Definition out_capacity (g : Graph) (u : string) : Z :=
  fold_right (fun kv acc => snd kv + acc) 0 (get_or empty u g).

(** Claim C2: on the graph built by [build_logistics_graph],
    [edmonds_karp(graph, S, T)] returns the maximum flow 115, the sum
    of the capacities of the edges leaving S. *)
Theorem logistics_max_flow :
  exists flow,
    edmonds_karp (ek_fuel build_logistics_graph) build_logistics_graph "S" "T"
      = Ok (Fin 115, flow) /\
    out_capacity build_logistics_graph "S" = 115.
Proof. eexists. split; vm_compute; reflexivity. Qed.

(** ** C3: flow conservation *)




(** ** C4: capacity respect and antisymmetry *)

(** Claim C4, on the reverse of a saturated edge: for [{S: {T: 10}}]
    the returned flow has [flow(T,S) = -10], whose absolute value
    exceeds [capacity(T,S) = 0]; and with source = sink no flow map is
    returned at all. *)
Lemma flow_abs_exceeds_reverse_capacity :
  (exists mf f,
     edmonds_karp (ek_fuel two_node_graph) two_node_graph "S" "T"
       = Ok (mf, f) /\
     cap two_node_graph "T" "S" < Z.abs (cap f "T" "S")) /\
  ~ exists fuel mf f, edmonds_karp fuel two_node_graph "S" "S" = Ok (mf, f).
Proof.
  split.
  - eexists. eexists. split; [vm_compute; reflexivity|]. vm_compute.
    reflexivity.
  - intros (fuel & mf & f & H). rewrite edmonds_karp_same_node in H.
    discriminate.
Qed.

(** Claim C4 (amended): for a graph with non-negative capacities and
    distinct source and sink in its node set, the returned flow map
    satisfies, for every ordered pair [(u, v)], the signed bound
    [flow(u,v) <= capacity(u,v)] and [flow(u,v) = -flow(v,u)]; hence
    [|flow(u,v)|] is at most the larger of [capacity(u,v)] and
    [capacity(v,u)]. *)
Theorem flow_capacity_antisymmetry g s t :
  wf_graph g -> (forall u v, 0 <= cap g u v) ->
  In s (nodes g) -> In t (nodes g) -> s <> t ->
  exists mf f,
    edmonds_karp (ek_fuel g) g s t = Ok (Fin mf, f) /\
    forall u v,
      cap f u v <= cap g u v /\ cap f u v = - cap f v u /\
      Z.abs (cap f u v) <= Z.max (cap g u v) (cap g v u).
Proof.
  intros Hg Hnn Hs Ht Hst.
  destruct (ek_returns g s t Hg Hs Ht Hst)
    as (mf & f & Hrun & r' & p & lev & Inv & _).
  exists mf, f. split; [assumption|]. intros u v.
  pose proof (flow_le_cap _ _ _ _ _ _ Inv Hnn u v).
  pose proof (flow_le_cap _ _ _ _ _ _ Inv Hnn v u).
  pose proof (ei_anti _ _ _ _ _ _ Inv u v). lia.
Qed.

Lemma flow_capacity_antisymmetry_witness :
  exists mf f,
    edmonds_karp (ek_fuel two_node_graph) two_node_graph "S" "T"
      = Ok (Fin mf, f) /\
    forall u v,
      cap f u v <= cap two_node_graph u v /\ cap f u v = - cap f v u /\
      Z.abs (cap f u v)
        <= Z.max (cap two_node_graph u v) (cap two_node_graph v u).
Proof.
  apply (flow_capacity_antisymmetry two_node_graph "S" "T").
  - apply wf_graphb_true; vm_compute; reflexivity.
  - apply nonnegb_true; vm_compute; reflexivity.
  - apply inb_In; vm_compute; reflexivity.
  - apply inb_In; vm_compute; reflexivity.
  - discriminate.
Defined.

(** ** C5: termination *)




(** ** C6: source or sink missing from the node set *)

(** Claim C6, at a missing node used as both source and sink: for
    [{S: {T: 10}}] and source = sink = X, which is not in the node set,
    no number of iterations ends in an error. *)
Lemma missing_same_node_no_error :
  ~ In "X" (nodes two_node_graph) /\
  ~ exists fuel, edmonds_karp fuel two_node_graph "X" "X" = KeyError.
Proof.
  split.
  - intros H. apply inb_true in H. vm_compute in H. discriminate.
  - intros (fuel & H). rewrite edmonds_karp_same_node in H. discriminate.
Qed.

(** Claim C6 (amended): when the source and the sink are distinct and
    one of them is missing from the node set, [edmonds_karp] fails with
    Python's [KeyError] (the code has no [InvalidGraph] error) in the
    first search, before any augmentation. *)
Theorem missing_node_key_error g s t fuel :
  s <> t -> ~ In s (nodes g) \/ ~ In t (nodes g) ->
  edmonds_karp (S fuel) g s t = KeyError.
Proof.
  intros Hst Hmiss. unfold edmonds_karp. rewrite ek_loop_S.
  cbn [bfs]. unfold lookup at 1. rewrite get_init_parent.
  destruct (String.eqb_spec t s) as [? | _]; [congruence|].
  destruct (mem t (init_residual g)) eqn:Et; [|reflexivity].
  cbn [bind]. apply mem_true in Et.
  destruct Hmiss as [Hs | Ht]; [|contradiction].
  apply get_None in Hs. unfold lookup at 1. rewrite Hs. reflexivity.
Qed.

Lemma missing_node_key_error_witness :
  edmonds_karp 1 two_node_graph "S" "X" = KeyError.
Proof.
  apply (missing_node_key_error two_node_graph "S" "X" 0).
  - discriminate.
  - right. intros H. apply inb_true in H. vm_compute in H. discriminate.
Defined.

(** ** C7: unreachable sink *)

(** Claim C7: when the source and the sink are in the node set and the
    sink cannot be reached from the source along edges of positive
    capacity, in particular when no node reachable from the source has
    such an edge into the sink, [edmonds_karp] returns the flow value 0
    and an empty flow map, without error. *)
Theorem unreachable_sink_zero_flow g s t fuel :
  wf_graph g -> In s (nodes g) -> In t (nodes g) ->
  ~ reachable (edge g) s t \/
  (s <> t /\ forall u, reachable (edge g) s u -> ~ edge g u t) ->
  edmonds_karp (S fuel) g s t = Ok (Fin 0, empty).
Proof.
  intros Hg Hs Ht Hun.
  assert (Hnr : ~ reachable (edge g) s t).
  { destruct Hun as [H | [Hst Hin]]; [assumption|].
    intros [n Hw]. destruct n as [| n].
    - apply walk_0 in Hw. contradiction.
    - apply walk_snoc_inv in Hw. destruct Hw as (y & Hy & He).
      apply (Hin y); [now exists n | assumption]. }
  assert (Hst : s <> t).
  { intros ->. apply Hnr. exists 0%nat. constructor. }
  unfold edmonds_karp. rewrite ek_loop_S.
  destruct (ek_search g s t Hg Hs Ht Hst _ _ _ (ek_inv_init g s t))
    as (p & Hbfs & lev & Ti & Hpost).
  rewrite Hbfs. cbn [bind].
  destruct Hpost as [[Htn _] | [Hvt _]].
  - unfold lookup. rewrite Htn. reflexivity.
  - exfalso. apply Hnr.
    destruct (visited_reach _ _ _ _ Ti _ Hvt) as [n Hw]. exists n.
    eapply walk_ext; [|exact Hw].
    intros a b. unfold edge. now rewrite init_residual_cap.
Qed.

Lemma split_graph_unreachable : ~ reachable (edge split_graph) "S" "T".
Proof.
  assert (H : forall n x, walk (edge split_graph) n "S" x ->
                          x = "S" \/ x = "A").
  { induction n as [| n IH]; intros x Hw.
    - apply walk_0 in Hw. now left.
    - apply walk_snoc_inv in Hw. destruct Hw as (y & Hy & He).
      unfold edge, cap, split_graph, get_or in He.
      destruct (IH _ Hy) as [-> | ->]; simpl in He.
      + destruct (String.eqb_spec x "A"); [now right | lia].
      + lia. }
  intros [n Hw]. destruct (H _ _ Hw); discriminate.
Qed.

Lemma unreachable_sink_zero_flow_witness :
  edmonds_karp 1 split_graph "S" "T" = Ok (Fin 0, empty).
Proof.
  apply (unreachable_sink_zero_flow split_graph "S" "T" 0).
  - apply wf_graphb_true; vm_compute; reflexivity.
  - apply inb_In; vm_compute; reflexivity.
  - apply inb_In; vm_compute; reflexivity.
  - left. exact split_graph_unreachable.
Defined.

(** ** C8: negative capacities *)

(** Claim C8, on a graph with a negative capacity: [{S: {T: -5}}] is
    not rejected; [edmonds_karp] runs on it and returns the flow value
    0 with an empty flow map. *)
Lemma negative_capacity_not_rejected :
  cap negative_graph "S" "T" < 0 /\
  edmonds_karp 1 negative_graph "S" "T" = Ok (Fin 0, empty).
Proof. split; vm_compute; reflexivity. Qed.

(** Claim C8 (amended): a graph with an edge of capacity below zero is
    accepted, no capacity being checked anywhere: for distinct source
    and sink in the node set [edmonds_karp] runs to completion and
    returns a flow value and a flow map. *)
Theorem negative_capacity_accepted g s t :
  wf_graph g -> (exists u v, cap g u v < 0) ->
  In s (nodes g) -> In t (nodes g) -> s <> t ->
  exists mf f, edmonds_karp (ek_fuel g) g s t = Ok (Fin mf, f).
Proof.
  intros Hg _ Hs Ht Hst.
  destruct (ek_returns g s t Hg Hs Ht Hst) as (mf & f & Hrun & _).
  now exists mf, f.
Qed.

Lemma negative_capacity_accepted_witness :
  exists mf f,
    edmonds_karp (ek_fuel negative_graph) negative_graph "S" "T"
      = Ok (Fin mf, f).
Proof.
  apply (negative_capacity_accepted negative_graph "S" "T").
  - apply wf_graphb_true; vm_compute; reflexivity.
  - exists "S", "T". vm_compute. reflexivity.
  - apply inb_In; vm_compute; reflexivity.
  - apply inb_In; vm_compute; reflexivity.
  - discriminate.
Defined.

(** ** C10: the caller's flow map is not modified *)

Lemma defaultdict_read_key u flow :
  In u (keys flow) -> snd (defaultdict_read u flow) = flow.
Proof.
  intros H. unfold defaultdict_read.
  destruct (keys_get _ _ H) as [fu ->]. reflexivity.
Qed.

Lemma build_sub_flow_frame valid_nodes flow :
  snd (build_sub_flow valid_nodes flow) = flow.
Proof.
  unfold build_sub_flow.
  assert (H : forall l sub_flow,
             incl l (keys flow) ->
             snd (fold_left
                    (fun st u =>
                       let '(sub_flow, flow) := st in
                       if inb u valid_nodes then
                         let '(fu, flow) := defaultdict_read u flow in
                         (copy_positive valid_nodes u fu sub_flow, flow)
                       else (sub_flow, flow))
                    l (sub_flow, flow)) = flow).
  { induction l as [| u l IH]; intros sub_flow Hincl; simpl; [reflexivity|].
    assert (Hu : In u (keys flow)) by (apply Hincl; now left).
    assert (Hl : incl l (keys flow)) by (intros x Hx; apply Hincl; now right).
    destruct (inb u valid_nodes); [|now apply IH].
    pose proof (defaultdict_read_key u flow Hu) as E.
    destruct (defaultdict_read u flow) as [fu flow']. simpl in E. subst flow'.
    now apply IH. }
  apply H. apply incl_refl.
Qed.

Lemma decompose_frame fuel limit terminal flow terminals warehouses shops :
  snd (decompose_terminal_flows fuel limit terminal flow
                                terminals warehouses shops)
  = flow.
Proof.
  unfold decompose_terminal_flows.
  pose proof (build_sub_flow_frame (terminals ++ warehouses ++ shops) flow) as E.
  destruct (build_sub_flow _ flow) as [sub_flow flow']. exact E.
Qed.

(** Claim C10: for every input flow map, after any number of steps of
    [decompose_terminal_flows] and whatever recursion depth [dfs] is
    allowed, the caller's flow map is the one passed in (the
    subtractions go to [sub_flow] only), and the loop of [main] over
    the terminals hands the original flow to every call. *)
Theorem decompose_leaves_flow_unchanged
    fuel limit terminal flow terminals warehouses shops terms acc :
  snd (decompose_terminal_flows fuel limit terminal flow
                                terminals warehouses shops)
    = flow /\
  decompose_all fuel limit terms flow terminals warehouses shops acc =
  (fold_left
     (fun acc term =>
        set term
            (fst (decompose_terminal_flows fuel limit term flow
                                           terminals warehouses shops))
            acc)
     terms acc,
   flow).
Proof.
  split; [apply decompose_frame|].
  revert acc. induction terms as [| term rest IH]; intros acc; simpl;
    [reflexivity|].
  pose proof (decompose_frame fuel limit term flow terminals warehouses shops)
    as E.
  destruct (decompose_terminal_flows fuel limit term flow
                                     terminals warehouses shops)
    as [r flow']. simpl in E. subst flow'. simpl. apply IH.
Qed.

(** ** The positive-flow subgraph built by [decompose_terminal_flows] *)

Lemma cap_graph_set u v c g a b :
  cap (graph_set u v c g) a b =
  if String.eqb a u && String.eqb b v then c else cap g a b.
Proof.
  unfold graph_set. rewrite cap_set.
  destruct (String.eqb_spec a u) as [-> | n]; simpl; [|reflexivity].
  rewrite get_or_set. now destruct (String.eqb b v).
Qed.

Lemma graph_set_wf N u v c g :
  In u N -> In v N -> flow_wf N g -> flow_wf N (graph_set u v c g).
Proof.
  intros Hu Hv (H1 & H2 & H3 & H4). unfold graph_set.
  split; [now apply wf_set|]. split; [|split].
  - intros a. rewrite slots_of_set. destruct (String.eqb a u); [|apply H2].
    apply wf_set. apply H2.
  - intros a Ha. apply in_keys_set in Ha. destruct Ha as [-> | Ha]; auto.
  - intros a b. rewrite slots_of_set.
    destruct (String.eqb_spec a u) as [-> | n]; [|apply H4].
    intros Hb. apply in_keys_set in Hb. destruct Hb as [-> | Hb]; [auto|].
    apply (H4 u b Hb).
Qed.

Lemma copy_positive_spec N valid u items : forall sub,
  NoDup (keys items) -> In u N -> incl (keys items) N -> flow_wf N sub ->
  flow_wf N (copy_positive valid u items sub) /\
  forall a b,
    cap (copy_positive valid u items sub) a b =
    if String.eqb a u && inb b valid && (0 <? get_or 0 b items)
    then get_or 0 b items else cap sub a b.
Proof.
  unfold copy_positive.
  induction items as [| [v f] rest IH]; intros sub Hnd Hu Hincl Hwf; simpl.
  - split; [assumption|]. intros a b. unfold get_or. simpl.
    now rewrite andb_false_r.
  - inversion Hnd as [| ? ? Hv Hnd']; subst.
    assert (HvN : In v N) by (apply Hincl; now left).
    assert (Hincl' : incl (keys rest) N)
      by (intros x Hx; apply Hincl; now right).
    set (sub1 := if inb v valid && (f >? 0) then graph_set u v f sub else sub).
    assert (Hwf1 : flow_wf N sub1).
    { unfold sub1. destruct (inb v valid && (f >? 0)); [|assumption].
      now apply graph_set_wf. }
    destruct (IH sub1 Hnd' Hu Hincl' Hwf1) as [Hwf' Hcap].
    split; [assumption|]. intros a b. rewrite Hcap.
    unfold get_or at 3 4. simpl.
    destruct (String.eqb_spec b v) as [-> | Hbv].
    + rewrite (get_or_notin 0 v rest Hv). simpl. rewrite andb_false_r.
      unfold sub1. rewrite Z.gtb_ltb.
      destruct (String.eqb a u) eqn:Ea, (inb v valid) eqn:Ev,
        (0 <? f) eqn:Ef; simpl; try reflexivity;
        rewrite cap_graph_set, Ea, ?String.eqb_refl; reflexivity.
    + fold (get_or 0 b rest).
      destruct (String.eqb a u && inb b valid && (0 <? get_or 0 b rest));
        [reflexivity|].
      unfold sub1. destruct (inb v valid && (f >? 0)); [|reflexivity].
      rewrite cap_graph_set.
      destruct (String.eqb_spec b v); [contradiction|].
      now rewrite andb_false_r.
Qed.

(** [build_sub_flow] without the threading of the store. *)
Definition sub_flow_of (valid : list string) (flow : Graph) : Graph :=
  fold_left
    (fun sub u =>
       if inb u valid then copy_positive valid u (get_or empty u flow) sub
       else sub)
    (keys flow) empty.

Lemma build_sub_flow_eq valid flow :
  build_sub_flow valid flow = (sub_flow_of valid flow, flow).
Proof.
  unfold build_sub_flow, sub_flow_of.
  assert (H : forall l sub,
    incl l (keys flow) ->
    fold_left
      (fun st u =>
         let '(sub_flow, flow) := st in
         if inb u valid then
           let '(fu, flow) := defaultdict_read u flow in
           (copy_positive valid u fu sub_flow, flow)
         else (sub_flow, flow))
      l (sub, flow) =
    (fold_left
       (fun sub u =>
          if inb u valid then copy_positive valid u (get_or empty u flow) sub
          else sub) l sub, flow)).
  { induction l as [| u l IH]; intros sub Hincl; simpl; [reflexivity|].
    assert (Hu : In u (keys flow)) by (apply Hincl; now left).
    assert (Hl : incl l (keys flow)) by (intros x Hx; apply Hincl; now right).
    destruct (inb u valid); [|now apply IH].
    unfold defaultdict_read, get_or.
    destruct (keys_get _ _ Hu) as [fu ->]. now apply IH. }
  apply H, incl_refl.
Qed.

Lemma sub_flow_of_spec N valid flow :
  flow_wf N flow ->
  flow_wf N (sub_flow_of valid flow) /\
  forall a b,
    cap (sub_flow_of valid flow) a b =
    if inb a valid && inb b valid && (0 <? cap flow a b)
    then cap flow a b else 0.
Proof.
  intros Hwf. pose proof Hwf as (H1 & H2 & H3 & H4). unfold sub_flow_of.
  assert (H : forall l sub,
    NoDup l -> incl l (keys flow) -> flow_wf N sub ->
    let sub' :=
      fold_left
        (fun sub u =>
           if inb u valid then copy_positive valid u (get_or empty u flow) sub
           else sub) l sub in
    flow_wf N sub' /\
    forall a b,
      cap sub' a b =
      if inb a l && inb a valid && inb b valid && (0 <? cap flow a b)
      then cap flow a b else cap sub a b).
  { induction l as [| u l IH]; intros sub Hnd Hincl Hsub; simpl.
    - split; [assumption | reflexivity].
    - inversion Hnd as [| ? ? Hu Hnd']; subst.
      assert (HuN : In u N) by (apply H3, Hincl; now left).
      assert (Hincl' : incl l (keys flow))
        by (intros x Hx; apply Hincl; now right).
      set (sub1 := if inb u valid
                   then copy_positive valid u (get_or empty u flow) sub
                   else sub).
      destruct (copy_positive_spec N valid u (get_or empty u flow) sub)
        as [Hwf1 Hcap1]; auto.
      { apply (H2 u). }
      { intros x Hx. apply (H4 u x Hx). }
      assert (Hsub1 : flow_wf N sub1)
        by (unfold sub1; destruct (inb u valid); assumption).
      destruct (IH sub1 Hnd' Hincl' Hsub1) as [Hwf' Hcap].
      split; [assumption|]. intros a b. rewrite Hcap.
      destruct (String.eqb_spec a u) as [-> | Hau].
      + assert (Hl : inb u l = false).
        { destruct (inb u l) eqn:E; [|reflexivity].
          apply inb_true in E. contradiction. }
        rewrite Hl. simpl. unfold sub1.
        destruct (inb u valid) eqn:Ev; simpl; [|reflexivity].
        rewrite Hcap1, String.eqb_refl. simpl. reflexivity.
      + simpl.
        destruct (inb a l && inb a valid && inb b valid && (0 <? cap flow a b));
          [reflexivity|].
        unfold sub1. destruct (inb u valid); [|reflexivity].
        rewrite Hcap1. destruct (String.eqb_spec a u); [contradiction|].
        reflexivity. }
  destruct (H (keys flow) empty H1 (incl_refl _)) as [Hwf' Hcap].
  { repeat split; try constructor; simpl; tauto. }
  split; [assumption|]. intros a b. rewrite Hcap.
  change (cap empty a b) with 0.
  destruct (inb a (keys flow)) eqn:Ea; [reflexivity|]. simpl.
  assert (Hn : ~ In a (keys flow)).
  { intros Hin. apply inb_true in Hin. congruence. }
  unfold cap at 2. rewrite (get_or_notin _ a flow Hn).
  destruct (inb a valid && inb b valid && (0 <? cap flow a b)); reflexivity.
Qed.

(** ** The depth-first search of the decomposition *)

Definition acyclic (E : string -> string -> Prop) : Prop :=
  forall n x, ~ walk E (S n) x x.

(** The edges of a path given by its nodes. *)
Fixpoint pairs (path : list string) : list (string * string) :=
  match path with
  | u :: ((v :: _) as rest) => (u, v) :: pairs rest
  | _ => []
  end.

(** The bottleneck [dfs] computes on the way back. *)
Fixpoint path_bn (sub : Graph) (path : list string) : num :=
  match path with
  | u :: ((v :: _) as rest) => num_min (Fin (cap sub u v)) (path_bn sub rest)
  | _ => Inf
  end.

(** A path from [node] to a shop along edges that carry flow, through
    nodes not visited before. *)
Definition good_path (sub : Graph) (shops : list string) (node : string)
    (visited path : list string) : Prop :=
  hd_error path = Some node /\ inb (last path "") shops = true /\
  (forall u v, In (u, v) (pairs path) -> edge sub u v) /\
  NoDup path /\ (forall x, In x path -> ~ In x visited).

Section DFS.
Local Open Scope nat_scope.
Variables (shops : list string) (terminal : string) (sub : Graph).
Variable M : list string.
Hypothesis Hslots : forall u, NoDup (slots_of u sub).
Hypothesis Hacyc : acyclic (edge sub).
Hypothesis Hout : forall u v, edge sub u v -> inb v shops = false ->
                              v <> terminal -> exists w, edge sub v w.
Hypothesis HM : forall u v, edge sub u v -> In v M.

Lemma sub_items_cap node w c :
  In (w, c) (get_or empty node sub) -> cap sub node w = c.
Proof.
  intros H. unfold cap, get_or at 1.
  now rewrite (In_get _ _ _ (Hslots node) H).
Qed.

Lemma dfs_finds fuel : forall node visited,
  inb node shops = true \/ (exists w, edge sub node w) ->
  (forall x, In x visited -> exists n, walk (edge sub) n x node) ->
  In terminal visited \/ node = terminal ->
  NoDup visited -> ~ In node visited -> incl (node :: visited) M ->
  length M <= fuel + length visited ->
  exists path visited',
    dfs fuel shops sub node visited
      = Ok ((Some path, path_bn sub path), visited') /\
    good_path sub shops node visited path.
Proof.
  induction fuel as [| fuel IH];
    intros node visited Hnode Hreach Hterm Hnd Hnin Hincl Hfuel.
  - exfalso.
    assert (length (node :: visited) <= length M).
    { apply NoDup_incl_length; [now constructor | assumption]. }
    simpl in *. lia.
  - simpl. destruct (inb node shops) eqn:Eshop.
    + exists [node], visited. split; [reflexivity|].
      split; [reflexivity|]. split; [exact Eshop|].
      split; [intros ? ? []|]. split; [repeat constructor; simpl; tauto|].
      intros x [<- | []]. assumption.
    + destruct Hnode as [? | [w0 Hw0]]; [discriminate|].
      assert (Hadd : set_add node visited = node :: visited).
      { unfold set_add. destruct (inb node visited) eqn:E; [|reflexivity].
        apply inb_true in E. contradiction. }
      rewrite Hadd.
      assert (Hmem : mem node sub = true).
      { apply mem_true. eapply slots_of_keys. apply edge_slot. exact Hw0. }
      rewrite Hmem.
      assert (Hscan : forall items,
        (forall w c, In (w, c) items -> cap sub node w = c) ->
        (exists w c, In (w, c) items /\ (0 < c)%Z) ->
        exists path visited',
          dfs_scan (dfs fuel shops sub) node items (node :: visited)
            = Ok ((Some path, path_bn sub path), visited') /\
          good_path sub shops node visited path).
      { induction items as [| [w c] rest IHi]; intros Hcap Hex.
        - destruct Hex as (? & ? & [] & _).
        - cbn [dfs_scan]. destruct (Z.gtb_spec c 0) as [Hpos | Hneg].
          + assert (He : edge sub node w).
            { unfold edge. rewrite (Hcap w c); [lia | now left]. }
            assert (Hw : ~ In w (node :: visited)).
            { intros [<- | Hin].
              - apply (Hacyc 0 node). apply walk_cons with node;
                  [assumption | constructor].
              - destruct (Hreach _ Hin) as [n Hn].
                apply (Hacyc n node). now apply walk_cons with w. }
            assert (Einb : inb w (node :: visited) = false).
            { destruct (inb w (node :: visited)) eqn:E; [|reflexivity].
              apply inb_true in E. contradiction. }
            rewrite Einb. cbn [andb negb].
            destruct (IH w (node :: visited)) as (path' & v' & Hrun & Hgood).
            * destruct (inb w shops) eqn:Ew; [now left | right].
              apply (Hout node w He Ew).
              intros ->. apply Hw. destruct Hterm as [? | ->]; simpl; auto.
            * intros x [<- | Hin].
              -- exists 1. apply walk_cons with w; [assumption | constructor].
              -- destruct (Hreach _ Hin) as [n Hn]. exists (S n).
                 eapply walk_snoc; eauto.
            * left. destruct Hterm as [? | ->]; simpl; auto.
            * now constructor.
            * assumption.
            * intros x [<- | Hin]; [eapply HM; eauto | now apply Hincl].
            * simpl. lia.
            * rewrite Hrun. cbn [bind fst snd].
              destruct Hgood as (Hhd & Hlast & Hedges & Hndp & Hfresh).
              destruct path' as [| w' tl]; [discriminate|].
              injection Hhd as ->.
              exists (node :: w :: tl), v'. split.
              { change (path_bn sub (node :: w :: tl))
                  with (num_min (Fin (cap sub node w)) (path_bn sub (w :: tl))).
                rewrite (Hcap w c) by now left. reflexivity. }
              split; [reflexivity|]. split; [exact Hlast|]. split.
              { intros u v [[= <- <-] | Hin]; [assumption | now apply Hedges]. }
              split.
              { constructor; [|assumption]. intros Hin.
                apply (Hfresh _ Hin). now left. }
              { intros x [<- | Hin]; [assumption|].
                intros Hx. apply (Hfresh _ Hin). now right. }
          + cbn [andb]. apply IHi.
            * intros; apply Hcap; now right.
            * destruct Hex as (w1 & c1 & [[= -> ->] | Hin] & Hc1);
                [lia | eauto]. }
      apply Hscan.
      * intros w c. apply sub_items_cap.
      * exists w0, (cap sub node w0). split; [|exact Hw0].
        unfold cap, get_or at 1.
        destruct (get w0 (get_or empty node sub)) eqn:E.
        -- now apply get_Some_In.
        -- unfold edge, cap, get_or at 1 in Hw0. rewrite E in Hw0. lia.
Qed.

(** Without an edge that carries flow the search reports no path. *)
Lemma dfs_none fuel node visited :
  inb node shops = false -> (forall w, ~ edge sub node w) ->
  exists visited',
    dfs (S fuel) shops sub node visited = Ok ((None, Fin 0), visited').
Proof.
  intros Eshop Hno. simpl. rewrite Eshop.
  destruct (mem node sub); [|eauto].
  assert (Hscan : forall items v,
    (forall w c, In (w, c) items -> cap sub node w = c) ->
    dfs_scan (dfs fuel shops sub) node items v = Ok ((None, Fin 0), v)).
  { induction items as [| [w c] rest IHi]; intros v Hcap; [reflexivity|].
    cbn [dfs_scan]. destruct (Z.gtb_spec c 0) as [Hpos | Hneg].
    - exfalso. apply (Hno w). unfold edge.
      rewrite (Hcap w c); [lia | now left].
    - cbn [andb]. apply IHi. intros; apply Hcap; now right. }
  eexists. apply Hscan. intros w c. apply sub_items_cap.
Qed.
End DFS.

(** ** Removing a path from the positive-flow subgraph *)

Lemma pairs_cons a b tl : pairs (a :: b :: tl) = (a, b) :: pairs (b :: tl).
Proof. reflexivity. Qed.

Lemma pairs_in path : forall a u v,
  In (u, v) (pairs (a :: path)) -> In u (a :: path) /\ In v path.
Proof.
  induction path as [| b tl IH]; intros a u v; [simpl; tauto|].
  rewrite pairs_cons. intros [[= -> ->] | Hin].
  - split; now left.
  - destruct (IH _ _ _ Hin). split; right; assumption.
Qed.

Lemma pairs_target path a u v :
  In (u, v) (pairs (a :: path)) -> In v path.
Proof. apply pairs_in. Qed.

Lemma pairs_nodup path : NoDup path -> NoDup (pairs path).
Proof.
  destruct path as [| a path]; [constructor|]. revert a.
  induction path as [| b tl IH]; intros a Hnd; [constructor|].
  rewrite pairs_cons. inversion Hnd as [| ? ? Ha Hnd']; subst.
  constructor; [|now apply IH].
  intros Hin. apply pairs_in in Hin. destruct Hin as [Hin _].
  apply Ha. assumption.
Qed.

Lemma path_bn_spec sub path :
  (pairs path = [] /\ path_bn sub path = Inf) \/
  (exists m, path_bn sub path = Fin m /\
             (forall u v, In (u, v) (pairs path) -> m <= cap sub u v) /\
             exists u v, In (u, v) (pairs path) /\ cap sub u v = m).
Proof.
  induction path as [| a [| b tl] IH]; try (left; split; reflexivity).
  right. change (path_bn sub (a :: b :: tl))
    with (num_min (Fin (cap sub a b)) (path_bn sub (b :: tl))).
  change (pairs (a :: b :: tl)) with ((a, b) :: pairs (b :: tl)).
  destruct IH as [[Hp ->] | (m & -> & Hall & (u & v & Hin & Huv))].
  - exists (cap sub a b). split; [reflexivity|]. rewrite Hp. split.
    + intros u v [[= <- <-] | []]. lia.
    + exists a, b. split; [now left | reflexivity].
  - simpl. destruct (Z.ltb_spec m (cap sub a b)).
    + exists m. split; [reflexivity|]. split.
      * intros u' v' [[= <- <-] | Hin']; [lia | auto].
      * exists u, v. split; [now right | assumption].
    + exists (cap sub a b). split; [reflexivity|]. split.
      * intros u' v' [[= <- <-] | Hin']; [lia|].
        specialize (Hall _ _ Hin'). lia.
      * exists a, b. split; [now left | reflexivity].
Qed.

Lemma sub_flow_sub_ok u v b sub :
  In v (slots_of u sub) ->
  exists sub', sub_flow_sub u v b sub = Ok sub' /\ shape sub' = shape sub /\
    forall a c, cap sub' a c =
                cap sub a c -
                (if String.eqb a u && String.eqb c v then b else 0).
Proof.
  intros Hs.
  destruct (residual_add_ok u v (- b) sub Hs) as (sub' & Hrun & Hsh & Hcap).
  exists sub'. split; [|split; [assumption|]].
  - rewrite <- Hrun. unfold sub_flow_sub, residual_add, lookup, get_or.
    pose proof (slots_of_keys _ _ _ Hs) as Hu.
    destruct (keys_get _ _ Hu) as [fu ->]. reflexivity.
  - intros a c. rewrite Hcap.
    destruct (String.eqb a u && String.eqb c v); lia.
Qed.

Lemma subtract_path_ok b path : forall sub,
  (forall u v, In (u, v) (pairs path) -> In v (slots_of u sub)) ->
  exists sub', subtract_path path b sub = Ok sub' /\
    shape sub' = shape sub /\
    forall a c, cap sub' a c = cap sub a c - b * cnt (a, c) (pairs path).
Proof.
  induction path as [| u [| v tl] IH]; intros sub Hsl.
  - exists sub. repeat split; auto. intros. simpl. rewrite cnt_nil. lia.
  - exists sub. repeat split; auto. intros. simpl. rewrite cnt_nil. lia.
  - change (pairs (u :: v :: tl)) with ((u, v) :: pairs (v :: tl)) in *.
    change (subtract_path (u :: v :: tl) b sub)
      with (sub1 <- sub_flow_sub u v b sub ;; subtract_path (v :: tl) b sub1).
    destruct (sub_flow_sub_ok u v b sub) as (sub1 & -> & Sh1 & C1);
      [apply Hsl; now left|].
    cbn [bind].
    destruct (IH sub1) as (sub' & Hrun & Sh' & C').
    { intros x y Hin. rewrite (shape_slots_of _ _ x Sh1).
      apply Hsl. now right. }
    exists sub'. split; [assumption|]. split; [now rewrite Sh', Sh1|].
    intros a c. rewrite C', C1, cnt_cons.
    generalize (cnt (a, c) (pairs (v :: tl))). intros k.
    destruct (String.eqb a u && String.eqb c v); lia.
Qed.

(** Along a path every node other than its ends is entered as often
    as it is left. *)
Lemma path_balance N path x d :
  NoDup N -> path <> [] -> incl path N ->
  sumZ (fun w => cnt (x, w) (pairs path) - cnt (w, x) (pairs path)) N =
  (if String.eqb x (hd d path) then 1 else 0) -
  (if String.eqb x (last path d) then 1 else 0).
Proof.
  intros HN. induction path as [| a [| b tl] IH]; intros Hne Hincl;
    [congruence | |].
  - simpl. rewrite (sumZ_ext _ (fun _ => 0)), sumZ_zero; [lia|].
    intros; rewrite !cnt_nil; lia.
  - change (pairs (a :: b :: tl)) with ((a, b) :: pairs (b :: tl)).
    change (last (a :: b :: tl) d) with (last (b :: tl) d).
    change (hd d (a :: b :: tl)) with a.
    assert (Ha : In a N) by (apply Hincl; now left).
    assert (Hb : In b N) by (apply Hincl; right; now left).
    rewrite (sumZ_ext _ (fun w =>
      ((if String.eqb w b then if String.eqb x a then 1 else 0 else 0)
       - (if String.eqb w a then if String.eqb x b then 1 else 0 else 0))
      + (cnt (x, w) (pairs (b :: tl)) - cnt (w, x) (pairs (b :: tl))))).
    + rewrite sumZ_add, sumZ_sub, !sumZ_indicator by assumption.
      rewrite IH; [|discriminate | intros y Hy; apply Hincl; now right].
      change (hd d (b :: tl)) with b. lia.
    + intros w _. rewrite !cnt_cons.
      destruct (String.eqb x a), (String.eqb w b), (String.eqb w a),
        (String.eqb x b); cbn [andb]; lia.
Qed.

Lemma sumZ_term_le f l a :
  (forall x, In x l -> 0 <= f x) -> In a l -> f a <= sumZ f l.
Proof.
  induction l as [| b l IH]; intros Hnn Hin; simpl; [contradiction|].
  assert (0 <= sumZ f l).
  { rewrite <- (sumZ_zero l). apply sumZ_le. intros; apply Hnn; now right. }
  destruct Hin as [-> | Hin].
  - lia.
  - specialize (IH (fun x Hx => Hnn x (or_intror Hx)) Hin).
    specialize (Hnn b (or_introl eq_refl)). lia.
Qed.

Lemma sumZ_pos_exists f l : 0 < sumZ f l -> exists x, In x l /\ 0 < f x.
Proof.
  induction l as [| a l IH]; simpl; [lia|]. intros H.
  destruct (Z_lt_dec 0 (f a)); [exists a; auto|].
  destruct IH as (x & Hx & Hfx); [lia|]. exists x. auto.
Qed.

Lemma filter_length_lt {A} (f f' : A -> bool) l :
  (forall x, In x l -> f' x = true -> f x = true) ->
  (exists x, In x l /\ f x = true /\ f' x = false) ->
  (length (filter f' l) < length (filter f l))%nat.
Proof.
  induction l as [| a l IH]; intros Himp (x & Hin & Hfx & Hf'x);
    [contradiction|].
  assert (Hle : (length (filter f' l) <= length (filter f l))%nat).
  { clear - Himp. induction l as [| b l IHl]; simpl; [lia|].
    assert (H : (length (filter f' l) <= length (filter f l))%nat).
    { apply IHl. intros y [-> | Hy] Hy'; apply Himp; simpl; auto. }
    pose proof (Himp b (or_intror (or_introl eq_refl))) as Hb.
    destruct (f' b) eqn:E'; [rewrite Hb by reflexivity|];
      destruct (f b); simpl; lia. }
  simpl. destruct Hin as [-> | Hin].
  - rewrite Hfx, Hf'x. simpl. lia.
  - assert (Hlt : (length (filter f' l) < length (filter f l))%nat).
    { apply IH; [intros; apply Himp; simpl; auto|]. exists x. auto. }
    pose proof (Himp a (or_introl eq_refl)) as Ha.
    destruct (f' a) eqn:E'; [rewrite Ha by reflexivity|];
      destruct (f a); simpl; lia.
Qed.

(** ** The loop of the decomposition *)

(** Sum of the values of the returned mapping, as Python's [sum]. *)
Definition sum_values (res : dict num) : num :=
  fold_left (fun acc kv => num_add acc (snd kv)) res (Fin 0).

Definition all_fin (res : dict num) : Prop :=
  Forall (fun kv => exists x, snd kv = Fin x) res.

Definition fin_total (res : dict num) : Z :=
  fold_right (fun kv acc => match snd kv with Fin x => x + acc | Inf => acc end)
             0 res.

Lemma sum_values_fin res : all_fin res -> sum_values res = Fin (fin_total res).
Proof.
  unfold sum_values.
  assert (H : forall z, all_fin res ->
            fold_left (fun acc kv => num_add acc (snd kv)) res (Fin z)
            = Fin (z + fin_total res)).
  { induction res as [| [k v] res IH]; intros z Hall; simpl.
    - f_equal. lia.
    - inversion Hall as [| ? ? [x Hx] Hall']; subst. simpl in Hx. subst v.
      simpl. rewrite IH by assumption. f_equal. lia. }
  intros Hall. now rewrite H.
Qed.

Lemma result_add_fin shop m res :
  all_fin res ->
  all_fin (set shop (num_add (get_or (Fin 0) shop res) (Fin m)) res) /\
  fin_total (set shop (num_add (get_or (Fin 0) shop res) (Fin m)) res)
  = fin_total res + m.
Proof.
  unfold get_or. induction res as [| [k v] res IH]; intros Hall; simpl.
  - split; [repeat constructor; simpl; eauto | lia].
  - inversion Hall as [| ? ? [x Hx] Hall']; subst. simpl in Hx. subst v.
    destruct (String.eqb shop k); simpl.
    + split; [constructor; simpl; eauto | lia].
    + destruct (IH Hall') as [H1 H2]. split.
      * constructor; simpl; eauto.
      * rewrite H2. lia.
Qed.

Definition targets (sub : Graph) : list string :=
  flat_map (fun kv => keys (snd kv)) sub.

Lemma slot_target sub u v : In v (slots_of u sub) -> In v (targets sub).
Proof.
  unfold slots_of, get_or, targets. destruct (get u sub) as [d|] eqn:E;
    [|contradiction].
  intros Hv. apply in_flat_map. exists (u, d). split; [|assumption].
  now apply get_Some_In.
Qed.

(** Number of edges of the subgraph that still carry flow. *)
Definition pos_count (sub : Graph) : nat :=
  length (filter (fun e => 0 <? cap sub (fst e) (snd e)) (edges sub)).

Section Decompose.
Variables (shops : list string) (terminal : string) (N : list string).
Hypothesis HN : NoDup N.
Hypothesis Hterm : inb terminal shops = false.

Record dec_inv (sub : Graph) : Prop := {
  di_wf : flow_wf N sub;
  di_nonneg : forall u v, 0 <= cap sub u v;
  di_acyc : acyclic (edge sub);
  di_bal : forall v, inb v shops = false -> v <> terminal ->
           sumZ (fun u => cap sub u v) N <= sumZ (cap sub v) N
}.

Lemma edge_in_N sub u v :
  flow_wf N sub -> edge sub u v -> In u N /\ In v N.
Proof.
  intros (_ & _ & H3 & H4) He. apply edge_slot in He. split.
  - apply H3. eapply slots_of_keys; eauto.
  - eapply H4; eauto.
Qed.

Lemma dec_out sub u v :
  dec_inv sub -> edge sub u v -> inb v shops = false -> v <> terminal ->
  exists w, edge sub v w.
Proof.
  intros Inv He Hv Hvt.
  destruct (edge_in_N _ _ _ (di_wf _ Inv) He) as [Hu _].
  pose proof (di_bal _ Inv v Hv Hvt) as Hbal.
  pose proof (sumZ_term_le (fun u => cap sub u v) N u
                (fun x _ => di_nonneg _ Inv x v) Hu) as Hle.
  simpl in Hle. unfold edge in He.
  destruct (sumZ_pos_exists (cap sub v) N) as (w & _ & Hw); [lia|].
  now exists w.
Qed.

Lemma no_out_zero sub u :
  dec_inv sub -> sumZ (cap sub u) N <= 0 -> forall w, ~ edge sub u w.
Proof.
  intros Inv Hsum w He.
  destruct (edge_in_N _ _ _ (di_wf _ Inv) He) as [_ Hw].
  pose proof (sumZ_term_le (cap sub u) N w
                (fun x _ => di_nonneg _ Inv u x) Hw).
  unfold edge in He. lia.
Qed.

(** The recursion depth allowed to [dfs] exceeds the number of nodes:
    every nested call marks a node that was not marked before. *)
Variable limit : nat.
Hypothesis Hlimit : (length N < limit)%nat.

(** One round of the loop when the terminal still has an edge that
    carries flow. *)
Lemma dec_step sub :
  dec_inv sub -> (exists w, edge sub terminal w) ->
  exists path m visited' sub',
    dfs limit shops sub terminal []
      = Ok ((Some path, Fin m), visited') /\
    0 < m /\
    subtract_path path m sub = Ok sub' /\
    dec_inv sub' /\
    sumZ (cap sub' terminal) N = sumZ (cap sub terminal) N - m /\
    (pos_count sub' < pos_count sub)%nat.
Proof.
  intros Inv Hw.
  pose proof (di_wf _ Inv) as Hwf. pose proof Hwf as (W1 & W2 & W3 & W4).
  destruct (dfs_finds shops terminal sub N W2
              (di_acyc _ Inv) (fun u v => dec_out sub u v Inv)) with
      (fuel := limit) (node := terminal) (visited := @nil string)
    as (path & visited' & Hrun & Hhd & Hlast & Hedges & Hnd & _).
  { intros u v He. apply (edge_in_N sub u v Hwf He). }
  { now right. }
  { intros x []. }
  { now right. }
  { constructor. }
  { intros []. }
  { intros x [<- | []]. destruct Hw as [w Hw].
    apply (edge_in_N sub terminal w Hwf Hw). }
  { simpl. lia. }
  destruct path as [| a path']; [discriminate|].
  injection Hhd as ->.
  assert (Hne : path' <> []).
  { intros ->. simpl in Hlast. congruence. }
  destruct path' as [| b tl]; [congruence|].
  set (path := terminal :: b :: tl) in *.
  destruct (path_bn_spec sub path) as [[Hp _] | (m & Hbn & Hmin & (u0 & v0 & Hin0 & Hcap0))];
    [discriminate|].
  rewrite Hbn in Hrun.
  assert (Hpos : 0 < m).
  { rewrite <- Hcap0. apply (Hedges _ _ Hin0). }
  destruct (subtract_path_ok m path sub) as (sub' & Hsub & Hsh & Hcap).
  { intros u v Hin. apply edge_slot. now apply Hedges. }
  exists path, m, visited', sub'.
  split; [assumption|]. split; [assumption|]. split; [assumption|].
  pose proof (pairs_nodup path Hnd) as Hpnd.
  assert (HinN : incl path N).
  { intros x Hx. destruct Hx as [<- | Hx].
    - destruct Hw as [w Hw]. apply (edge_in_N _ _ _ Hwf Hw).
    - assert (exists u, In (u, x) (pairs path)) as [u Hu].
      { clear - Hx. unfold path. revert Hx. generalize terminal as a.
        induction (b :: tl) as [| c l IH]; intros a Hx; [contradiction|].
        rewrite pairs_cons. destruct Hx as [<- | Hx].
        - exists a. now left.
        - destruct (IH c Hx) as [u Hu]. exists u. now right. }
      apply (edge_in_N _ _ _ Hwf (Hedges _ _ Hu)). }
  assert (Hle : forall a c, cap sub' a c <= cap sub a c).
  { intros a c. rewrite Hcap. pose proof (cnt_nonneg (a, c) (pairs path)).
    nia. }
  assert (Hbal : forall x,
            sumZ (cap sub' x) N - sumZ (fun u => cap sub' u x) N =
            sumZ (cap sub x) N - sumZ (fun u => cap sub u x) N -
            m * ((if String.eqb x terminal then 1 else 0) -
                 (if String.eqb x (last path "") then 1 else 0))).
  { intros x.
    assert (Hpb := path_balance N path x "" HN).
    change (hd "" path) with terminal in Hpb.
    rewrite <- Hpb by (auto; discriminate).
    rewrite <- sumZ_scale, <- !sumZ_sub. apply sumZ_ext. intros w _.
    rewrite !Hcap. lia. }
  split; [|split].
  - constructor.
    + destruct Hwf as (H1 & H2 & H3 & H4). unfold flow_wf.
      rewrite (shape_keys _ _ Hsh). split; [assumption|]. split; [|split].
      * intros u. rewrite (shape_slots_of _ _ u Hsh). apply H2.
      * assumption.
      * intros u v. rewrite (shape_slots_of _ _ u Hsh). apply H4.
    + intros u v. rewrite Hcap.
      pose proof (di_nonneg _ Inv u v) as H0.
      destruct (in_dec edge_dec (u, v) (pairs path)) as [Hin | Hnin].
      * rewrite (cnt_in _ _ Hpnd Hin). specialize (Hmin _ _ Hin). lia.
      * rewrite (cnt_notin _ _ Hnin). lia.
    + intros n x Hwk. apply (di_acyc _ Inv n x).
      eapply walk_ext; [|exact Hwk]. intros a c. unfold edge.
      specialize (Hle a c). lia.
    + intros v Hv Hvt. specialize (Hbal v).
      pose proof (di_bal _ Inv v Hv Hvt) as Hold.
      destruct (String.eqb_spec v terminal); [contradiction|].
      destruct (String.eqb_spec v (last path "")) as [E | _];
        [rewrite E in Hv; congruence|]. lia.
  - assert (Hin_t : sumZ (fun u => cap sub' u terminal) N
                    = sumZ (fun u => cap sub u terminal) N).
    { apply sumZ_ext. intros u _. rewrite Hcap.
      rewrite cnt_notin; [lia|]. intros Hin.
      apply pairs_target in Hin. inversion Hnd; subst. contradiction. }
    specialize (Hbal terminal). rewrite String.eqb_refl in Hbal.
    destruct (String.eqb_spec terminal (last path "")) as [E | _].
    + rewrite <- E in Hlast. congruence.
    + lia.
  - unfold pos_count. rewrite (edges_shape _ _ Hsh).
    apply filter_length_lt.
    + intros [a c] _. simpl. rewrite !Z.ltb_lt. specialize (Hle a c). lia.
    + exists (u0, v0). split; [|split]; simpl.
      * apply in_edges, edge_slot. now apply Hedges.
      * apply Z.ltb_lt. apply (Hedges _ _ Hin0).
      * apply Z.ltb_ge. rewrite Hcap, (cnt_in _ _ Hpnd Hin0). lia.
Qed.

Lemma decompose_loop_spec fuel : forall sub res,
  dec_inv sub -> all_fin res -> (pos_count sub < fuel)%nat ->
  exists res',
    decompose_loop fuel limit terminal shops sub res = Ok res' /\
    all_fin res' /\
    fin_total res' = fin_total res + sumZ (cap sub terminal) N.
Proof.
  induction fuel as [| fuel IH]; intros sub res Inv Hfin Hfuel; [lia|].
  cbn [decompose_loop].
  destruct (Z_lt_dec 0 (sumZ (cap sub terminal) N)) as [Hpos | Hzero].
  - destruct (sumZ_pos_exists _ _ Hpos) as (w & _ & Hw).
    destruct (dec_step sub Inv (ex_intro _ w Hw))
      as (path & m & v' & sub' & Hrun & Hm & Hsub & Inv' & Hout & Hcount).
    rewrite Hrun. cbn [bind fst snd num_eqb].
    destruct (Z.eqb_spec m 0) as [? | _]; [lia|].
    rewrite Hsub. cbn [bind].
    destruct (result_add_fin (last path "") m res Hfin) as [Hfin' Htot].
    destruct (IH sub' _ Inv' Hfin') as (res' & Hres & Hall & Hsum); [lia|].
    exists res'. split; [assumption|]. split; [assumption|].
    rewrite Hsum, Htot, Hout. lia.
  - assert (Hsum0 : sumZ (cap sub terminal) N = 0).
    { assert (0 <= sumZ (cap sub terminal) N); [|lia].
      rewrite <- (sumZ_zero N). apply sumZ_le. intros x _.
      apply (di_nonneg _ Inv). }
    destruct limit as [| limit']; [lia|].
    destruct (dfs_none shops sub (proj1 (proj2 (di_wf _ Inv)))
                limit' terminal [] Hterm) as [v' Hrun].
    { apply no_out_zero; [assumption | lia]. }
    rewrite Hrun. cbn [bind fst].
    exists res. split; [reflexivity|]. split; [assumption | lia].
Qed.
End Decompose.

(** ** Decomposing a flow computed by [edmonds_karp] *)

Definition valid_nodes (terminals warehouses shops : list string)
  : list string :=
  (terminals ++ warehouses ++ shops)%list.

(** An edge of the positive-flow subgraph restricted to the interior
    nodes. *)
Definition interior_edge (valid : list string) (flow : Graph)
    (u v : string) : Prop :=
  In u valid /\ In v valid /\ 0 < cap flow u v.

(** Flow leaving an interior node that is not a shop stays inside. *)
Definition confined (valid shops : list string) (flow : Graph) : Prop :=
  forall u v, In u valid -> ~ In u shops -> 0 < cap flow u v -> In v valid.

(** A number of rounds that is always enough: every round empties an
    edge of [sub_flow]. *)
Definition decompose_fuel (flow : Graph)
    (terminals warehouses shops : list string) : nat :=
  S (length (edges (sub_flow_of (valid_nodes terminals warehouses shops) flow))).

Lemma inb_false x l : inb x l = false <-> ~ In x l.
Proof.
  rewrite <- inb_true. destruct (inb x l); split; congruence.
Qed.

Lemma ek_result_inv g s t fuel mf flow :
  wf_graph g -> In s (nodes g) -> In t (nodes g) -> s <> t ->
  edmonds_karp fuel g s t = Ok (mf, flow) ->
  exists z r', mf = Fin z /\ ek_inv g s t r' flow z.
Proof.
  intros Hg Hs Ht Hst Hrun.
  destruct (ek_returns g s t Hg Hs Ht Hst)
    as (z & f & Hrun' & r' & p & lev & Inv & _).
  apply (edmonds_karp_mono _ (Nat.max fuel (ek_fuel g))) in Hrun; [|lia].
  apply (edmonds_karp_mono _ (Nat.max fuel (ek_fuel g))) in Hrun'; [|lia].
  rewrite Hrun in Hrun'. injection Hrun' as -> ->. eauto.
Qed.

Section DecomposeFlow.
Variables (N valid shops : list string) (flow : Graph) (s t terminal : string).
Hypothesis HN : NoDup N.
Hypothesis Hwf : flow_wf N flow.
Hypothesis Hcons :
  forall v, v <> s -> v <> t -> inflow flow v = outflow flow v.
Hypothesis Hs : ~ In s valid.
Hypothesis Ht : ~ In t valid.
Hypothesis Hacyc : acyclic (interior_edge valid flow).
Hypothesis Hconf : confined valid shops flow.

Let sub := sub_flow_of valid flow.

Lemma sub_cap a b :
  cap sub a b =
  if inb a valid && inb b valid && (0 <? cap flow a b)
  then cap flow a b else 0.
Proof. apply (sub_flow_of_spec N valid flow Hwf). Qed.

Lemma sub_cap_le a b : 0 <= cap sub a b <= pos (cap flow a b).
Proof.
  rewrite sub_cap. unfold pos.
  destruct (inb a valid && inb b valid); simpl; [|lia].
  destruct (Z.ltb_spec 0 (cap flow a b)); lia.
Qed.

Lemma sub_out v :
  In v valid -> ~ In v shops -> sumZ (cap sub v) N = outflow flow v.
Proof.
  intros Hv Hvs. rewrite (outflow_sum N) by assumption.
  apply sumZ_ext. intros w _. rewrite sub_cap. unfold pos.
  apply inb_true in Hv as Hvb. rewrite Hvb. simpl.
  destruct (Z.ltb_spec 0 (cap flow v w)) as [Hpos | Hle].
  - pose proof (Hconf v w Hv Hvs Hpos) as Hw. apply inb_true in Hw.
    rewrite Hw. simpl. lia.
  - rewrite andb_false_r. lia.
Qed.

Lemma sub_dec_inv : dec_inv shops terminal N sub.
Proof.
  constructor.
  - apply (sub_flow_of_spec N valid flow Hwf).
  - intros u v. apply sub_cap_le.
  - intros n x Hw. apply (Hacyc n x). eapply walk_ext; [|exact Hw].
    intros a b. unfold edge, interior_edge. rewrite sub_cap.
    destruct (inb a valid) eqn:Ea, (inb b valid) eqn:Eb; simpl; try lia.
    apply inb_true in Ea, Eb.
    destruct (Z.ltb_spec 0 (cap flow a b)); [tauto | lia].
  - intros v Hv Hvt. apply inb_false in Hv.
    destruct (in_dec string_dec v valid) as [Hin | Hnin].
    + rewrite (sub_out v Hin Hv).
      rewrite <- Hcons by (intros ->; contradiction).
      rewrite (inflow_sum N) by assumption.
      apply sumZ_le. intros u _. apply sub_cap_le.
    + rewrite (sumZ_ext _ (fun _ => 0)).
      * rewrite sumZ_zero, <- (sumZ_zero N). apply sumZ_le.
        intros w _. apply sub_cap_le.
      * intros u _. rewrite sub_cap. apply inb_false in Hnin.
        rewrite Hnin. now rewrite andb_false_r.
Qed.
End DecomposeFlow.

(** A result of [dfs] does not change when more recursion depth is
    allowed. *)
Lemma dfs_scan_mono (rec rec' : string -> list string -> result dfs_result)
    node :
  (forall n v x, rec n v = Ok x -> rec' n v = Ok x) ->
  forall items visited x,
    dfs_scan rec node items visited = Ok x ->
    dfs_scan rec' node items visited = Ok x.
Proof.
  intros Hrec. induction items as [| [w c] rest IH]; intros visited x;
    [auto|].
  cbn [dfs_scan]. destruct ((c >? 0) && negb (inb w visited)); [|apply IH].
  destruct (rec w visited) as [[r v] | | |] eqn:E; cbn [bind];
    try discriminate.
  rewrite (Hrec _ _ _ E). cbn [bind].
  destruct (fst r); [auto | apply IH].
Qed.

Lemma dfs_mono limit : forall limit' shops sub node visited x,
  (limit <= limit')%nat ->
  dfs limit shops sub node visited = Ok x ->
  dfs limit' shops sub node visited = Ok x.
Proof.
  induction limit as [| limit IH]; intros limit' shops sub node visited x Hle;
    [discriminate|].
  destruct limit' as [| limit']; [lia|]. cbn [dfs].
  destruct (inb node shops); [auto|].
  destruct (mem node sub); [|auto].
  apply dfs_scan_mono. intros n v y. apply IH. lia.
Qed.

Lemma decompose_loop_mono fuel :
  forall fuel' limit limit' terminal shops sub res x,
  (fuel <= fuel')%nat -> (limit <= limit')%nat ->
  decompose_loop fuel limit terminal shops sub res = Ok x ->
  decompose_loop fuel' limit' terminal shops sub res = Ok x.
Proof.
  induction fuel as [| fuel IH];
    intros fuel' limit limit' terminal shops sub res x Hle Hlim;
    [discriminate|].
  destruct fuel' as [| fuel']; [lia|]. cbn [decompose_loop].
  destruct (dfs limit shops sub terminal []) as [[[path bn] v] | | |] eqn:E;
    cbn [bind fst snd]; try discriminate.
  rewrite (dfs_mono _ _ _ _ _ _ _ Hlim E). cbn [bind fst snd].
  destruct path as [path|]; [|auto].
  destruct (num_eqb bn (Fin 0)); [auto|].
  destruct bn as [b|].
  - destruct (subtract_path path b sub) as [sub' | | |]; cbn [bind];
      try discriminate.
    apply IH; [lia | assumption].
  - apply IH; [lia | assumption].
Qed.

(** Checking acyclicity and confinement on concrete flows. *)
Lemma acyclic_rank (E : string -> string -> Prop) (rk : string -> nat) :
  (forall u v, E u v -> (rk u < rk v)%nat) -> acyclic E.
Proof.
  intros H.
  assert (Hw : forall n x y, walk E n x y -> (rk x + n <= rk y)%nat).
  { induction 1 as [| n x w y Hxw Hwy IH]; [lia|].
    specialize (H _ _ Hxw). lia. }
  intros n x Hx. specialize (Hw _ _ _ Hx). lia.
Qed.

Definition rank_check (valid : list string) (flow : Graph)
    (rk : string -> nat) : bool :=
  forallb (fun u =>
             forallb (fun v => (cap flow u v <=? 0) || (rk u <? rk v)%nat)
                     valid)
          valid.

Lemma rank_check_acyclic valid flow rk :
  rank_check valid flow rk = true -> acyclic (interior_edge valid flow).
Proof.
  intros H. apply acyclic_rank with rk. intros u v (Hu & Hv & Hpos).
  unfold rank_check in H. rewrite forallb_forall in H.
  specialize (H u Hu). rewrite forallb_forall in H. specialize (H v Hv).
  apply orb_prop in H. destruct H as [H | H].
  - apply Z.leb_le in H. lia.
  - now apply Nat.ltb_lt.
Qed.

Definition confined_check (valid shops : list string) (flow : Graph) : bool :=
  forallb (fun u =>
             inb u shops ||
             forallb (fun v => (cap flow u v <=? 0) || inb v valid)
                     (slots_of u flow))
          valid.

Lemma confined_check_ok valid shops flow :
  confined_check valid shops flow = true -> confined valid shops flow.
Proof.
  intros H u v Hu Hus Hpos. unfold confined_check in H.
  rewrite forallb_forall in H. specialize (H u Hu).
  apply orb_prop in H. destruct H as [H | H].
  - apply inb_true in H. contradiction.
  - rewrite forallb_forall in H.
    assert (Hv : In v (slots_of u flow)) by (now apply edge_slot).
    specialize (H v Hv). apply orb_prop in H. destruct H as [H | H].
    + apply Z.leb_le in H. lia.
    + now apply inb_true.
Qed.

(** ** C9: the decomposition sum *)

(** A network in which part of the terminal's flow bypasses the
    interior nodes: A sends 3 units through W and H, and 2 units
    through X, which is neither a terminal, a warehouse nor a shop. *)
Definition leak_graph : Graph :=
  [("S", [("A", 5)]); ("A", [("W", 3); ("X", 2)]); ("W", [("H", 3)]);
   ("H", [("T", 3)]); ("X", [("T", 2)])].

Definition leak_flow : Graph :=
  Eval vm_compute in
    match edmonds_karp 10 leak_graph "S" "T" with
    | Ok (_, f) => f
    | _ => empty
    end.

(** Claim C9, on a flow that leaves the interior nodes: for
    [leak_graph] with terminals [A], warehouses [W] and shops [H] the
    positive-flow subgraph on the interior nodes is acyclic, the
    terminal A sends out 5 units, and whatever the number of rounds
    and the recursion depth allowed, the mapping returned for A sums
    to 3. *)
Lemma decomposition_misses_leaked_flow :
  edmonds_karp 10 leak_graph "S" "T" = Ok (Fin 5, leak_flow) /\
  acyclic (interior_edge (valid_nodes ["A"] ["W"] ["H"]) leak_flow) /\
  outflow leak_flow "A" = 5 /\
  ~ exists fuel limit res,
      fst (decompose_terminal_flows fuel limit "A" leak_flow
                                    ["A"] ["W"] ["H"])
        = Ok res /\
      sum_values res = Fin (outflow leak_flow "A").
Proof.
  split; [vm_compute; reflexivity|]. split; [|split; [reflexivity|]].
  - apply rank_check_acyclic
      with (rk := fun x => if String.eqb x "A" then 0%nat
                            else if String.eqb x "W" then 1%nat else 2%nat).
    vm_compute. reflexivity.
  - intros (fuel & limit & res & Hrun & Hsum).
    unfold decompose_terminal_flows in Hrun.
    rewrite build_sub_flow_eq in Hrun. cbn [fst] in Hrun.
    apply (decompose_loop_mono _ (Nat.max fuel 10) _ (Nat.max limit 10))
      in Hrun; [|lia|lia].
    assert (H10 : decompose_loop 10 10 "A" ["H"]
                    (sub_flow_of (["A"] ++ ["W"] ++ ["H"]) leak_flow) empty
                  = Ok [("H", Fin 3)]) by (vm_compute; reflexivity).
    apply (decompose_loop_mono _ (Nat.max fuel 10) _ (Nat.max limit 10))
      in H10; [|lia|lia].
    rewrite H10 in Hrun. injection Hrun as <-.
    vm_compute in Hsum. discriminate.
Qed.

(** Claim C9 (amended): let [flow] be returned by [edmonds_karp] for
    distinct source and sink in the node set, both outside the interior
    nodes; let the positive-flow subgraph on the interior nodes be
    acyclic, let positive flow leaving an interior node that is not a
    shop lead to interior nodes only, let the entry terminal be an
    interior node that is not a shop, and let the interpreter allow
    [dfs] a recursion depth greater than the number of nodes of the
    graph.  Then [decompose_terminal_flows] returns a mapping whose
    values sum to the total outgoing positive flow of the terminal in
    [flow]. *)
Theorem decomposition_sum
    g s t fuel limit mf flow terminal terminals warehouses shops :
  wf_graph g -> In s (nodes g) -> In t (nodes g) -> s <> t ->
  edmonds_karp fuel g s t = Ok (mf, flow) ->
  (length (nodes g) < limit)%nat ->
  ~ In s (valid_nodes terminals warehouses shops) ->
  ~ In t (valid_nodes terminals warehouses shops) ->
  In terminal (valid_nodes terminals warehouses shops) ->
  ~ In terminal shops ->
  acyclic (interior_edge (valid_nodes terminals warehouses shops) flow) ->
  confined (valid_nodes terminals warehouses shops) shops flow ->
  exists res,
    fst (decompose_terminal_flows
           (decompose_fuel flow terminals warehouses shops) limit
           terminal flow terminals warehouses shops) = Ok res /\
    sum_values res = Fin (outflow flow terminal).
Proof.
  intros Hg Hs Ht Hst Hrun Hlimit Hsv Htv Hterm Hnshop Hacyc Hconf.
  destruct (ek_result_inv g s t fuel mf flow Hg Hs Ht Hst Hrun)
    as (z & r' & -> & Inv).
  pose proof (nodes_nodup g Hg) as HN.
  pose proof (ei_fwf _ _ _ _ _ _ Inv) as Hwf.
  pose proof (conservation g s t Hg r' flow z Inv) as Hcons.
  set (valid := valid_nodes terminals warehouses shops) in *.
  pose proof (sub_dec_inv (nodes g) valid shops flow s t terminal
                HN Hwf Hcons Hsv Htv Hacyc Hconf) as Hinv.
  apply inb_false in Hnshop as Hnb.
  destruct (decompose_loop_spec shops terminal (nodes g) HN Hnb limit Hlimit
              (decompose_fuel flow terminals warehouses shops)
              (sub_flow_of valid flow) empty Hinv)
    as (res & Hres & Hfin & Htot).
  - constructor.
  - unfold decompose_fuel, pos_count. fold valid.
    pose proof (filter_length_le
                  (fun e => 0 <? cap (sub_flow_of valid flow) (fst e) (snd e))
                  (edges (sub_flow_of valid flow))). lia.
  - exists res. split.
    + unfold decompose_terminal_flows. fold (valid_nodes terminals warehouses shops).
      fold valid. rewrite build_sub_flow_eq. exact Hres.
    + rewrite (sum_values_fin res Hfin), Htot. f_equal.
      change (fin_total empty) with 0.
      rewrite (sub_out (nodes g) valid shops flow HN Hwf Hconf terminal Hterm Hnshop).
      lia.
Qed.

Definition logistics_flow : Graph :=
  Eval vm_compute in
    match edmonds_karp 100 build_logistics_graph "S" "T" with
    | Ok (_, f) => f
    | _ => empty
    end.

Definition logistics_rank (x : string) : nat :=
  if inb x terminals then 0 else if inb x warehouses then 1 else 2.

Lemma decomposition_sum_witness :
  exists res,
    fst (decompose_terminal_flows
           (decompose_fuel logistics_flow terminals warehouses shops) 1000
           "Terminal 1" logistics_flow terminals warehouses shops) = Ok res /\
    sum_values res = Fin (outflow logistics_flow "Terminal 1").
Proof.
  apply (decomposition_sum build_logistics_graph "S" "T" 100 1000 (Fin 115)).
  - apply wf_graphb_true; vm_compute; reflexivity.
  - apply inb_In; vm_compute; reflexivity.
  - apply inb_In; vm_compute; reflexivity.
  - discriminate.
  - vm_compute; reflexivity.
  - apply Nat.ltb_lt; vm_compute; reflexivity.
  - apply inb_false; vm_compute; reflexivity.
  - apply inb_false; vm_compute; reflexivity.
  - apply inb_In; vm_compute; reflexivity.
  - apply inb_false; vm_compute; reflexivity.
  - apply rank_check_acyclic with (rk := logistics_rank).
    vm_compute; reflexivity.
  - apply confined_check_ok; vm_compute; reflexivity.
Defined.

(** * Further properties of the code *)

(** ** The residual graph built by [edmonds_karp] *)

(** X1: the residual graph keeps every capacity of the graph, has a
    slot [(u, v)] exactly where the graph has the edge [(u, v)] or the
    edge [(v, u)] (so added reverse slots hold 0), and its keys are the
    keys of the graph and the targets of its edges. *)
Theorem residual_construction g u v :
  cap (init_residual g) u v = cap g u v /\
  (In v (slots_of u (init_residual g)) <->
   In v (slots_of u g) \/ In u (slots_of v g)) /\
  (In u (keys (init_residual g)) <->
   In u (keys g) \/ exists w, In u (slots_of w g)).
Proof.
  split; [apply init_residual_cap|]. split; [apply init_residual_slots|].
  apply in_nodes.
Qed.

(** ** The breadth-first search *)

(** X2: on a residual graph with its reverse slots and distinct source
    and sink among its keys, the search returns a predecessor map.
    Either the sink is left unmarked and no walk along edges of
    positive residual capacity leads from the source to the sink, or
    the predecessors of the sink form such a walk with the fewest
    edges possible. *)
Theorem bfs_finds_shortest_path r s t :
  res_wf r -> In s (keys r) -> In t (keys r) -> s <> t ->
  exists p,
    bfs (S (length (init_parent r s))) r t (init_parent r s) [s] = Ok p /\
    ((get t p = Some None /\ ~ reachable (edge r) s t) \/
     (exists l, chain p s t l /\ walk (edge r) (length l) s t /\
                forall j, walk (edge r) j s t -> (length l <= j)%nat)).
Proof.
  intros Hr Hs Ht Hst.
  destruct (bfs_run r s t Hr Hs Ht Hst) as (p & Hrun & lev & Ti & Hpost).
  exists p. split; [assumption|].
  destruct Hpost as [[Htn Hcl] | Hf].
  - left. split; [assumption|]. intros [n Hw].
    destruct (closed_reach r s p lev Ti Hcl n t Hw) as [x Hx]. congruence.
  - right. pose proof Hf as [Hvt _].
    destruct (chain_exists r s p lev Ti _ t eq_refl Hvt) as [l Hc].
    exists l. split; [assumption|]. split.
    + eapply chain_walk; eauto.
    + intros j Hw. rewrite (chain_length r s p lev Ti t l Hc).
      eapply found_shortest; eauto.
Qed.

Lemma bfs_finds_shortest_path_witness :
  exists p,
    bfs (S (length (init_parent (init_residual two_node_graph) "S")))
        (init_residual two_node_graph) "T"
        (init_parent (init_residual two_node_graph) "S") ["S"] = Ok p /\
    ((get "T" p = Some None /\
      ~ reachable (edge (init_residual two_node_graph)) "S" "T") \/
     (exists l, chain p "S" "T" l /\
                walk (edge (init_residual two_node_graph)) (length l) "S" "T" /\
                forall j, walk (edge (init_residual two_node_graph)) j "S" "T"
                          -> (length l <= j)%nat)).
Proof.
  apply (bfs_finds_shortest_path (init_residual two_node_graph) "S" "T").
  - apply init_residual_wf. apply wf_graphb_true; vm_compute; reflexivity.
  - apply inb_In; vm_compute; reflexivity.
  - apply inb_In; vm_compute; reflexivity.
  - discriminate.
Defined.

(** ** The value and the support of the returned flow *)

Lemma net_outflow_inflow g s t residual flow mf x :
  wf_graph g -> ek_inv g s t residual flow mf ->
  outflow flow x - inflow flow x = net g flow x.
Proof.
  intros Hg Inv. pose proof (nodes_nodup g Hg) as HN.
  pose proof (ei_fwf _ _ _ _ _ _ Inv) as Hfw.
  rewrite (inflow_sum (nodes g)), (outflow_sum (nodes g)) by assumption.
  unfold net. rewrite <- sumZ_sub. apply sumZ_ext. intros w _.
  rewrite (ei_anti _ _ _ _ _ _ Inv w x). unfold pos. lia.
Qed.

Lemma net_total_zero g s t residual flow mf :
  ek_inv g s t residual flow mf -> sumZ (net g flow) (nodes g) = 0.
Proof.
  intros Inv. set (X := sumZ (net g flow) (nodes g)).
  assert (X = - X); [|lia]. unfold X at 1, net. rewrite sumZ_swap.
  unfold X, net. rewrite <- sumZ_opp. apply sumZ_ext. intros u _.
  rewrite <- sumZ_opp. apply sumZ_ext. intros v _.
  apply (ei_anti _ _ _ _ _ _ Inv).
Qed.

Lemma net_sink g s t residual flow mf :
  wf_graph g -> In s (nodes g) -> In t (nodes g) -> s <> t ->
  ek_inv g s t residual flow mf -> net g flow t = - mf.
Proof.
  intros Hg Hs Ht Hst Inv. pose proof (nodes_nodup g Hg) as HN.
  pose proof (net_total_zero _ _ _ _ _ _ Inv) as H0.
  rewrite (sumZ_ext _ (fun x => (if String.eqb x s then mf else 0) +
                                (if String.eqb x t then net g flow t else 0)))
    in H0.
  - rewrite sumZ_add, !sumZ_indicator in H0 by assumption. lia.
  - intros x _. destruct (String.eqb_spec x s) as [-> | Hxs].
    + destruct (String.eqb_spec s t); [contradiction|].
      rewrite (ei_val _ _ _ _ _ _ Inv). lia.
    + destruct (String.eqb_spec x t) as [-> | Hxt]; [lia|].
      rewrite (ei_cons _ _ _ _ _ _ Inv x Hxs Hxt). lia.
Qed.

(** X3: for distinct source and sink in the node set, the returned
    [max_flow] is the positive flow leaving the source minus the
    positive flow entering it, and equally the positive flow entering
    the sink minus the positive flow leaving it. *)
Theorem flow_value_at_source_and_sink g s t :
  wf_graph g -> In s (nodes g) -> In t (nodes g) -> s <> t ->
  exists mf f,
    edmonds_karp (ek_fuel g) g s t = Ok (Fin mf, f) /\
    outflow f s - inflow f s = mf /\
    inflow f t - outflow f t = mf.
Proof.
  intros Hg Hs Ht Hst.
  destruct (ek_returns g s t Hg Hs Ht Hst)
    as (mf & f & Hrun & r' & p & lev & Inv & _).
  exists mf, f. split; [assumption|]. split.
  - rewrite (net_outflow_inflow g s t r' f mf s Hg Inv).
    apply (ei_val _ _ _ _ _ _ Inv).
  - pose proof (net_outflow_inflow g s t r' f mf t Hg Inv) as H.
    rewrite (net_sink g s t r' f mf Hg Hs Ht Hst Inv) in H. lia.
Qed.

Lemma flow_value_at_source_and_sink_witness :
  exists mf f,
    edmonds_karp (ek_fuel build_logistics_graph) build_logistics_graph "S" "T"
      = Ok (Fin mf, f) /\
    outflow f "S" - inflow f "S" = mf /\
    inflow f "T" - outflow f "T" = mf.
Proof.
  apply (flow_value_at_source_and_sink build_logistics_graph "S" "T").
  - apply wf_graphb_true; vm_compute; reflexivity.
  - apply inb_In; vm_compute; reflexivity.
  - apply inb_In; vm_compute; reflexivity.
  - discriminate.
Defined.

(** Total capacity of the edges entering [v]. *)
Definition in_capacity (g : Graph) (v : string) : Z :=
  fold_right (fun kv acc => get_or 0 v (snd kv) + acc) 0 g.

Lemma out_capacity_sum g u :
  wf_graph g -> out_capacity g u = sumZ (cap g u) (nodes g).
Proof.
  intros Hg. pose proof (nodes_nodup g Hg) as HN. destruct Hg as [H1 H2].
  unfold out_capacity. rewrite (entries_sum (fun x => x) 0) by apply H2.
  apply sumZ_incl; auto.
  - apply H2.
  - intros w Hw. apply in_nodes. right. now exists u.
  - intros w _ Hw. now apply cap_no_slot.
Qed.

Lemma in_capacity_sum g v :
  wf_graph g -> in_capacity g v = sumZ (fun u => cap g u v) (nodes g).
Proof.
  intros Hg. pose proof (nodes_nodup g Hg) as HN. destruct Hg as [H1 H2].
  unfold in_capacity.
  rewrite (entries_sum (fun d => get_or 0 v d) empty) by apply H1.
  apply sumZ_incl; auto.
  - intros u Hu. apply in_nodes. now left.
  - intros u _ Hu. unfold cap. now rewrite (get_or_notin _ u g).
Qed.

(** X4: with non-negative capacities and distinct source and sink in
    the node set, the returned [max_flow] is not negative, is at most
    the total capacity of the edges leaving the source and at most the
    total capacity of the edges entering the sink. *)
Theorem max_flow_within_terminal_capacities g s t :
  wf_graph g -> (forall u v, 0 <= cap g u v) ->
  In s (nodes g) -> In t (nodes g) -> s <> t ->
  exists mf f,
    edmonds_karp (ek_fuel g) g s t = Ok (Fin mf, f) /\
    0 <= mf /\ mf <= out_capacity g s /\ mf <= in_capacity g t.
Proof.
  intros Hg Hnn Hs Ht Hst. pose proof (nodes_nodup g Hg) as HN.
  destruct (ek_returns g s t Hg Hs Ht Hst)
    as (mf & f & Hrun & r' & p & lev & Inv & Ti & Htn & Hcl).
  exists mf, f. split; [assumption|].
  assert (Hzero : forall S, 0 <= cut_capacity g S).
  { intros S. unfold cut_capacity. rewrite <- (sumZ_zero (nodes g)) at 1.
    apply sumZ_le. intros u _. rewrite <- (sumZ_zero (nodes g)) at 1.
    apply sumZ_le. intros v _. destruct (S u && negb (S v)); [apply Hnn | lia]. }
  split; [|split].
  - destruct (saturated_cut g s t Hg Hs r' f mf Inv p lev Hnn Ti Htn Hcl)
      as [_ <-]. apply Hzero.
  - pose proof (flow_le_cut g s t Hg Hs r' f mf Inv (fun x => String.eqb x s) Hnn)
      as Hcut.
    rewrite (out_capacity_sum g s Hg).
    etransitivity; [apply Hcut|].
    + split; [apply String.eqb_refl|].
      destruct (String.eqb_spec t s); congruence.
    + unfold cut_capacity.
      rewrite (sumZ_ext _ (fun u => if String.eqb u s
                 then sumZ (fun v => if negb (String.eqb v s)
                                     then cap g s v else 0) (nodes g)
                 else 0)).
      * rewrite sumZ_indicator by assumption. apply sumZ_le.
        intros v _. specialize (Hnn s v). destruct (negb (String.eqb v s)); lia.
      * intros u _. destruct (String.eqb_spec u s) as [-> | ?]; simpl;
          [reflexivity | apply sumZ_zero].
  - pose proof (flow_le_cut g s t Hg Hs r' f mf Inv
                  (fun x => negb (String.eqb x t)) Hnn) as Hcut.
    rewrite (in_capacity_sum g t Hg).
    etransitivity; [apply Hcut|].
    + split; [|now rewrite String.eqb_refl].
      destruct (String.eqb_spec s t); [contradiction | reflexivity].
    + unfold cut_capacity. apply sumZ_le. intros u _.
      rewrite (sumZ_ext _ (fun v => if String.eqb v t
                 then (if negb (String.eqb u t) then cap g u t else 0)
                 else 0)).
      * rewrite sumZ_indicator by assumption.
        specialize (Hnn u t). destruct (negb (String.eqb u t)); lia.
      * intros v _. destruct (String.eqb_spec v t) as [-> | ?]; simpl.
        -- now rewrite andb_true_r.
        -- now rewrite andb_false_r.
Qed.

Lemma max_flow_within_terminal_capacities_witness :
  exists mf f,
    edmonds_karp (ek_fuel build_logistics_graph) build_logistics_graph "S" "T"
      = Ok (Fin mf, f) /\
    0 <= mf /\ mf <= out_capacity build_logistics_graph "S" /\
    mf <= in_capacity build_logistics_graph "T".
Proof.
  apply (max_flow_within_terminal_capacities build_logistics_graph "S" "T").
  - apply wf_graphb_true; vm_compute; reflexivity.
  - apply nonnegb_true; vm_compute; reflexivity.
  - apply inb_In; vm_compute; reflexivity.
  - apply inb_In; vm_compute; reflexivity.
  - discriminate.
Defined.

(** X5: for distinct source and sink in the node set, the returned
    flow map has keys among the nodes of the graph only, and carries no
    flow between two nodes that no edge of the graph joins in either
    direction. *)
Theorem flow_only_on_edges g s t :
  wf_graph g -> In s (nodes g) -> In t (nodes g) -> s <> t ->
  exists mf f,
    edmonds_karp (ek_fuel g) g s t = Ok (Fin mf, f) /\
    (forall u, In u (keys f) -> In u (nodes g)) /\
    (forall u v, In v (slots_of u f) -> In v (nodes g)) /\
    (forall u v, ~ In v (slots_of u g) -> ~ In u (slots_of v g) ->
                 cap f u v = 0).
Proof.
  intros Hg Hs Ht Hst.
  destruct (ek_returns g s t Hg Hs Ht Hst)
    as (mf & f & Hrun & r' & p & lev & Inv & _).
  exists mf, f. split; [assumption|].
  destruct (ei_fwf _ _ _ _ _ _ Inv) as (_ & _ & H3 & H4).
  split; [assumption|]. split; [assumption|].
  intros u v Huv Hvu.
  pose proof (ei_res _ _ _ _ _ _ Inv u v) as Hres.
  rewrite (cap_no_slot g u v Huv) in Hres.
  rewrite cap_no_slot in Hres; [lia|].
  rewrite (shape_slots_of _ _ u (ei_shape _ _ _ _ _ _ Inv)).
  rewrite init_residual_slots. tauto.
Qed.

Lemma flow_only_on_edges_witness :
  exists mf f,
    edmonds_karp (ek_fuel build_logistics_graph) build_logistics_graph "S" "T"
      = Ok (Fin mf, f) /\
    (forall u, In u (keys f) -> In u (nodes build_logistics_graph)) /\
    (forall u v, In v (slots_of u f) -> In v (nodes build_logistics_graph)) /\
    (forall u v, ~ In v (slots_of u build_logistics_graph) ->
                 ~ In u (slots_of v build_logistics_graph) ->
                 cap f u v = 0).
Proof.
  apply (flow_only_on_edges build_logistics_graph "S" "T").
  - apply wf_graphb_true; vm_compute; reflexivity.
  - apply inb_In; vm_compute; reflexivity.
  - apply inb_In; vm_compute; reflexivity.
  - discriminate.
Defined.

(** X6: whatever the graph and whether or not the node is in it, a
    call with the sink equal to the source never returns and never
    raises: after any number of iterations the loop is still running. *)
Theorem same_source_and_sink_never_returns g s fuel :
  edmonds_karp fuel g s s = OutOfFuel.
Proof. unfold edmonds_karp. apply ek_loop_same_node. Qed.

(** ** The depth-first search on an arbitrary subgraph *)

(** The path [dfs] reports: a simple path of edges that carry flow,
    from [node] to the first shop met, through nodes that were not
    marked before. *)
Definition dfs_path (sub : Graph) (shops : list string) (node : string)
    (visited path : list string) : Prop :=
  good_path sub shops node visited path /\
  (forall u v, In (u, v) (pairs path) -> inb u shops = false).

Section GeneralDFS.
Local Open Scope nat_scope.
Variables (shops : list string) (sub : Graph) (M : list string).
Hypothesis Hslots : forall u, NoDup (slots_of u sub).
Hypothesis HM : forall u v, In v (slots_of u sub) -> In v M.

Definition dfs_outcome (node : string) (visited : list string)
    (r : option (list string) * num) : Prop :=
  r = (None, Fin 0%Z) \/
  exists path, r = (Some path, path_bn sub path) /\
               dfs_path sub shops node visited path.

Lemma dfs_general fuel : forall node visited,
  NoDup visited -> ~ In node visited -> incl (node :: visited) M ->
  length M <= fuel + length visited ->
  exists r visited',
    dfs fuel shops sub node visited = Ok (r, visited') /\
    NoDup visited' /\ incl visited visited' /\ incl visited' M /\
    dfs_outcome node visited r.
Proof.
  induction fuel as [| fuel IH]; intros node visited Hnd Hnin Hincl Hfuel.
  - exfalso.
    assert (length (node :: visited) <= length M).
    { apply NoDup_incl_length; [now constructor | assumption]. }
    simpl in *. lia.
  - cbn [dfs]. destruct (inb node shops) eqn:Eshop.
    + exists (Some [node], Inf), visited. split; [reflexivity|].
      split; [assumption|]. split; [apply incl_refl|].
      split; [intros x Hx; apply Hincl; now right|].
      right. exists [node]. split; [reflexivity|]. split.
      * split; [reflexivity|]. split; [exact Eshop|].
        split; [intros ? ? []|]. split; [repeat constructor; simpl; tauto|].
        intros x [<- | []]. assumption.
      * intros ? ? [].
    + assert (Hadd : set_add node visited = node :: visited).
      { unfold set_add. destruct (inb node visited) eqn:E; [|reflexivity].
        apply inb_true in E. contradiction. }
      rewrite Hadd.
      assert (Hnd1 : NoDup (node :: visited)) by (now constructor).
      destruct (mem node sub) eqn:Hmem.
      2:{ exists (None, Fin 0%Z), (node :: visited). split; [reflexivity|].
          split; [assumption|]. split; [intros x Hx; now right|].
          split; [assumption | now left]. }
      assert (Hscan : forall items v1,
        (forall w c, In (w, c) items ->
                     cap sub node w = c /\ In w (slots_of node sub)) ->
        NoDup v1 -> incl (node :: visited) v1 -> incl v1 M ->
        exists r v',
          dfs_scan (dfs fuel shops sub) node items v1 = Ok (r, v') /\
          NoDup v' /\ incl v1 v' /\ incl v' M /\
          dfs_outcome node visited r).
      { induction items as [| [w c] rest IHi];
          intros v1 Hitems Hnd2 Hsub1 HinM.
        - exists (None, Fin 0%Z), v1. split; [reflexivity|].
          split; [assumption|]. split; [apply incl_refl|].
          split; [assumption | now left].
        - assert (Hrest : forall w c, In (w, c) rest ->
                    cap sub node w = c /\ In w (slots_of node sub))
            by (intros; apply Hitems; now right).
          destruct (Hitems w c (or_introl eq_refl)) as [Hcap Hslot].
          cbn [dfs_scan].
          destruct ((c >? 0)%Z && negb (inb w v1)) eqn:Econd;
            [|now apply IHi].
          apply andb_prop in Econd. destruct Econd as [Hpos Hfresh].
          apply Z.gtb_lt in Hpos. apply negb_true_iff, inb_false in Hfresh.
          assert (Hlen : length (node :: visited) <= length v1)
            by (now apply NoDup_incl_length).
          destruct (IH w v1) as (r & v2 & Hrun & Hnd3 & Hsub3 & HinM3 & Hout);
            auto.
          { intros x [<- | Hx]; [eapply HM; eauto | now apply HinM]. }
          { simpl in *. lia. }
          rewrite Hrun. cbn [bind].
          destruct Hout as [-> | (path' & -> & (Hgood & Hsrc))].
          + cbn [fst]. destruct (IHi v2) as (r & v' & Hrun' & ? & ? & ? & ?);
              auto.
            { intros x Hx. apply Hsub3, Hsub1, Hx. }
            exists r, v'. split; [assumption|]. split; [assumption|].
            split; [|split; assumption].
            intros x Hx. auto.
          + cbn [fst snd].
            destruct Hgood as (Hhd & Hlast & Hedges & Hndp & Hfr).
            destruct path' as [| w' tl]; [discriminate|].
            injection Hhd as ->.
            exists (Some (node :: w :: tl), path_bn sub (node :: w :: tl)), v2.
            split.
            { change (path_bn sub (node :: w :: tl))
                with (num_min (Fin (cap sub node w)) (path_bn sub (w :: tl))).
              now rewrite Hcap. }
            split; [assumption|]. split; [assumption|].
            split; [assumption|]. right.
            exists (node :: w :: tl). split; [reflexivity|].
            assert (Hnode : In node v1) by (apply Hsub1; now left).
            split; [split; [reflexivity|]; split; [exact Hlast|]; split;
                    [|split]|].
            * intros u v [[= <- <-] | Hin]; [|now apply Hedges].
              unfold edge. rewrite Hcap. lia.
            * constructor; [|assumption]. intros Hin.
              apply (Hfr _ Hin). assumption.
            * intros x [<- | Hin]; [assumption|]. intros Hx.
              apply (Hfr _ Hin). apply Hsub1. now right.
            * intros u v [[= <- <-] | Hin]; [assumption | eauto]. }
      destruct (Hscan (get_or empty node sub) (node :: visited))
        as (r & v' & Hrun & Hnd' & Hsub' & HinM' & Hout); auto.
      * intros w c Hin. split; [now apply sub_items_cap|].
        unfold slots_of, keys. change w with (fst (w, c)). now apply in_map.
      * apply incl_refl.
      * exists r, v'. split; [assumption|]. split; [assumption|].
        split; [|split; assumption].
        intros x Hx. apply Hsub'. now right.
Qed.
End GeneralDFS.

(** Started with nothing marked, the search nests at most as deep as
    there are nodes it can reach, the start node included. *)
Lemma dfs_from_start shops sub M limit node :
  (forall u, NoDup (slots_of u sub)) ->
  (forall u v, In v (slots_of u sub) -> In v M) ->
  (length M < limit)%nat ->
  exists r visited',
    dfs limit shops sub node [] = Ok (r, visited') /\
    (r = (None, Fin 0) \/
     exists path, r = (Some path, path_bn sub path) /\
                  dfs_path sub shops node [] path).
Proof.
  intros Hslots HM Hlimit.
  destruct (dfs_general shops sub (node :: M) Hslots)
    with (fuel := limit) (node := node) (visited := @nil string)
    as (r & v' & Hrun & _ & _ & _ & Hout).
  - intros u v Hv. right. eapply HM; eauto.
  - constructor.
  - intros [].
  - intros x [<- | []]. now left.
  - simpl. lia.
  - exists r, v'. split; assumption.
Qed.

(** X7: on a subgraph without repeated keys, when the interpreter
    allows [dfs] a recursion depth greater than the number of nodes
    of the subgraph, the search started as in the code (nothing
    marked) returns: either no path with bottleneck 0, or a simple
    path from the node to the first shop met, along edges with
    positive value, together with the least value on those edges. *)
Theorem dfs_returns_simple_path shops sub limit node :
  (forall u, NoDup (slots_of u sub)) ->
  (length (nodes sub) < limit)%nat ->
  exists r visited',
    dfs limit shops sub node [] = Ok (r, visited') /\
    (r = (None, Fin 0) \/
     exists path, r = (Some path, path_bn sub path) /\
                  dfs_path sub shops node [] path).
Proof.
  intros Hslots Hlimit.
  apply (dfs_from_start shops sub (nodes sub) limit node Hslots);
    [|assumption].
  intros u v Hv. apply in_nodes. right. now exists u.
Qed.

Lemma dfs_returns_simple_path_witness :
  exists r visited',
    dfs 1000 ["H"] leak_flow "A" [] = Ok (r, visited') /\
    (r = (None, Fin 0) \/
     exists path, r = (Some path, path_bn leak_flow path) /\
                  dfs_path leak_flow ["H"] "A" [] path).
Proof.
  apply (dfs_returns_simple_path ["H"] leak_flow 1000 "A").
  - apply wf_graphb_true. vm_compute. reflexivity.
  - apply Nat.ltb_lt; vm_compute; reflexivity.
Defined.

(** ** The decomposition of an arbitrary flow map *)

Definition all_pos (res : dict num) : Prop :=
  Forall (fun kv => exists x, snd kv = Fin x /\ 0 < x) res.

(** The amount recorded for [k], 0 when there is none. *)
Definition fin_at (res : dict num) (k : string) : Z :=
  match get k res with Some (Fin x) => x | _ => 0 end.

Lemma all_pos_fin res : all_pos res -> all_fin res.
Proof.
  unfold all_pos, all_fin. apply Forall_impl. intros kv (x & Hx & _). eauto.
Qed.

Lemma fin_total_pos res : all_pos res -> res <> [] -> 0 < fin_total res.
Proof.
  intros Hall Hne.
  assert (H0 : forall r, all_pos r -> 0 <= fin_total r).
  { induction 1 as [| [k v] r (x & Hx & Hpos) Hr IH]; simpl; [lia|].
    simpl in Hx. subst v. lia. }
  destruct Hall as [| [k v] r (x & Hx & Hpos) Hr]; [congruence|].
  simpl in *. subst v. specialize (H0 r Hr). lia.
Qed.

Lemma result_add_pos shop m res :
  0 < m -> all_pos res ->
  let res' := set shop (num_add (get_or (Fin 0) shop res) (Fin m)) res in
  all_pos res' /\ fin_total res' = fin_total res + m /\
  (forall k, fin_at res' k =
             fin_at res k + if String.eqb k shop then m else 0) /\
  (forall k, In k (keys res') -> k = shop \/ In k (keys res)).
Proof.
  intros Hm Hall. cbv zeta.
  split; [|split; [|split]].
  - unfold get_or. clear - Hm Hall.
    induction Hall as [| [k v] r (x & Hx & Hpos) Hr IH]; simpl.
    + repeat constructor. simpl. exists m. split; [f_equal; lia | lia].
    + simpl in Hx. subst v. destruct (String.eqb shop k); simpl.
      * constructor; [|assumption]. simpl. exists (x + m). split; [auto | lia].
      * constructor; [simpl; eauto | exact IH].
  - apply (result_add_fin shop m res (all_pos_fin res Hall)).
  - intros k. unfold fin_at. rewrite get_set.
    destruct (String.eqb_spec k shop) as [-> | Hk].
    + unfold get_or. destruct (get shop res) as [v|] eqn:E.
      * apply get_Some_In in E. unfold all_pos in Hall.
        rewrite Forall_forall in Hall. destruct (Hall _ E) as (x & Hx & _).
        simpl in Hx. subst v. reflexivity.
      * simpl. lia.
    + destruct (get k res) as [[x|]|]; lia.
  - intros k Hk. apply in_keys_set in Hk. exact Hk.
Qed.

Lemma wf_graph_flow_wf flow : wf_graph flow -> flow_wf (nodes flow) flow.
Proof.
  intros [H1 H2]. split; [assumption|]. split; [assumption|]. split.
  - intros u Hu. apply in_nodes. now left.
  - intros u v Hv. apply in_nodes. right. now exists u.
Qed.

Section GeneralDecompose.
Variables (shops : list string) (terminal : string) (N : list string).
Hypothesis HN : NoDup N.
Hypothesis Hterm : inb terminal shops = false.
Variable limit : nat.
Hypothesis Hlimit : (length N < limit)%nat.

Definition gen_inv (sub : Graph) : Prop :=
  flow_wf N sub /\ forall u v, 0 <= cap sub u v.

Lemma gen_step sub :
  gen_inv sub ->
  exists r visited',
    dfs limit shops sub terminal [] = Ok (r, visited') /\
    (r = (None, Fin 0) \/
     exists path m sub',
       r = (Some path, Fin m) /\ 0 < m /\
       inb (last path "") shops = true /\
       subtract_path path m sub = Ok sub' /\
       gen_inv sub' /\
       sumZ (cap sub' terminal) N = sumZ (cap sub terminal) N - m /\
       (forall k, inb k shops = true ->
                  sumZ (fun u => cap sub' u k) N =
                  sumZ (fun u => cap sub u k) N -
                  (if String.eqb k (last path "") then m else 0)) /\
       (pos_count sub' < pos_count sub)%nat).
Proof.
  intros [Hwf Hnn]. pose proof Hwf as (W1 & W2 & W3 & W4).
  destruct (dfs_from_start shops sub N limit terminal W2 W4 Hlimit)
    as (r & v' & Hrun & Hout).
  exists r, v'. split; [assumption|].
  destruct Hout as [-> | (path & -> & (Hhd & Hlast & Hedges & Hnd & _) & Hsrc)];
    [now left | right].
  destruct path as [| a path']; [discriminate|].
  injection Hhd as ->.
  destruct path' as [| b tl]; [simpl in Hlast; congruence|].
  set (path := terminal :: b :: tl) in *.
  destruct (path_bn_spec sub path)
    as [[Hp _] | (m & Hbn & Hmin & (u0 & v0 & Hin0 & Hcap0))];
    [discriminate|].
  assert (Hpos : 0 < m).
  { rewrite <- Hcap0. apply (Hedges _ _ Hin0). }
  destruct (subtract_path_ok m path sub) as (sub' & Hsub & Hsh & Hcap).
  { intros u v Hin. apply edge_slot. now apply Hedges. }
  exists path, m, sub'. rewrite Hbn.
  split; [reflexivity|]. split; [assumption|]. split; [assumption|].
  split; [assumption|].
  pose proof (pairs_nodup path Hnd) as Hpnd.
  assert (HinN : incl path N).
  { intros x Hx. destruct Hx as [<- | Hx].
    - apply (edge_in_N N sub terminal b Hwf). apply Hedges. now left.
    - assert (exists u, In (u, x) (pairs path)) as [u Hu].
      { clear - Hx. unfold path. revert Hx. generalize terminal as a.
        induction (b :: tl) as [| c l IH]; intros a Hx; [contradiction|].
        rewrite pairs_cons. destruct Hx as [<- | Hx].
        - exists a. now left.
        - destruct (IH c Hx) as [u Hu]. exists u. now right. }
      apply (edge_in_N N sub u x Hwf (Hedges _ _ Hu)). }
  assert (Hle : forall a c, cap sub' a c <= cap sub a c).
  { intros a c. rewrite Hcap. pose proof (cnt_nonneg (a, c) (pairs path)).
    nia. }
  assert (Hpb : forall x,
            sumZ (fun w => cnt (x, w) (pairs path) - cnt (w, x) (pairs path)) N
            = (if String.eqb x terminal then 1 else 0) -
              (if String.eqb x (last path "") then 1 else 0)).
  { intros x. assert (H := path_balance N path x "" HN).
    change (hd "" path) with terminal in H. apply H; [discriminate | assumption]. }
  split; [|split; [|split]].
  - split.
    + unfold flow_wf. rewrite (shape_keys _ _ Hsh).
      split; [assumption|]. split; [|split].
      * intros u. rewrite (shape_slots_of _ _ u Hsh). apply W2.
      * assumption.
      * intros u v. rewrite (shape_slots_of _ _ u Hsh). apply W4.
    + intros u v. rewrite Hcap. specialize (Hnn u v).
      destruct (in_dec edge_dec (u, v) (pairs path)) as [Hin | Hnin].
      * rewrite (cnt_in _ _ Hpnd Hin). specialize (Hmin _ _ Hin). lia.
      * rewrite (cnt_notin _ _ Hnin). lia.
  - specialize (Hpb terminal). rewrite String.eqb_refl in Hpb.
    destruct (String.eqb_spec terminal (last path "")) as [E | _];
      [rewrite <- E in Hlast; congruence|].
    rewrite (sumZ_ext _ (fun w => cnt (terminal, w) (pairs path))) in Hpb.
    + rewrite (sumZ_ext _ (fun w => cap sub terminal w -
                                    m * cnt (terminal, w) (pairs path)))
        by (intros; apply Hcap).
      rewrite sumZ_sub, sumZ_scale, Hpb. lia.
    + intros w _. rewrite (cnt_notin (w, terminal)); [lia|].
      intros Hin. apply pairs_target in Hin. inversion Hnd; subst.
      contradiction.
  - intros k Hk. specialize (Hpb k).
    destruct (String.eqb_spec k terminal) as [E | _];
      [rewrite E in Hk; congruence|].
    rewrite (sumZ_ext _ (fun w => - cnt (w, k) (pairs path))) in Hpb.
    + rewrite (sumZ_ext _ (fun u => cap sub u k - m * cnt (u, k) (pairs path)))
        by (intros; apply Hcap).
      rewrite sumZ_sub, sumZ_scale. rewrite sumZ_opp in Hpb.
      destruct (String.eqb k (last path "")); lia.
    + intros w _. rewrite (cnt_notin (k, w)); [lia|].
      intros Hin. apply Hsrc in Hin. congruence.
  - unfold pos_count. rewrite (edges_shape _ _ Hsh).
    apply filter_length_lt.
    + intros [a c] _. simpl. rewrite !Z.ltb_lt. specialize (Hle a c). lia.
    + exists (u0, v0). split; [|split]; simpl.
      * apply in_edges, edge_slot. now apply Hedges.
      * apply Z.ltb_lt. apply (Hedges _ _ Hin0).
      * apply Z.ltb_ge. rewrite Hcap, (cnt_in _ _ Hpnd Hin0). lia.
Qed.

Lemma gen_loop fuel : forall sub res,
  gen_inv sub -> all_pos res ->
  (forall k, In k (keys res) -> In k shops) ->
  (pos_count sub < fuel)%nat ->
  exists res',
    decompose_loop fuel limit terminal shops sub res = Ok res' /\
    all_pos res' /\
    (forall k, In k (keys res') -> In k shops) /\
    fin_total res <= fin_total res' /\
    fin_total res' <= fin_total res + sumZ (cap sub terminal) N /\
    (forall k, inb k shops = true ->
               fin_at res' k <= fin_at res k + sumZ (fun u => cap sub u k) N).
Proof.
  induction fuel as [| fuel IH]; intros sub res Inv Hpos Hkeys Hfuel; [lia|].
  assert (Hnn : forall f, (forall x, 0 <= f x) -> 0 <= sumZ f N).
  { intros f Hf. rewrite <- (sumZ_zero N). apply sumZ_le. intros; apply Hf. }
  cbn [decompose_loop].
  destruct (gen_step sub Inv) as (r & v' & Hrun & Hcase).
  rewrite Hrun. cbn [bind].
  destruct Hcase as [-> | (path & m & sub' & -> & Hm & Hlast & Hsub & Inv'
                         & Hout & Hin & Hcount)].
  - cbn [fst]. exists res. split; [reflexivity|]. split; [assumption|].
    split; [assumption|]. split; [lia|]. split.
    + pose proof (Hnn (cap sub terminal) (proj2 Inv terminal)). lia.
    + intros k _.
      pose proof (Hnn (fun u => cap sub u k) (fun u => proj2 Inv u k)). lia.
  - cbn [fst snd num_eqb].
    destruct (Z.eqb_spec m 0) as [? | _]; [lia|].
    rewrite Hsub. cbn [bind].
    destruct (result_add_pos (last path "") m res Hm Hpos)
      as (Hpos' & Htot & Hat & Hk').
    destruct (IH sub' _ Inv' Hpos') as (res' & Hres & Hall & Hks & Hlo & Hhi & Hshop).
    + intros k Hk. destruct (Hk' k Hk) as [-> | ?]; [|auto].
      now apply inb_true.
    + lia.
    + exists res'. split; [assumption|]. split; [assumption|].
      split; [assumption|]. split; [lia|]. split; [lia|].
      intros k Hk. specialize (Hshop k Hk). rewrite Hat, (Hin k Hk) in Hshop.
      lia.
Qed.
End GeneralDecompose.

Lemma decompose_general N limit flow terminal terminals warehouses shops :
  NoDup N -> flow_wf N flow -> (length N < limit)%nat ->
  ~ In terminal shops ->
  let valid := valid_nodes terminals warehouses shops in
  let sub := sub_flow_of valid flow in
  exists res,
    fst (decompose_terminal_flows
           (decompose_fuel flow terminals warehouses shops) limit
           terminal flow terminals warehouses shops) = Ok res /\
    all_pos res /\
    (forall k, In k (keys res) -> In k shops) /\
    fin_total res <= sumZ (cap sub terminal) N /\
    (forall k, In k shops ->
               fin_at res k <= sumZ (fun u => cap sub u k) N).
Proof.
  intros HN Hwf Hlimit Hterm valid sub.
  apply inb_false in Hterm.
  destruct (gen_loop shops terminal N HN Hterm limit Hlimit
              (decompose_fuel flow terminals warehouses shops) sub empty)
    as (res & Hres & Hall & Hks & _ & Hhi & Hshop).
  - split; [apply (sub_flow_of_spec N valid flow Hwf)|].
    intros u v. apply (sub_cap_le N valid flow Hwf).
  - constructor.
  - intros k [].
  - unfold decompose_fuel, pos_count. fold valid. fold sub.
    pose proof (filter_length_le
                  (fun e => 0 <? cap sub (fst e) (snd e)) (edges sub)). lia.
  - exists res. split.
    + unfold decompose_terminal_flows.
      fold (valid_nodes terminals warehouses shops). fold valid.
      rewrite build_sub_flow_eq. exact Hres.
    + split; [assumption|]. split; [assumption|]. split; [exact Hhi|].
      intros k Hk. apply inb_true in Hk. exact (Hshop k Hk).
Qed.

(** X8: for every flow map without repeated keys and every entry node
    that is not a shop, when the interpreter allows [dfs] a recursion
    depth greater than the number of nodes of the flow map,
    [decompose_terminal_flows] returns a mapping whose values sum to
    at least 0 and to at most the total positive flow leaving the
    entry node in the flow map: one call never attributes more than
    leaves the entry node. *)
Theorem decomposition_never_over_attributes
    limit flow terminal terminals warehouses shops :
  wf_graph flow -> ~ In terminal shops ->
  (length (nodes flow) < limit)%nat ->
  exists res z,
    fst (decompose_terminal_flows
           (decompose_fuel flow terminals warehouses shops) limit
           terminal flow terminals warehouses shops) = Ok res /\
    sum_values res = Fin z /\ 0 <= z <= outflow flow terminal.
Proof.
  intros Hg Hterm Hlimit.
  pose proof (nodes_nodup flow Hg) as HN.
  pose proof (wf_graph_flow_wf flow Hg) as Hwf.
  destruct (decompose_general (nodes flow) limit flow terminal
              terminals warehouses shops HN Hwf Hlimit Hterm)
    as (res & Hres & Hall & _ & Hhi & _).
  exists res, (fin_total res). split; [assumption|].
  split; [apply sum_values_fin, all_pos_fin, Hall|]. split.
  - destruct res as [| kv res']; [simpl; lia|].
    assert (Hne : kv :: res' <> []) by discriminate.
    pose proof (fin_total_pos (kv :: res') Hall Hne). lia.
  - etransitivity; [exact Hhi|].
    rewrite (outflow_sum (nodes flow)) by assumption.
    apply sumZ_le. intros w _.
    apply (sub_cap_le (nodes flow) _ flow Hwf).
Qed.

Lemma decomposition_never_over_attributes_witness :
  exists res z,
    fst (decompose_terminal_flows
           (decompose_fuel leak_flow ["A"] ["W"] ["H"]) 1000
           "A" leak_flow ["A"] ["W"] ["H"]) = Ok res /\
    sum_values res = Fin z /\ 0 <= z <= outflow leak_flow "A".
Proof.
  apply (decomposition_never_over_attributes
           1000 leak_flow "A" ["A"] ["W"] ["H"]).
  - apply wf_graphb_true; vm_compute; reflexivity.
  - apply inb_false; vm_compute; reflexivity.
  - apply Nat.ltb_lt; vm_compute; reflexivity.
Defined.

(** X9: under the same conditions every key of the returned mapping
    is a shop, and every value is a positive integer that is at most
    the total positive flow entering that shop in the flow map. *)
Theorem decomposition_attributes_to_shops
    limit flow terminal terminals warehouses shops :
  wf_graph flow -> ~ In terminal shops ->
  (length (nodes flow) < limit)%nat ->
  exists res,
    fst (decompose_terminal_flows
           (decompose_fuel flow terminals warehouses shops) limit
           terminal flow terminals warehouses shops) = Ok res /\
    forall k x, get k res = Some x ->
      In k shops /\ exists z, x = Fin z /\ 0 < z <= inflow flow k.
Proof.
  intros Hg Hterm Hlimit.
  pose proof (nodes_nodup flow Hg) as HN.
  pose proof (wf_graph_flow_wf flow Hg) as Hwf.
  destruct (decompose_general (nodes flow) limit flow terminal
              terminals warehouses shops HN Hwf Hlimit Hterm)
    as (res & Hres & Hall & Hks & _ & Hshop).
  exists res. split; [assumption|]. intros k x Hk.
  assert (Hin : In k shops) by (eapply Hks, get_Some_keys; eauto).
  split; [assumption|].
  pose proof (get_Some_In _ _ _ Hk) as Hkx.
  unfold all_pos in Hall. rewrite Forall_forall in Hall.
  destruct (Hall _ Hkx) as (z & Hz & Hpos). simpl in Hz. subst x.
  exists z. split; [reflexivity|]. split; [assumption|].
  specialize (Hshop k Hin). unfold fin_at in Hshop. rewrite Hk in Hshop.
  etransitivity; [exact Hshop|].
  rewrite (inflow_sum (nodes flow)) by assumption.
  apply sumZ_le. intros u _. apply (sub_cap_le (nodes flow) _ flow Hwf).
Qed.

Lemma decomposition_attributes_to_shops_witness :
  exists res,
    fst (decompose_terminal_flows
           (decompose_fuel logistics_flow terminals warehouses shops) 1000
           "Terminal 2" logistics_flow terminals warehouses shops) = Ok res /\
    forall k x, get k res = Some x ->
      In k shops /\ exists z, x = Fin z /\ 0 < z <= inflow logistics_flow k.
Proof.
  apply (decomposition_attributes_to_shops
           1000 logistics_flow "Terminal 2" terminals warehouses shops).
  - apply wf_graphb_true; vm_compute; reflexivity.
  - apply inb_false; vm_compute; reflexivity.
  - apply Nat.ltb_lt; vm_compute; reflexivity.
Defined.

(** X10: for a flow map without repeated keys and an entry node that
    is not a shop, an entry node that is not an interior node, or that
    has no positive flow leaving it (for instance one that is not a
    key of the flow map), gets the empty mapping as soon as the
    interpreter allows the one call of [dfs] that is made. *)
Theorem decomposition_without_outflow_is_empty
    limit flow terminal terminals warehouses shops :
  wf_graph flow -> ~ In terminal shops ->
  ~ In terminal (valid_nodes terminals warehouses shops) \/
  outflow flow terminal = 0 ->
  fst (decompose_terminal_flows
         (decompose_fuel flow terminals warehouses shops) (S limit)
         terminal flow terminals warehouses shops) = Ok empty.
Proof.
  intros Hg Hterm Hcase.
  pose proof (nodes_nodup flow Hg) as HN.
  pose proof (wf_graph_flow_wf flow Hg) as Hwf.
  apply inb_false in Hterm as Hnb.
  unfold decompose_terminal_flows.
  fold (valid_nodes terminals warehouses shops).
  rewrite build_sub_flow_eq. cbn [fst].
  unfold decompose_fuel. cbn [decompose_loop].
  destruct (sub_flow_of_spec (nodes flow)
              (valid_nodes terminals warehouses shops) flow Hwf)
    as [Hsw Hsc].
  destruct (dfs_none shops _ (proj1 (proj2 Hsw)) limit terminal [] Hnb)
    as [v' Hrun]; [|rewrite Hrun; reflexivity].
  intros w He.
  pose proof (edge_in_N (nodes flow) _ terminal w Hsw He) as [_ Hw].
  unfold edge in He. destruct Hcase as [Hnv | Hout].
  - rewrite Hsc in He. apply inb_false in Hnv. rewrite Hnv in He.
    simpl in He. lia.
  - pose proof (sub_cap_le (nodes flow)
                  (valid_nodes terminals warehouses shops) flow Hwf
                  terminal w) as [_ Hle].
    rewrite (outflow_sum (nodes flow) flow terminal Hwf HN) in Hout.
    pose proof (sumZ_term_le (fun x => pos (cap flow terminal x))
                  (nodes flow) w) as Hterm_le.
    cbv beta in Hterm_le.
    assert (pos (cap flow terminal w) <= 0); [|lia].
    rewrite <- Hout. apply Hterm_le; [|assumption].
    intros x _. unfold pos. lia.
Qed.

Lemma decomposition_without_outflow_is_empty_witness :
  fst (decompose_terminal_flows
         (decompose_fuel leak_flow ["A"] ["W"] ["H"]) 1
         "Z" leak_flow ["A"] ["W"] ["H"]) = Ok empty.
Proof.
  apply (decomposition_without_outflow_is_empty
           0 leak_flow "Z" ["A"] ["W"] ["H"]).
  - apply wf_graphb_true; vm_compute; reflexivity.
  - apply inb_false; vm_compute; reflexivity.
  - left. apply inb_false; vm_compute; reflexivity.
Defined.

(** X11: when the entry node is itself a shop and the interpreter
    allows the call of [dfs], the search returns the one-node path
    with bottleneck [float('inf')] in every round, no edge is updated,
    and the loop of [decompose_terminal_flows] never ends, whatever
    the flow map. *)
Theorem decomposition_of_a_shop_never_returns
    fuel limit flow terminal terminals warehouses shops :
  In terminal shops ->
  fst (decompose_terminal_flows fuel (S limit) terminal flow
                                terminals warehouses shops)
  = OutOfFuel.
Proof.
  intros Hin. apply inb_true in Hin.
  unfold decompose_terminal_flows. rewrite build_sub_flow_eq. cbn [fst].
  generalize (sub_flow_of (terminals ++ warehouses ++ shops) flow) as sub.
  generalize (@empty num) as res.
  induction fuel as [| fuel IH]; intros res sub; [reflexivity|].
  cbn [decompose_loop dfs]. rewrite Hin.
  cbn [bind fst snd num_eqb]. apply IH.
Qed.

Lemma decomposition_of_a_shop_never_returns_witness :
  fst (decompose_terminal_flows 7 1 "H" leak_flow ["A"] ["W"] ["H"])
  = OutOfFuel.
Proof.
  apply (decomposition_of_a_shop_never_returns
           7 0 leak_flow "H" ["A"] ["W"] ["H"]).
  now left.
Defined.

(** ** Paths deeper than the recursion limit *)

(** [path] is the way the search goes down in [sub_flow]: at every node
    of the path but the last, the first entry of [sub_flow[node]] leads
    to the next node and carries a positive value. *)
Fixpoint descends (sub_flow : Graph) (path : list string) : bool :=
  match path with
  | u :: ((v :: _) as rest) =>
      match get_or empty u sub_flow with
      | (w, c) :: _ => String.eqb w v && (0 <? c)
      | [] => false
      end && descends sub_flow rest
  | _ => true
  end.

Lemma dfs_overflow shops sub limit : forall path visited,
  (limit < length path)%nat ->
  NoDup path ->
  (forall x, In x path -> inb x shops = false /\ ~ In x visited) ->
  descends sub path = true ->
  dfs limit shops sub (hd "" path) visited = RecursionError.
Proof.
  induction limit as [| limit IH]; intros path visited Hlen Hnd Hfresh Hdesc;
    [reflexivity|].
  destruct path as [| x [| y tl]]; [simpl in Hlen; lia | simpl in Hlen; lia |].
  cbn [hd dfs].
  destruct (Hfresh x) as [Hx Hxv]; [now left|]. rewrite Hx.
  assert (Hadd : set_add x visited = x :: visited).
  { unfold set_add. apply inb_false in Hxv. now rewrite Hxv. }
  rewrite Hadd. cbn [descends] in Hdesc.
  apply andb_prop in Hdesc. destruct Hdesc as [Hfirst Hrest].
  unfold mem. unfold get_or in Hfirst |- *.
  destruct (get x sub) as [[| [w c] items]|]; try discriminate.
  apply andb_prop in Hfirst. destruct Hfirst as [Hw Hc].
  apply String.eqb_eq in Hw. subst w. apply Z.ltb_lt in Hc.
  cbn [dfs_scan].
  assert (Hgt : (c >? 0) = true) by (apply Z.gtb_lt; lia).
  inversion Hnd as [| ? ? Hxtl Hnd']; subst.
  assert (Hy : inb y (x :: visited) = false).
  { apply inb_false. intros [-> | Hin].
    - apply Hxtl. now left.
    - apply (proj2 (Hfresh y (or_intror (or_introl eq_refl)))). exact Hin. }
  rewrite Hgt, Hy. cbn [andb negb].
  pose proof (IH (y :: tl) (x :: visited)) as Hrec. cbn [hd] in Hrec.
  rewrite Hrec; [reflexivity | | | |].
  - simpl in Hlen |- *. lia.
  - assumption.
  - intros z Hz. split; [apply Hfresh; now right|].
    intros [-> | Hin].
    + contradiction.
    + apply (proj2 (Hfresh z (or_intror Hz))). exact Hin.
  - assumption.
Qed.

(** X19: when the search from the entry node goes down a path of
    nodes that are not shops and the path has more nodes than the
    recursion depth the interpreter allows [dfs], the first round of
    [decompose_terminal_flows] raises RecursionError: no mapping is
    returned, however many rounds the loop is given. *)
Theorem deep_path_raises_recursion_error
    fuel limit terminal flow terminals warehouses shops path :
  hd_error path = Some terminal ->
  (limit < length path)%nat ->
  nodupb path = true ->
  forallb (fun x => negb (inb x shops)) path = true ->
  descends (fst (build_sub_flow (terminals ++ warehouses ++ shops) flow)) path
    = true ->
  fst (decompose_terminal_flows (S fuel) limit terminal flow
                                terminals warehouses shops)
  = RecursionError.
Proof.
  intros Hhd Hlen Hnd Hshops Hdesc.
  unfold decompose_terminal_flows.
  destruct (build_sub_flow (terminals ++ warehouses ++ shops) flow)
    as [sub flow'].
  cbn [fst] in Hdesc |- *. cbn [decompose_loop].
  destruct path as [| x tl]; [discriminate|]. injection Hhd as ->.
  pose proof (dfs_overflow shops sub limit (terminal :: tl) []) as Hraise.
  cbn [hd] in Hraise.
  rewrite Hraise;
    [reflexivity | assumption | now apply nodupb_true | | assumption].
  intros z Hz. split; [|intros []].
  rewrite forallb_forall in Hshops. specialize (Hshops z Hz).
  now destruct (inb z shops).
Qed.

Lemma deep_path_raises_recursion_error_witness :
  fst (decompose_terminal_flows
         1 2 "A"
         [("A", [("B", 1)]); ("B", [("C", 1)]); ("C", [("H", 1)])]
         ["A"] ["B"; "C"] ["H"])
  = RecursionError.
Proof.
  apply (deep_path_raises_recursion_error
           0 2 "A" [("A", [("B", 1)]); ("B", [("C", 1)]); ("C", [("H", 1)])]
           ["A"] ["B"; "C"] ["H"] ["A"; "B"; "C"]).
  - reflexivity.
  - simpl; lia.
  - vm_compute; reflexivity.
  - vm_compute; reflexivity.
  - vm_compute; reflexivity.
Defined.

(** X12: [sub_flow] holds exactly the positive entries of the flow map
    between interior nodes: [sub_flow[u][v]] is [flow[u][v]] when both
    nodes are interior and the flow is positive, and is absent (0)
    otherwise. *)
Theorem sub_flow_keeps_positive_interior_flow valid flow u v :
  wf_graph flow ->
  cap (fst (build_sub_flow valid flow)) u v =
  if inb u valid && inb v valid && (0 <? cap flow u v)
  then cap flow u v else 0.
Proof.
  intros Hg. rewrite build_sub_flow_eq. cbn [fst].
  apply (sub_flow_of_spec (nodes flow) valid flow (wf_graph_flow_wf flow Hg)).
Qed.

Lemma sub_flow_keeps_positive_interior_flow_witness :
  cap (fst (build_sub_flow ["A"; "W"; "H"] leak_flow)) "A" "X" =
  if inb "A" ["A"; "W"; "H"] && inb "X" ["A"; "W"; "H"]
     && (0 <? cap leak_flow "A" "X")
  then cap leak_flow "A" "X" else 0.
Proof.
  apply (sub_flow_keeps_positive_interior_flow ["A"; "W"; "H"] leak_flow "A" "X").
  apply wf_graphb_true; vm_compute; reflexivity.
Defined.

(** ** From the maximum flow to the decomposition *)

Lemma sub_out_le N valid flow v :
  flow_wf N flow ->
  sumZ (cap (sub_flow_of valid flow) v) N <= sumZ (fun w => pos (cap flow v w)) N.
Proof.
  intros Hwf. apply sumZ_le. intros w _. apply (sub_cap_le N valid flow Hwf).
Qed.

Lemma sub_in_le N valid flow v :
  flow_wf N flow ->
  sumZ (fun u => cap (sub_flow_of valid flow) u v) N
  <= sumZ (fun u => pos (cap flow u v)) N.
Proof.
  intros Hwf. apply sumZ_le. intros w _. apply (sub_cap_le N valid flow Hwf).
Qed.

Lemma flow_out_le_capacity g s t r f mf v :
  wf_graph g -> ek_inv g s t r f mf -> (forall u v, 0 <= cap g u v) ->
  outflow f v <= out_capacity g v.
Proof.
  intros Hg Inv Hnn. pose proof (nodes_nodup g Hg) as HN.
  rewrite (outflow_sum (nodes g) f v (ei_fwf _ _ _ _ _ _ Inv) HN).
  rewrite (out_capacity_sum g v Hg). apply sumZ_le. intros w _.
  pose proof (flow_le_cap g s t r f mf Inv Hnn v w). specialize (Hnn v w).
  unfold pos. lia.
Qed.

Lemma flow_in_le_capacity g s t r f mf v :
  wf_graph g -> ek_inv g s t r f mf -> (forall u v, 0 <= cap g u v) ->
  inflow f v <= in_capacity g v.
Proof.
  intros Hg Inv Hnn. pose proof (nodes_nodup g Hg) as HN.
  rewrite (inflow_sum (nodes g) f v (ei_fwf _ _ _ _ _ _ Inv) HN).
  rewrite (in_capacity_sum g v Hg). apply sumZ_le. intros u _.
  pose proof (flow_le_cap g s t r f mf Inv Hnn u v). specialize (Hnn u v).
  unfold pos. lia.
Qed.

(** X13: the two steps of [main] compose on every graph without
    repeated keys, with non-negative capacities and distinct source
    and sink among its nodes, when the interpreter allows [dfs] a
    recursion depth greater than the number of nodes of the graph:
    [edmonds_karp] returns a flow map that [decompose_terminal_flows]
    accepts for any entry node that is not a shop, the amounts
    attributed to that entry node sum to at most the capacity leaving
    it in the graph, and the amount attributed to a shop is at most
    the capacity entering that shop. *)
Theorem decomposition_of_max_flow_within_capacities
    limit g s t terminal terminals warehouses shops :
  wf_graph g -> (forall u v, 0 <= cap g u v) ->
  In s (nodes g) -> In t (nodes g) -> s <> t -> ~ In terminal shops ->
  (length (nodes g) < limit)%nat ->
  exists mf flow res total,
    edmonds_karp (ek_fuel g) g s t = Ok (Fin mf, flow) /\
    fst (decompose_terminal_flows
           (decompose_fuel flow terminals warehouses shops) limit
           terminal flow terminals warehouses shops) = Ok res /\
    sum_values res = Fin total /\ 0 <= total <= out_capacity g terminal /\
    forall k x, get k res = Some x ->
      exists z, x = Fin z /\ 0 < z <= in_capacity g k.
Proof.
  intros Hg Hnn Hs Ht Hst Hterm Hlimit.
  destruct (ek_returns g s t Hg Hs Ht Hst)
    as (mf & f & Hrun & r' & p & lev & Inv & _).
  pose proof (ei_fwf _ _ _ _ _ _ Inv) as Hwf.
  pose proof (nodes_nodup g Hg) as HN.
  destruct (decompose_general (nodes g) limit f terminal
              terminals warehouses shops HN Hwf Hlimit Hterm)
    as (res & Hres & Hall & Hks & Hhi & Hshop).
  exists mf, f, res, (fin_total res).
  split; [assumption|]. split; [assumption|].
  split; [apply sum_values_fin, all_pos_fin, Hall|]. split; [split|].
  - destruct res as [| kv res']; [simpl; lia|].
    assert (Hne : kv :: res' <> []) by discriminate.
    pose proof (fin_total_pos (kv :: res') Hall Hne). lia.
  - etransitivity; [exact Hhi|].
    etransitivity; [apply (sub_out_le _ _ _ _ Hwf)|].
    rewrite <- (outflow_sum (nodes g) f terminal Hwf HN).
    apply (flow_out_le_capacity g s t r' f mf terminal Hg Inv Hnn).
  - intros k x Hk.
    assert (Hin : In k shops) by (eapply Hks, get_Some_keys; eauto).
    pose proof (get_Some_In _ _ _ Hk) as Hkx.
    unfold all_pos in Hall. rewrite Forall_forall in Hall.
    destruct (Hall _ Hkx) as (z & Hz & Hpos). simpl in Hz. subst x.
    exists z. split; [reflexivity|]. split; [assumption|].
    specialize (Hshop k Hin). unfold fin_at in Hshop. rewrite Hk in Hshop.
    etransitivity; [exact Hshop|].
    etransitivity; [apply (sub_in_le _ _ _ _ Hwf)|].
    rewrite <- (inflow_sum (nodes g) f k Hwf HN).
    apply (flow_in_le_capacity g s t r' f mf k Hg Inv Hnn).
Qed.

Lemma decomposition_of_max_flow_within_capacities_witness :
  exists mf flow res total,
    edmonds_karp (ek_fuel build_logistics_graph) build_logistics_graph "S" "T"
      = Ok (Fin mf, flow) /\
    fst (decompose_terminal_flows
           (decompose_fuel flow terminals warehouses shops) 1000
           "Terminal 1" flow terminals warehouses shops) = Ok res /\
    sum_values res = Fin total /\
    0 <= total <= out_capacity build_logistics_graph "Terminal 1" /\
    forall k x, get k res = Some x ->
      exists z, x = Fin z /\ 0 < z <= in_capacity build_logistics_graph k.
Proof.
  apply (decomposition_of_max_flow_within_capacities
           1000 build_logistics_graph "S" "T" "Terminal 1").
  - apply wf_graphb_true; vm_compute; reflexivity.
  - apply nonnegb_true; vm_compute; reflexivity.
  - apply inb_In; vm_compute; reflexivity.
  - apply inb_In; vm_compute; reflexivity.
  - discriminate.
  - apply inb_false; vm_compute; reflexivity.
  - apply Nat.ltb_lt; vm_compute; reflexivity.
Defined.

(** ** The analysis of [main] *)

(** [a < b] on Python numbers. *)
Definition num_ltb (a b : num) : bool :=
  match a, b with
  | Fin x, Fin y => x <? y
  | Fin _, Inf => true
  | Inf, _ => false
  end.

(** [{term: sum(terminal_to_shop_flow[term].values()) for term in
    terminals}]. *)
Fixpoint terminal_totals (terms : list string) (tf : dict (dict num))
    (totals : dict num) : result (dict num) :=
  match terms with
  | [] => Ok totals
  | term :: rest =>
      shop_flow <- lookup term tf ;;
      terminal_totals rest tf (set term (sum_values shop_flow) totals)
  end.

(** The inner loop [for shop, amount in shop_flow.items():
    shop_totals[shop] += amount] on a [defaultdict(int)]. *)
Definition add_amounts (shop_flow shop_totals : dict num) : dict num :=
  fold_left (fun totals kv =>
               set (fst kv)
                   (num_add (get_or (Fin 0) (fst kv) totals) (snd kv)) totals)
            shop_flow shop_totals.

Definition shop_totals (tf : dict (dict num)) : dict num :=
  fold_left (fun totals shop_flow => add_amounts shop_flow totals)
            (values tf) empty.

(** [best_terminal]: a terminal's name, or the message that both
    terminals carry the same flow. *)
Inductive answer : Type :=
| Best (terminal : string)
| Both_equal.

Definition best_terminal (totals : dict num) : result answer :=
  t1 <- lookup "Terminal 1" totals ;;
  t2 <- lookup "Terminal 2" totals ;;
  if num_ltb t2 t1 then Ok (Best "Terminal 1")
  else if num_ltb t1 t2 then Ok (Best "Terminal 2")
  else Ok Both_equal.

(** Python's [min(items, key=key)]: the first item is the candidate,
    a later item replaces it only when its key is strictly smaller;
    [None] stands for the ValueError raised on no items. *)
Fixpoint min_scan (key : string -> num) (best : string) (rest : list string)
  : string :=
  match rest with
  | [] => best
  | item :: rest' =>
      min_scan key (if num_ltb (key item) (key best) then item else best) rest'
  end.

Definition py_min (key : string -> num) (items : list string) : option string :=
  match items with
  | [] => None
  | first :: rest => Some (min_scan key first rest)
  end.

(** [min(shop_totals, key=shop_totals.get)]: every key comes from the
    mapping itself, so [get] never falls back to its default. *)
Definition min_shop (totals : dict num) : option string :=
  py_min (fun shop => get_or (Fin 0) shop totals) (keys totals).

(** The calls of the loop over the terminals, in order; the first one
    that does not return ends [main]. *)
Fixpoint collect {A : Type} (calls : dict (result A)) : result (dict A) :=
  match calls with
  | [] => Ok []
  | (k, r) :: rest =>
      x <- r ;; rest' <- collect rest ;; Ok ((k, x) :: rest')
  end.

(** [main] without its printing: the maximum flow, the mapping per
    terminal, the totals per terminal and per shop, [best_terminal]
    and [min_shop].  [fuel] bounds the rounds of every [while True]
    loop and [limit] is the recursion depth available to [dfs]. *)
Definition main (fuel limit : nat)
  : result (num * dict (dict num) * dict num * dict num * answer
            * option string) :=
  let graph := build_logistics_graph in
  '(max_flow, flow) <- edmonds_karp fuel graph "S" "T" ;;
  let '(calls, flow) :=
    decompose_all fuel limit terminals flow terminals warehouses shops
                  empty in
  tf <- collect calls ;;
  totals <- terminal_totals terminals tf empty ;;
  let st := shop_totals tf in
  best <- best_terminal totals ;;
  Ok (max_flow, tf, totals, st, best, min_shop st).

Lemma result_add_at shop x res k :
  all_fin res ->
  fin_at (set shop (num_add (get_or (Fin 0) shop res) (Fin x)) res) k =
  fin_at res k + if String.eqb k shop then x else 0.
Proof.
  intros Hall. unfold fin_at. rewrite get_set.
  destruct (String.eqb_spec k shop) as [-> | Hk].
  - unfold get_or. destruct (get shop res) as [v|] eqn:E.
    + apply get_Some_In in E. unfold all_fin in Hall.
      rewrite Forall_forall in Hall. destruct (Hall _ E) as (z & Hz).
      simpl in Hz. subst v. reflexivity.
    + simpl. lia.
  - destruct (get k res) as [[z|]|]; lia.
Qed.

Lemma fin_at_notin res k : ~ In k (keys res) -> fin_at res k = 0.
Proof. intros H. apply get_None in H. unfold fin_at. now rewrite H. Qed.

Lemma add_amounts_spec d : forall st,
  all_fin d -> all_fin st ->
  all_fin (add_amounts d st) /\
  fin_total (add_amounts d st) = fin_total st + fin_total d /\
  (wf d -> forall k, fin_at (add_amounts d st) k = fin_at st k + fin_at d k) /\
  (forall k, In k (keys (add_amounts d st)) <-> In k (keys st) \/ In k (keys d)).
Proof.
  unfold add_amounts.
  induction d as [| [k0 v] d IH]; intros st Hd Hst.
  - simpl. split; [assumption|]. split; [lia|]. split.
    + intros _ k. unfold fin_at at 3. simpl. lia.
    + intros k. tauto.
  - inversion Hd as [| ? ? [x Hx] Hd']; subst. simpl in Hx. subst v.
    cbn [fold_left fst snd].
    destruct (result_add_fin k0 x st Hst) as [Hfin Htot].
    destruct (IH _ Hd' Hfin) as (H1 & H2 & H3 & H4).
    split; [assumption|]. split; [|split].
    + rewrite H2, Htot. simpl. lia.
    + intros Hwf k. inversion Hwf as [| ? ? Hnotin Hwf']; subst.
      rewrite (H3 Hwf' k), (result_add_at k0 x st k Hst).
      unfold fin_at at 4. simpl.
      destruct (String.eqb_spec k k0) as [-> | Hk].
      * rewrite (fin_at_notin d k0 Hnotin). lia.
      * fold (fin_at d k). lia.
    + intros k. rewrite H4, in_keys_set. simpl. intuition congruence.
Qed.

Definition per_shop (tf : dict (dict num)) (k : string) : Z :=
  fold_right (fun d acc => fin_at d k + acc) 0 (values tf).

Definition grand_total (tf : dict (dict num)) : Z :=
  fold_right (fun d acc => fin_total d + acc) 0 (values tf).

Lemma shop_totals_spec tf :
  Forall (fun d => wf d /\ all_fin d) (values tf) ->
  all_fin (shop_totals tf) /\
  fin_total (shop_totals tf) = grand_total tf /\
  (forall k, fin_at (shop_totals tf) k = per_shop tf k) /\
  (forall k, In k (keys (shop_totals tf)) <->
             exists d, In d (values tf) /\ In k (keys d)).
Proof.
  unfold shop_totals, grand_total, per_shop.
  assert (H : forall l st,
             Forall (fun d => wf d /\ all_fin d) l -> all_fin st ->
             let st' := fold_left (fun totals d => add_amounts d totals) l st in
             all_fin st' /\
             fin_total st' =
               fin_total st + fold_right (fun d acc => fin_total d + acc) 0 l /\
             (forall k, fin_at st' k =
               fin_at st k + fold_right (fun d acc => fin_at d k + acc) 0 l) /\
             (forall k, In k (keys st') <->
               In k (keys st) \/ exists d, In d l /\ In k (keys d))).
  { induction l as [| d l IH]; intros st Hl Hst; cbn zeta.
    - simpl. split; [assumption|]. split; [lia|]. split; [intros; lia|].
      intros k. split; [tauto | intros [? | (d & [] & _)]; assumption].
    - inversion Hl as [| ? ? [Hwf Hd] Hl']; subst. cbn [fold_left fold_right].
      destruct (add_amounts_spec d st Hd Hst) as (A1 & A2 & A3 & A4).
      destruct (IH _ Hl' A1) as (B1 & B2 & B3 & B4).
      split; [assumption|]. split; [lia|]. split.
      + intros k. rewrite B3, (A3 Hwf). lia.
      + intros k. rewrite B4, A4. split.
        * intros [[? | ?] | (d' & ? & ?)]; [now left | right | right].
          -- exists d. split; [now left | assumption].
          -- exists d'. split; [now right | assumption].
        * intros [? | (d' & [<- | ?] & ?)]; [tauto | tauto |].
          right. exists d'. tauto. }
  intros Htf. destruct (H (values tf) empty Htf) as (H1 & H2 & H3 & H4);
    [constructor|].
  split; [assumption|]. split; [exact H2|]. split.
  - intros k. rewrite H3. unfold fin_at at 1. simpl. reflexivity.
  - intros k. rewrite H4. simpl. split; [intros [[] | ?]; assumption | tauto].
Qed.

Lemma min_scan_spec key (val : string -> Z) :
  forall rest pre best mid,
    (forall x, In x (pre ++ best :: mid ++ rest) -> key x = Fin (val x)) ->
    (forall x, In x pre -> val best < val x) ->
    (forall x, In x mid -> val best <= val x) ->
    exists l1 l2,
      (pre ++ best :: mid ++ rest = l1 ++ min_scan key best rest :: l2)%list /\
      (forall x, In x l1 -> val (min_scan key best rest) < val x) /\
      (forall x, In x l2 -> val (min_scan key best rest) <= val x).
Proof.
  induction rest as [| item rest IH]; intros pre best mid Hkey Hpre Hmid.
  - exists pre, mid. rewrite app_nil_r. simpl. auto.
  - cbn [min_scan].
    rewrite (Hkey item), (Hkey best);
      [| apply in_or_app; right; now left
       | apply in_or_app; right; right; apply in_or_app; right; now left].
    cbn [num_ltb]. destruct (Z.ltb_spec (val item) (val best)) as [Hlt | Hge].
    + destruct (IH (pre ++ best :: mid)%list item []) as (l1 & l2 & E & H1 & H2).
      * intros x Hx. apply Hkey. simpl in Hx.
        rewrite <- app_assoc in Hx. exact Hx.
      * intros x Hx. apply in_app_or in Hx.
        destruct Hx as [Hx | [<- | Hx]];
          [specialize (Hpre x Hx) | | specialize (Hmid x Hx)]; lia.
      * intros x [].
      * exists l1, l2. split; [|auto]. rewrite <- E. simpl.
        now rewrite <- app_assoc.
    + destruct (IH pre best (mid ++ [item])%list) as (l1 & l2 & E & H1 & H2).
      * intros x Hx. apply Hkey. rewrite <- app_assoc in Hx. exact Hx.
      * assumption.
      * intros x Hx. apply in_app_or in Hx.
        destruct Hx as [Hx | [<- | []]]; [now apply Hmid | lia].
      * exists l1, l2. split; [|auto]. rewrite <- E.
        now rewrite <- app_assoc.
Qed.

(** X14: on a mapping without repeated keys and with integer values,
    [min(shop_totals, key=shop_totals.get)] raises only for the empty
    mapping (here [None]); otherwise it returns a key whose total is
    strictly below the totals of all keys inserted before it and at
    most the totals of all keys inserted after it: the first shop with
    the least total. *)
Theorem min_shop_first_least totals :
  wf totals -> all_fin totals ->
  match min_shop totals with
  | None => totals = []
  | Some shop =>
      exists l1 l2,
        keys totals = (l1 ++ shop :: l2)%list /\
        (forall x, In x l1 -> fin_at totals shop < fin_at totals x) /\
        (forall x, In x l2 -> fin_at totals shop <= fin_at totals x)
  end.
Proof.
  intros Hwf Hall. unfold min_shop.
  destruct totals as [| [k v] rest] eqn:E; [reflexivity|].
  rewrite <- E in *. replace (keys totals) with (k :: keys rest)
    by (subst totals; reflexivity).
  cbn [py_min].
  destruct (min_scan_spec (fun shop => get_or (Fin 0) shop totals)
              (fin_at totals) (keys rest) [] k [])
    as (l1 & l2 & Heq & H1 & H2).
  - intros x Hx. simpl in Hx.
    assert (Hin : In x (keys totals)) by (subst totals; exact Hx).
    destruct (keys_get _ _ Hin) as [w Hw].
    unfold get_or, fin_at. rewrite Hw.
    apply get_Some_In in Hw. unfold all_fin in Hall.
    rewrite Forall_forall in Hall. destruct (Hall _ Hw) as [z Hz].
    simpl in Hz. now subst w.
  - intros x [].
  - intros x [].
  - exists l1, l2. split; [exact Heq | auto].
Qed.

Lemma set_new_fin k x (tt : dict num) :
  ~ In k (keys tt) -> all_fin tt ->
  all_fin (set k (Fin x) tt) /\ fin_total (set k (Fin x) tt) = fin_total tt + x.
Proof.
  induction tt as [| [k' v] tt IH]; intros Hk Hall; simpl.
  - split; [repeat constructor; simpl; eauto | lia].
  - inversion Hall as [| ? ? [z Hz] Hall']; subst. simpl in Hz. subst v.
    simpl in Hk. destruct (String.eqb_spec k k') as [-> | Hne]; [tauto|].
    destruct IH as [H1 H2]; [tauto | assumption |]. split.
    + constructor; simpl; eauto.
    + simpl. rewrite H2. lia.
Qed.

Definition totals_of (tf : dict (dict num)) (terms : list string) : Z :=
  fold_right (fun t acc => fin_total (get_or empty t tf) + acc) 0 terms.

Lemma terminal_totals_spec tf : forall terms tt,
  NoDup terms ->
  (forall t, In t terms -> ~ In t (keys tt)) ->
  (forall t, In t terms -> exists d, get t tf = Some d /\ all_fin d) ->
  all_fin tt ->
  exists tt',
    terminal_totals terms tf tt = Ok tt' /\ all_fin tt' /\
    keys tt' = (keys tt ++ terms)%list /\
    fin_total tt' = fin_total tt + totals_of tf terms.
Proof.
  induction terms as [| term rest IH]; intros tt Hnd Hnew Hget Hall.
  - exists tt. simpl. rewrite app_nil_r. repeat split; auto. lia.
  - inversion Hnd as [| ? ? Hnotin Hnd']; subst.
    destruct (Hget term) as (d & Hd & Hfin); [now left|].
    cbn [terminal_totals]. unfold lookup. rewrite Hd. cbn [bind].
    rewrite (sum_values_fin d Hfin).
    assert (Hk : ~ In term (keys tt)) by (apply Hnew; now left).
    destruct (set_new_fin term (fin_total d) tt Hk Hall) as [A1 A2].
    destruct (IH (set term (Fin (fin_total d)) tt) Hnd') as (tt' & R & B1 & B2 & B3).
    + intros t Ht Hin. apply in_keys_set in Hin.
      destruct Hin as [-> | Hin]; [contradiction|].
      apply (Hnew t); [now right | assumption].
    + intros t Ht. apply Hget. now right.
    + assumption.
    + exists tt'. split; [assumption|]. split; [assumption|]. split.
      * rewrite B2, (keys_set_notin _ _ _ Hk), <- app_assoc. reflexivity.
      * rewrite B3, A2.
        change (totals_of tf (term :: rest))
          with (fin_total (get_or empty term tf) + totals_of tf rest).
        unfold get_or at 1. rewrite Hd. lia.
Qed.

Lemma terminal_totals_missing tf : forall terms tt,
  (exists t, In t terms /\ ~ In t (keys tf)) ->
  terminal_totals terms tf tt = KeyError.
Proof.
  induction terms as [| term rest IH]; intros tt (t & Hin & Hmiss);
    [contradiction|].
  cbn [terminal_totals]. unfold lookup.
  destruct (get term tf) as [d|] eqn:E; [|reflexivity].
  cbn [bind]. apply IH. exists t. split; [|assumption].
  destruct Hin as [-> | ?]; [|assumption].
  apply get_Some_keys in E. contradiction.
Qed.

Lemma totals_of_keys tf : wf tf -> totals_of tf (keys tf) = grand_total tf.
Proof.
  unfold wf, totals_of, grand_total.
  induction tf as [| [k d] tf IH]; intros Hnd; [reflexivity|].
  inversion Hnd as [| ? ? Hnotin Hnd']; subst. simpl.
  unfold get_or at 1. simpl. rewrite String.eqb_refl. f_equal.
  rewrite <- (IH Hnd'). clear IH Hnd Hnd'.
  revert Hnotin. generalize (keys tf) as l.
  induction l as [| t l IH]; intros Hnotin; [reflexivity|].
  simpl. rewrite IH by (intros H; apply Hnotin; now right). f_equal.
  unfold get_or. simpl.
  destruct (String.eqb_spec t k) as [-> | _]; [|reflexivity].
  exfalso. apply Hnotin. now left.
Qed.

(** Checking the hypotheses on concrete mappings. *)
Definition is_fin (kv : string * num) : bool :=
  match snd kv with Fin _ => true | Inf => false end.

Definition totals_okb (d : dict num) : bool :=
  nodupb (keys d) && forallb is_fin d.

Lemma totals_okb_true d : totals_okb d = true -> wf d /\ all_fin d.
Proof.
  unfold totals_okb. intros H. apply andb_prop in H. destruct H as [H1 H2].
  split; [now apply nodupb_true|].
  unfold all_fin. apply Forall_forall. intros [k v] Hin.
  rewrite forallb_forall in H2. specialize (H2 _ Hin).
  unfold is_fin in H2. simpl in *. destruct v; [eauto | discriminate].
Qed.

Lemma flows_okb_true (tf : dict (dict num)) :
  forallb totals_okb (values tf) = true ->
  Forall (fun d => wf d /\ all_fin d) (values tf).
Proof.
  intros H. apply Forall_forall. intros d Hd.
  rewrite forallb_forall in H. apply totals_okb_true, H, Hd.
Qed.

Lemma min_shop_first_least_witness :
  match min_shop [("Shop 1", Fin 15); ("Shop 5", Fin 5); ("Shop 9", Fin 5)] with
  | None => [("Shop 1", Fin 15); ("Shop 5", Fin 5); ("Shop 9", Fin 5)] = []
  | Some shop =>
      exists l1 l2,
        keys [("Shop 1", Fin 15); ("Shop 5", Fin 5); ("Shop 9", Fin 5)]
          = (l1 ++ shop :: l2)%list /\
        (forall x, In x l1 ->
           fin_at [("Shop 1", Fin 15); ("Shop 5", Fin 5); ("Shop 9", Fin 5)] shop
           < fin_at [("Shop 1", Fin 15); ("Shop 5", Fin 5); ("Shop 9", Fin 5)] x) /\
        (forall x, In x l2 ->
           fin_at [("Shop 1", Fin 15); ("Shop 5", Fin 5); ("Shop 9", Fin 5)] shop
           <= fin_at [("Shop 1", Fin 15); ("Shop 5", Fin 5); ("Shop 9", Fin 5)] x)
  end.
Proof.
  apply (min_shop_first_least
           [("Shop 1", Fin 15); ("Shop 5", Fin 5); ("Shop 9", Fin 5)]).
  - apply totals_okb_true; vm_compute; reflexivity.
  - apply totals_okb_true; vm_compute; reflexivity.
Defined.

(** X15: when every terminal's mapping has distinct keys and integer
    values, [shop_totals] has a key for exactly the shops that occur in
    some terminal's mapping, the total of a shop is the sum of the
    amounts the terminals' mappings give it, and the totals sum to the
    sum of all amounts. *)
Theorem shop_totals_add_up tf :
  Forall (fun d => wf d /\ all_fin d) (values tf) ->
  sum_values (shop_totals tf) = Fin (grand_total tf) /\
  (forall k, In k (keys (shop_totals tf)) <->
             exists d, In d (values tf) /\ In k (keys d)) /\
  (forall k, In k (keys (shop_totals tf)) ->
             get k (shop_totals tf) = Some (Fin (per_shop tf k))).
Proof.
  intros Htf. destruct (shop_totals_spec tf Htf) as (H1 & H2 & H3 & H4).
  split; [|split].
  - rewrite <- H2. now apply sum_values_fin.
  - exact H4.
  - intros k Hk. destruct (keys_get _ _ Hk) as [v Hv].
    pose proof (get_Some_In _ _ _ Hv) as Hin.
    unfold all_fin in H1. rewrite Forall_forall in H1.
    destruct (H1 _ Hin) as [z Hz]. simpl in Hz. subst v.
    rewrite Hv. do 2 f_equal. rewrite <- H3. unfold fin_at. now rewrite Hv.
Qed.

Lemma shop_totals_add_up_witness :
  let tf := [("Terminal 1", [("Shop 4", Fin 15); ("Shop 5", Fin 5)]);
             ("Terminal 2", [("Shop 7", Fin 15); ("Shop 4", Fin 10)])] in
  sum_values (shop_totals tf) = Fin (grand_total tf) /\
  (forall k, In k (keys (shop_totals tf)) <->
             exists d, In d (values tf) /\ In k (keys d)) /\
  (forall k, In k (keys (shop_totals tf)) ->
             get k (shop_totals tf) = Some (Fin (per_shop tf k))).
Proof.
  apply (shop_totals_add_up
           [("Terminal 1", [("Shop 4", Fin 15); ("Shop 5", Fin 5)]);
            ("Terminal 2", [("Shop 7", Fin 15); ("Shop 4", Fin 10)])]).
  apply flows_okb_true; vm_compute; reflexivity.
Defined.

(** X16: when the mapping per terminal has distinct keys, holds a
    mapping with distinct keys and integer values for each of them,
    and the totals are taken over its keys as in [main], the dict
    comprehension raises no KeyError, [terminal_totals] has the same
    keys, and the totals per terminal and the totals per shop have the
    same sum. *)
Theorem terminal_and_shop_totals_agree tf :
  wf tf -> Forall (fun d => wf d /\ all_fin d) (values tf) ->
  exists totals,
    terminal_totals (keys tf) tf empty = Ok totals /\
    keys totals = keys tf /\
    sum_values totals = sum_values (shop_totals tf).
Proof.
  intros Hwf Htf.
  destruct (shop_totals_spec tf Htf) as (H1 & H2 & _).
  destruct (terminal_totals_spec tf (keys tf) empty) as (tt & R & A1 & A2 & A3).
  - exact Hwf.
  - intros t _ [].
  - intros t Ht. destruct (keys_get _ _ Ht) as [d Hd]. exists d.
    split; [assumption|]. apply get_Some_In in Hd.
    rewrite Forall_forall in Htf. apply Htf.
    unfold values. change d with (snd (t, d)). now apply in_map.
  - constructor.
  - exists tt. split; [assumption|]. split; [exact A2|].
    rewrite (sum_values_fin tt A1), (sum_values_fin _ H1), A3, H2.
    rewrite (totals_of_keys tf Hwf). reflexivity.
Qed.

Lemma terminal_and_shop_totals_agree_witness :
  let tf := [("Terminal 1", [("Shop 4", Fin 15); ("Shop 5", Fin 5)]);
             ("Terminal 2", [("Shop 7", Fin 15); ("Shop 4", Fin 10)])] in
  exists totals,
    terminal_totals (keys tf) tf empty = Ok totals /\
    keys totals = keys tf /\
    sum_values totals = sum_values (shop_totals tf).
Proof.
  apply (terminal_and_shop_totals_agree
           [("Terminal 1", [("Shop 4", Fin 15); ("Shop 5", Fin 5)]);
            ("Terminal 2", [("Shop 7", Fin 15); ("Shop 4", Fin 10)])]).
  - apply nodupb_true; vm_compute; reflexivity.
  - apply flows_okb_true; vm_compute; reflexivity.
Defined.

Lemma decompose_terminal_flows_mono
    fuel fuel' limit limit' terminal flow terminals warehouses shops x :
  (fuel <= fuel')%nat -> (limit <= limit')%nat ->
  fst (decompose_terminal_flows fuel limit terminal flow
                                terminals warehouses shops)
    = Ok x ->
  fst (decompose_terminal_flows fuel' limit' terminal flow
                                terminals warehouses shops)
    = Ok x.
Proof.
  unfold decompose_terminal_flows. rewrite build_sub_flow_eq. cbn [fst].
  apply decompose_loop_mono.
Qed.

Lemma decompose_all_calls fuel limit flow terminals warehouses shops :
  forall terms acc,
    fst (decompose_all fuel limit terms flow terminals warehouses shops acc) =
    fold_left
      (fun acc term =>
         set term
             (fst (decompose_terminal_flows fuel limit term flow
                                            terminals warehouses shops))
             acc)
      terms acc.
Proof.
  induction terms as [| term rest IH]; intros acc; [reflexivity|].
  cbn [decompose_all fold_left]. rewrite <- IH.
  pose proof (decompose_frame fuel limit term flow terminals warehouses shops)
    as E.
  destruct (decompose_terminal_flows fuel limit term flow
                                     terminals warehouses shops)
    as [r flow']. simpl in E. subst flow'. reflexivity.
Qed.

(** X17: with fuel for at least 12 rounds of each loop and a recursion
    depth of at least 3 for [dfs], [main] runs to its end without an
    exception: the maximum flow is 115, the terminals total 60 and 55,
    [best_terminal] is Terminal 1 and [min_shop] is Shop 5.  The
    totals per shop sum to 115 as well, but they are not the flow that
    reaches the shops: every terminal is decomposed against the whole
    flow map, so Shop 4 is credited 25 while 15 units enter it, Shop 5
    is credited 5 of the 10 units it receives, and Shop 8, which
    receives 10 units, has no total. *)
Theorem main_completes fuel limit :
  (12 <= fuel)%nat -> (3 <= limit)%nat ->
  exists flow tf st,
    edmonds_karp fuel build_logistics_graph "S" "T" = Ok (Fin 115, flow) /\
    main fuel limit = Ok (Fin 115, tf,
                          [("Terminal 1", Fin 60); ("Terminal 2", Fin 55)], st,
                          Best "Terminal 1", Some "Shop 5") /\
    sum_values st = Fin 115 /\
    (get "Shop 4" st = Some (Fin 25) /\ inflow flow "Shop 4" = 15) /\
    (get "Shop 5" st = Some (Fin 5) /\ inflow flow "Shop 5" = 10) /\
    (get "Shop 8" st = None /\ inflow flow "Shop 8" = 10).
Proof.
  intros Hfuel Hlimit.
  assert (E0 : edmonds_karp fuel build_logistics_graph "S" "T"
               = Ok (Fin 115, logistics_flow)).
  { apply (edmonds_karp_mono 12); [assumption | vm_compute; reflexivity]. }
  assert (E1 : exists r1,
             fst (decompose_terminal_flows fuel limit "Terminal 1"
                    logistics_flow terminals warehouses shops) = Ok r1 /\
             fst (decompose_terminal_flows 12 3 "Terminal 1" logistics_flow
                    terminals warehouses shops) = Ok r1).
  { eexists.
    split; [apply (decompose_terminal_flows_mono 12 _ 3);
            [assumption | assumption |]|];
      vm_compute; reflexivity. }
  assert (E2 : exists r2,
             fst (decompose_terminal_flows fuel limit "Terminal 2"
                    logistics_flow terminals warehouses shops) = Ok r2 /\
             fst (decompose_terminal_flows 12 3 "Terminal 2" logistics_flow
                    terminals warehouses shops) = Ok r2).
  { eexists.
    split; [apply (decompose_terminal_flows_mono 12 _ 3);
            [assumption | assumption |]|];
      vm_compute; reflexivity. }
  destruct E1 as (r1 & E1 & V1). destruct E2 as (r2 & E2 & V2).
  vm_compute in V1. injection V1 as <-. vm_compute in V2. injection V2 as <-.
  exists logistics_flow. unfold main. rewrite E0. cbn [bind].
  pose proof (decompose_all_calls fuel limit logistics_flow
                terminals warehouses shops terminals empty) as Ecalls.
  destruct (decompose_all fuel limit terminals logistics_flow
              terminals warehouses shops empty) as [calls flow'].
  cbn [fst] in Ecalls. subst calls.
  replace (fold_left _ terminals empty)
    with (set "Terminal 2"
            (fst (decompose_terminal_flows fuel limit "Terminal 2"
                    logistics_flow terminals warehouses shops))
            (set "Terminal 1"
               (fst (decompose_terminal_flows fuel limit "Terminal 1"
                       logistics_flow terminals warehouses shops))
               empty)) by reflexivity.
  rewrite E1, E2.
  do 2 eexists. split; [reflexivity|].
  split; [vm_compute; reflexivity|]. vm_compute. repeat split.
Qed.

Lemma main_completes_witness :
  exists flow tf st,
    edmonds_karp 12 build_logistics_graph "S" "T" = Ok (Fin 115, flow) /\
    main 12 3 = Ok (Fin 115, tf,
                    [("Terminal 1", Fin 60); ("Terminal 2", Fin 55)], st,
                    Best "Terminal 1", Some "Shop 5") /\
    sum_values st = Fin 115 /\
    (get "Shop 4" st = Some (Fin 25) /\ inflow flow "Shop 4" = 15) /\
    (get "Shop 5" st = Some (Fin 5) /\ inflow flow "Shop 5" = 10) /\
    (get "Shop 8" st = None /\ inflow flow "Shop 8" = 10).
Proof.
  apply (main_completes 12 3); lia.
Defined.

(** ** The layers of the reference network *)

Definition layerb (g : Graph) (e : string * string) : bool :=
  let '(u, v) := e in
  (0 <? cap g u v) &&
  ((String.eqb u "S" && inb v terminals)
   || (inb u terminals && inb v warehouses)
   || (inb u warehouses && inb v shops)
   || (inb u shops && String.eqb v "T" && (cap g u v =? INF))).

Lemma layerb_true g :
  forallb (layerb g) (edges g) = true ->
  forall u v, In v (slots_of u g) ->
    0 < cap g u v /\
    ((u = "S" /\ In v terminals) \/
     (In u terminals /\ In v warehouses) \/
     (In u warehouses /\ In v shops) \/
     (In u shops /\ v = "T" /\ cap g u v = INF)).
Proof.
  intros H u v Hv. rewrite forallb_forall in H.
  apply in_edges in Hv. specialize (H _ Hv). unfold layerb in H.
  apply andb_prop in H. destruct H as [Hpos H]. apply Z.ltb_lt in Hpos.
  split; [assumption|].
  repeat (apply orb_prop in H; destruct H as [H | H]).
  - apply andb_prop in H. destruct H as [H1 H2]. left.
    apply String.eqb_eq in H1. split; [assumption | now apply inb_In].
  - apply andb_prop in H. destruct H as [H1 H2]. right; left.
    split; now apply inb_In.
  - apply andb_prop in H. destruct H as [H1 H2]. right; right; left.
    split; now apply inb_In.
  - apply andb_prop in H. destruct H as [H H3].
    apply andb_prop in H. destruct H as [H1 H2]. right; right; right.
    apply String.eqb_eq in H2. apply Z.eqb_eq in H3.
    split; [now apply inb_In | split; assumption].
Qed.

Lemma forallb_eqb (f h : string -> Z) l :
  forallb (fun x => f x =? h x) l = true ->
  forall x, In x l -> f x = h x.
Proof.
  intros H x Hx. rewrite forallb_forall in H. apply Z.eqb_eq. now apply H.
Qed.

(** X18: the graph returned by [build_logistics_graph] has the layers
    of its docstring and nothing else: every edge has a positive
    capacity and leads from S to a terminal, from a terminal to a
    warehouse, from a warehouse to a shop, or from a shop to T with
    capacity 10^9; every shop has its edge to T; and the capacity from
    S to a terminal is the total capacity leaving that terminal. *)
Theorem logistics_graph_layers :
  (forall u v, In v (slots_of u build_logistics_graph) ->
     0 < cap build_logistics_graph u v /\
     ((u = "S" /\ In v terminals) \/
      (In u terminals /\ In v warehouses) \/
      (In u warehouses /\ In v shops) \/
      (In u shops /\ v = "T" /\ cap build_logistics_graph u v = INF))) /\
  (forall shop, In shop shops -> cap build_logistics_graph shop "T" = INF) /\
  (forall term, In term terminals ->
     cap build_logistics_graph "S" term = out_capacity build_logistics_graph term).
Proof.
  split; [|split].
  - apply layerb_true. vm_compute. reflexivity.
  - apply (forallb_eqb (fun shop => cap build_logistics_graph shop "T")
                       (fun _ => INF)).
    vm_compute. reflexivity.
  - apply (forallb_eqb (fun term => cap build_logistics_graph "S" term)
                       (fun term => out_capacity build_logistics_graph term)).
    vm_compute. reflexivity.
Qed.
